(** * Colour utilities of the theme generator (colorUtils)

    A shallow embedding of the colour functions listed in
    [color-generation.md] ("Reference implementation"): [isValidHex],
    [hexToHSL], [hslToHex], [generateShadesFromPrimary], [getLuminance],
    [getContrastRatio] and [getContrastTextColor].

    JavaScript numbers are IEEE 754 binary64 values.  They are embedded as
    Rocq's primitive [float]s, which are the same format with the same
    round-to-nearest-even arithmetic, so that [+], [-], [*], [/] and the
    comparisons below are bit-for-bit those of the source.  Strings are
    [string]s; a function that can [throw] returns an [outcome]. *)

From Stdlib Require Import ZArith List Bool String Ascii Lia.
From Stdlib Require Import Floats Uint63.
Import ListNotations.

Set Warnings "-inexact-float".

Local Open Scope string_scope.

(** ** Exceptions *)

(** A call either returns a value or throws an [Error] carrying a message. *)
Inductive outcome (A : Type) : Type :=
| Returns (a : A)
| Throws (msg : string).

Arguments Returns {A} a.
Arguments Throws {A} msg.

Definition bind {A B : Type} (c : outcome A) (k : A -> outcome B) : outcome B :=
  match c with
  | Returns a => k a
  | Throws msg => Throws msg
  end.

Notation "x <- c ;; k" := (bind c (fun x => k))
  (at level 61, c at next level, right associativity).

(** ** The hex pattern

    [HEX_REGEX = /^#?([a-f\d]{2})([a-f\d]{2})([a-f\d]{2})$/i]. *)

(** The class [[a-f\d]] under the [i] flag: a decimal digit or one of the
    letters a to f in either case. *)
Definition hex_class (c : ascii) : bool :=
  let n := nat_of_ascii c in
  ((48 <=? n) && (n <=? 57) || (97 <=? n) && (n <=? 102)
   || (65 <=? n) && (n <=? 70))%nat.

(** [#?]: an optional leading hash.  The class does not contain the hash, so
    taking it greedily loses no match. *)
Definition strip_hash (hex : string) : string :=
  match hex with
  | String "#" rest => rest
  | _ => hex
  end.

(** [HEX_REGEX.exec(hex)]: the three captured groups, or [None] for [null]. *)
Definition HEX_REGEX_exec (hex : string) : option (string * string * string) :=
  match strip_hash hex with
  | String c1 (String c2 (String c3 (String c4 (String c5 (String c6 EmptyString))))) =>
      if hex_class c1 && hex_class c2 && hex_class c3
         && hex_class c4 && hex_class c5 && hex_class c6
      then Some (String c1 (String c2 EmptyString),
                 String c3 (String c4 EmptyString),
                 String c5 (String c6 EmptyString))
      else None
  | _ => None
  end.

(** [HEX_REGEX.test(hex)]. *)
Definition HEX_REGEX_test (hex : string) : bool :=
  match HEX_REGEX_exec hex with
  | Some _ => true
  | None => false
  end.

Definition isValidHex (hex : string) : bool := HEX_REGEX_test hex.

(** ** Numbers and their conversions *)

(** The number nearest to an integer (ties to even), as a numeric literal or
    [parseInt] produces it. *)
Definition Z2F (z : Z) : float := SF2Prim (binary_normalize prec emax z 0 false).

Definition hex_digit_value (c : ascii) : option Z :=
  let n := Z.of_nat (nat_of_ascii c) in
  if ((48 <=? n) && (n <=? 57))%Z then Some (n - 48)%Z
  else if ((97 <=? n) && (n <=? 102))%Z then Some (n - 87)%Z
  else if ((65 <=? n) && (n <=? 70))%Z then Some (n - 55)%Z
  else None.

(** The value of the longest prefix of hex digits, if it is not empty. *)
Fixpoint hex_prefix_value (str : string) (acc : option Z) : option Z :=
  match str with
  | EmptyString => acc
  | String c rest =>
      match hex_digit_value c with
      | Some d =>
          hex_prefix_value rest
            (Some (match acc with Some v => (16 * v + d)%Z | None => d end))
      | None => acc
      end
  end.

(** [parseInt(str, 16)].  The source only passes the two-digit groups of the
    pattern, so leading white space, a sign or a [0x] prefix are not
    modelled. *)
Definition parseInt16 (str : string) : float :=
  match hex_prefix_value str None with
  | Some v => Z2F v
  | None => nan
  end.

(** The integer a number denotes, when it denotes one. *)
Definition integral_value (x : float) : option Z :=
  match Prim2SF x with
  | S754_zero _ => Some 0%Z
  | S754_finite sg m e =>
      let v :=
        if (0 <=? e)%Z then Some (Zpos m * 2 ^ e)%Z
        else if (Zpos m mod 2 ^ (- e) =? 0)%Z then Some (Zpos m / 2 ^ (- e))%Z
        else None in
      option_map (fun v => if sg then (- v)%Z else v) v
  | _ => None
  end.

Definition hex_digit (d : Z) : ascii :=
  ascii_of_nat (Z.to_nat (if (d <? 10)%Z then d + 48 else d + 87)%Z).

Fixpoint hex_digits (fuel : nat) (z : Z) (acc : string) : string :=
  match fuel with
  | O => acc
  | S fuel' =>
      let acc' := String (hex_digit (z mod 16)) acc in
      if (z / 16 =? 0)%Z then acc' else hex_digits fuel' (z / 16)%Z acc'
  end.

(** [x.toString(16)] for the numbers [Math.round] returns: integers, NaN and
    the infinities.  The digits after the radix point of a number that is
    not an integer are not modelled; ["."] stands for them. *)
Definition Number_toString16 (x : float) : string :=
  match integral_value x with
  | Some z =>
      let digits := hex_digits (S (Z.to_nat (Z.log2 (Z.abs z)))) (Z.abs z) "" in
      if (z <? 0)%Z then "-" ++ digits else digits
  | None =>
      if is_nan x then "NaN"
      else if is_infinity x then (if get_sign x then "-Infinity" else "Infinity")
      else "."
  end.

Fixpoint repeat_char (n : nat) (c : ascii) : string :=
  match n with
  | O => ""
  | S n' => String c (repeat_char n' c)
  end.

(** [str.padStart(n, c)] for a one-character filler. *)
Definition padStart (n : nat) (c : ascii) (str : string) : string :=
  repeat_char (n - String.length str) c ++ str.

Local Open Scope float_scope.

(** ** The Math functions the source calls *)

(** [Math.max] and [Math.min] of two numbers: [+0] is larger than [-0], and
    the result is NaN if either is NaN (no comparison holds then). *)
Definition Math_max2 (x y : float) : float :=
  if x <? y then y
  else if y <? x then x
  else if x =? y then (if get_sign x then y else x)
  else nan.

Definition Math_min2 (x y : float) : float :=
  if x <? y then x
  else if y <? x then y
  else if x =? y then (if get_sign x then x else y)
  else nan.

Definition Math_max3 (x y z : float) : float := Math_max2 (Math_max2 x y) z.
Definition Math_min3 (x y z : float) : float := Math_min2 (Math_min2 x y) z.

Definition two52 : float := 4503599627370496.

(** The largest integer not above [x].  Below 2^52 in magnitude, adding and
    removing 2^52 rounds [x] to an integer, which is then corrected
    downwards; from 2^52 on every number is an integer. *)
Definition floor_number (x : float) : float :=
  if abs x <? two52 then
    let t := if 0 <=? x then (x + two52) - two52 else (x - two52) + two52 in
    if x <? t then t - 1 else t
  else x.

(** [Math.round(x)]: the integer nearest to [x], the larger one on a tie;
    a result that is zero is [-0] when [x] is negative or [-0]. *)
Definition Math_round (x : float) : float :=
  let f := floor_number x in
  let r := if 0.5 <=? x - f then f + 1 else f in
  if r =? 0 then (if x <? 0 then neg_zero else if x =? 0 then x else 0)
  else r.

(** [x % y]: the remainder of the truncating division, computed exactly; it
    has the sign of [x]. *)
Definition js_rem (x y : float) : float :=
  match Prim2SF x, Prim2SF y with
  | S754_nan, _ => nan
  | _, S754_nan => nan
  | S754_infinity _, _ => nan
  | _, S754_zero _ => nan
  | S754_zero _, _ => x
  | _, S754_infinity _ => x
  | S754_finite sx mx ex, S754_finite _ my ey =>
      let e := Z.min ex ey in
      let r := ((Zpos mx * 2 ^ (ex - e)) mod (Zpos my * 2 ^ (ey - e)))%Z in
      if (r =? 0)%Z then (if sx then neg_zero else 0)
      else
        let f := Z.ldexp (of_uint63 (of_Z r)) e in
        if sx then - f else f
  end.

(** ** hexToHSL and hslToHex *)

Record HSL : Type := { h : float; s : float; l : float }.

(** The body of [hexToHSL] after the three channels are parsed. *)
Definition rgbToHSL (r g b : float) : HSL :=
  let max := Math_max3 r g b in
  let min := Math_min3 r g b in
  let l := (max + min) / 2 in
  if negb (max =? min) then
    let d := max - min in
    let s := if 0.5 <? l then d / (2 - max - min) else d / (max + min) in
    let h :=
      if max =? r then ((g - b) / d + (if g <? b then 6 else 0)) / 6
      else if max =? g then ((b - r) / d + 2) / 6
      else if max =? b then ((r - g) / d + 4) / 6
      else 0 in
    {| h := Math_round (h * 360);
       s := Math_round (s * 100);
       l := Math_round (l * 100) |}
  else
    {| h := Math_round (0 * 360);
       s := Math_round (0 * 100);
       l := Math_round (l * 100) |}.

Definition hexToHSL (hex : string) : outcome HSL :=
  match HEX_REGEX_exec hex with
  | None => Throws ("Invalid hex color: " ++ hex)
  | Some (c1, c2, c3) =>
      let r := parseInt16 c1 / 255 in
      let g := parseInt16 c2 / 255 in
      let b := parseInt16 c3 / 255 in
      Returns (rgbToHSL r g b)
  end.

Definition hslToHex (h s l : float) : string :=
  let s := s / 100 in
  let l := l / 100 in
  let a := s * Math_min2 l (1 - l) in
  let f := fun n : float =>
    let k := js_rem (n + h / 30) 12 in
    let color := l - a * Math_max2 (Math_min3 (k - 3) (9 - k) 1) (-1) in
    padStart 2 "0" (Number_toString16 (Math_round (255 * color))) in
  ("#" ++ f 0 ++ f 8 ++ f 4)%string.

Definition lightnessLevels : list float := [92; 78; 64; 50; 36].

Definition generateShadesFromPrimary (primaryHex : string) : outcome (list string) :=
  hsl <- hexToHSL primaryHex ;;
  Returns (map (fun l => hslToHex (h hsl) (s hsl) l) lightnessLevels).

(** ** Luminance and contrast

    ECMAScript leaves the result of [Math.pow] "implementation-approximated",
    so the functions that call it take it as a parameter. *)

Section Contrast.

Variable Math_pow : float -> float -> float.

(** The gamma expansion applied to each captured group by [getLuminance]. *)
Definition linearChannel (c : string) : float :=
  let val := parseInt16 c / 255 in
  if val <=? 0.03928 then val / 12.92
  else Math_pow ((val + 0.055) / 1.055) 2.4.

Definition getLuminance (hex : string) : outcome float :=
  match HEX_REGEX_exec hex with
  | None => Returns 0
  | Some (c1, c2, c3) =>
      let r := linearChannel c1 in
      let g := linearChannel c2 in
      let b := linearChannel c3 in
      Returns (0.2126 * r + 0.7152 * g + 0.0722 * b)
  end.

Definition getContrastRatio (foreground background : string) : outcome float :=
  L1 <- getLuminance foreground ;;
  L2 <- getLuminance background ;;
  let lighter := Math_max2 L1 L2 in
  let darker := Math_min2 L1 L2 in
  Returns ((lighter + 0.05) / (darker + 0.05)).

Definition black : string := "#010101".
Definition white : string := "#FFFFFF".

Definition getContrastTextColor (hexBackground : string) : outcome string :=
  ratioBlack <- getContrastRatio black hexBackground ;;
  ratioWhite <- getContrastRatio white hexBackground ;;
  let blackPasses := 4.5 <=? ratioBlack in
  let whitePasses := 4.5 <=? ratioWhite in
  if blackPasses && whitePasses then
    Returns (if ratioWhite <=? ratioBlack then black else white)
  else if blackPasses then Returns black
  else if whitePasses then Returns white
  else Returns (if ratioWhite <=? ratioBlack then black else white).

End Contrast.

(** *** A reference [Math.pow]

    One concrete approximation of the power function for a positive base,
    [exp (y * ln x)] with both series summed in binary64.  It is only used
    to exhibit inputs on which the hypotheses of the theorems below hold. *)

Fixpoint atanh_terms (n : nat) (k u2 acc : float) : float :=
  match n with
  | O => acc
  | S n' => atanh_terms n' (k - 2) u2 (1 / k + u2 * acc)
  end.

Definition ln2 : float := 0.6931471805599453.

Definition ln_ref (x : float) : float :=
  let (m, e) := frshiftexp x in
  let e := of_uint63 e - 2101 in
  let (m, e) := if m <? 0.7071067811865476 then (2 * m, e - 1) else (m, e) in
  let u := (m - 1) / (m + 1) in
  e * ln2 + 2 * u * atanh_terms 14 27 (u * u) 0.

Fixpoint exp_terms (n : nat) (k r acc : float) : float :=
  match n with
  | O => acc
  | S n' => exp_terms n' (k - 1) r (1 + r / k * acc)
  end.

Definition exp_ref (z : float) : float :=
  let k := Math_round (z / ln2) in
  let r := z - k * ln2 in
  let scale := if 0 <=? k
               then ldshiftexp 1 (normfr_mantissa (fst (frshiftexp (k + two52))) - 4503599627370496 + 2101)%uint63
               else 1 / ldshiftexp 1 (normfr_mantissa (fst (frshiftexp (two52 - k))) - 4503599627370496 + 2101)%uint63 in
  exp_terms 20 20 r 1 * scale.

Definition pow_ref (x y : float) : float :=
  if y =? 0 then 1
  else if (0 <? x) && (x <? infinity) && (abs y <? infinity) then exp_ref (y * ln_ref x)
  else if (x =? 0) && (0 <? y) then 0
  else nan.

(** ** Finite domains

    The channels of a valid hex colour are the 256 numbers [v / 255]; the
    components of an [HSL] are whole numbers of degrees and of percent.  The
    properties below that quantify over them are settled by evaluating the
    functions on every element of these tables. *)

Definition natFloat (n : nat) : float := Z2F (Z.of_nat n).

Definition floatsUpTo (n : nat) : list float := map natFloat (seq 0 (S n)).

Definition bytes : list float := Eval vm_compute in floatsUpTo 255.
Definition percents : list float := Eval vm_compute in floatsUpTo 100.
Definition degrees : list float := Eval vm_compute in floatsUpTo 360.

Definition channels : list float :=
  Eval vm_compute in map (fun v => v / 255) (floatsUpTo 255).

(** The whole number a float in [0, 2^52) denotes, read off the mantissa of
    [x + 2^52]; [is_int_upto n x] holds when [x] is the number [i] for some
    integer [i <= n]. *)
Definition truncated_int (x : float) : int :=
  (normfr_mantissa (fst (frshiftexp (x + two52))) - 4503599627370496)%uint63.

Definition is_int_upto (n : int) (x : float) : bool :=
  let i := truncated_int x in
  (i <=? n)%uint63 && PrimFloat.Leibniz.eqb (of_uint63 i) x.

Definition mem_float (x : float) (xs : list float) : bool :=
  existsb (PrimFloat.Leibniz.eqb x) xs.

(** The saturation and lightness [rgbToHSL] computes depend on the extreme
    channels only. *)
Definition saturationOf (max min : float) : float :=
  let l := (max + min) / 2 in
  let d := max - min in
  Math_round
    ((if negb (max =? min)
      then (if 0.5 <? l then d / (2 - max - min) else d / (max + min))
      else 0) * 100).

Definition lightnessOf (max min : float) : float :=
  Math_round ((max + min) / 2 * 100).

(** The two factors of a channel of [hslToHex]: the weight of the hue for
    the channel offset [n], and the rounded channel for a weight [t]. *)
Definition sectorWeight (h n : float) : float :=
  let k := js_rem (n + h / 30) 12 in
  Math_max2 (Math_min3 (k - 3) (9 - k) 1) (-1).

Definition channelColor (s l t : float) : float :=
  let a := s * Math_min2 l (1 - l) in
  l - a * t.

Definition channelValue (s l t : float) : float :=
  Math_round (255 * channelColor s l t).

Definition hex2 (x : float) : string := padStart 2 "0" (Number_toString16 x).

Definition hueWeights : list (float * (float * float * float)) :=
  Eval vm_compute in
    map (fun h => (h, (sectorWeight h 0, sectorWeight h 8, sectorWeight h 4)))
        (floatsUpTo 360).

Fixpoint dedup (xs : list float) (seen : list float) : list float :=
  match xs with
  | [] => seen
  | x :: xs' => dedup xs' (if mem_float x seen then seen else x :: seen)
  end.

Definition weights : list float :=
  Eval vm_compute in
    dedup (flat_map (fun e => let '(_, (t0, t8, t4)) := e in [t0; t8; t4]) hueWeights) [].

(** The hue [rgbToHSL] computes, given the extreme channels. *)
Definition hueOf (max min r g b : float) : float :=
  let d := max - min in
  Math_round
    ((if negb (max =? min)
      then (if max =? r then ((g - b) / d + (if g <? b then 6 else 0)) / 6
            else if max =? g then ((b - r) / d + 2) / 6
            else if max =? b then ((r - g) / d + 4) / 6
            else 0)
      else 0) * 360).

(** The checks that are run over the tables. *)

Definition hue_check (max min r g b : float) : bool :=
  (min <=? max) && is_int_upto 360 (hueOf max min r g b).

Definition all_hues (xs : list float) : bool :=
  forallb (fun r =>
    forallb (fun g =>
      let u := Math_max2 r g in
      let v := Math_min2 r g in
      forallb (fun b => hue_check (Math_max2 u b) (Math_min2 v b) r g b) xs) xs) xs.

Definition extremes_check (max min : float) : bool :=
  if min <=? max
  then is_int_upto 100 (saturationOf max min) && is_int_upto 100 (lightnessOf max min)
  else true.

Definition shade_check (e : float * (float * float * float))
    (percent level : float) : bool :=
  let '(_, (t0, t8, t4)) := e in
  let s' := percent / 100 in
  let l' := level / 100 in
  let r := channelValue s' l' t0 in
  let g := channelValue s' l' t8 in
  let b := channelValue s' l' t4 in
  is_int_upto 255 r && is_int_upto 255 g && is_int_upto 255 b
  && PrimFloat.Leibniz.eqb (l (rgbToHSL (r / 255) (g / 255) (b / 255))) level.

Definition channel_check (s l t : float) : bool :=
  let color := channelColor (s / 100) (l / 100) t in
  (0 <=? color) && (color <=? 1) && is_int_upto 255 (Math_round (255 * color)).

Definition byte_text_check (x : float) : bool :=
  match hex2 x with
  | String c1 (String c2 EmptyString) =>
      hex_class c1 && hex_class c2
      && PrimFloat.Leibniz.eqb (parseInt16 (String c1 (String c2 EmptyString))) x
  | _ => false
  end.

(** The characters the specification calls hex digits. *)
Definition hexChars : list ascii := list_ascii_of_string "0123456789abcdefABCDEF".

Definition digit_in_range (c : ascii) : bool :=
  match hex_digit_value c with
  | Some d => ((0 <=? d) && (d <? 16))%Z
  | None => false
  end.

(** ** Auxiliary definitions of the proofs *)

(** A string of six characters, and one of two. *)
Definition six (c1 c2 c3 c4 c5 c6 : ascii) : string :=
  String c1 (String c2 (String c3 (String c4 (String c5 (String c6 EmptyString))))).

Definition pair_of (c1 c2 : ascii) : string := String c1 (String c2 EmptyString).

(** The largest and the smallest of two numbers are among them. *)
Definition extremes_closed (x y : float) : bool :=
  mem_float (Math_max2 x y) [x; y] && mem_float (Math_min2 x y) [x; y].

Definition all_pairs {A B : Type} (check : A -> B -> bool)
    (xs : list A) (ys : list B) : bool :=
  forallb (fun x => forallb (check x) ys) xs.

Definition all_triples {A B C : Type} (check : A -> B -> C -> bool)
    (xs : list A) (ys : list B) (zs : list C) : bool :=
  forallb (fun x => forallb (fun y => forallb (check x y) zs) ys) xs.

Definition weights_closed (e : float * (float * float * float)) : bool :=
  let '(_, (t0, t8, t4)) := e in
  mem_float t0 weights && mem_float t8 weights && mem_float t4 weights.

(** The three channels of a colour, and the colour [hexToHSL] followed by
    [hslToHex] gives back. *)
Definition channelsOf (hex : string) : option (float * float * float) :=
  match HEX_REGEX_exec hex with
  | Some (c1, c2, c3) => Some (parseInt16 c1, parseInt16 c2, parseInt16 c3)
  | None => None
  end.

Definition roundTrip (hex : string) : outcome string :=
  x <- hexToHSL hex ;;
  Returns (hslToHex (h x) (s x) (l x)).

Definition channels_within (d : float) (p q : string) : bool :=
  match channelsOf p, channelsOf q with
  | Some (r, g, b), Some (r', g', b') =>
      (abs (r - r') <=? d) && (abs (g - g') <=? d) && (abs (b - b') <=? d)
  | _, _ => false
  end.


(** ** Binary64 arithmetic on numbers that are not negative

    The contrast ratio is a quotient of sums of products.  To bound it the
    operations of [SpecFloat], to which the primitive operations are equal,
    are described on integers: a number that is not negative is counted in
    units of [2 ^ (- omega)], and an operation returns the rounding to
    nearest, ties to even, of the exact result. *)

Section ScaledValues.

Local Open Scope Z_scope.

(** What the shift record of [shr] holds of a quotient [P / Q]. *)
Definition rec_inv (P Q : Z) (r : shr_record) : Prop :=
  shr_m r = P / Q
  /\ shr_r r = Z.odd (2 * P / Q)
  /\ shr_s r = negb (2 * P mod Q =? 0).

(** Rounding to nearest, ties to even, of [P / Q] to an integer. *)
Definition RNE (P Q : Z) : Z :=
  match 2 * (P mod Q) ?= Q with
  | Lt => P / Q
  | Eq => if Z.even (P / Q) then P / Q else P / Q + 1
  | Gt => P / Q + 1
  end.

Definition omega : Z := 2200.

Definition kc (N D : Z) : Z := Z.max (Zdigits2 (N / D) - 53) (omega - 1074).

(** [N / D] rounded to 53 significant bits, or to a multiple of the
    smallest subnormal number. *)
Definition RNs (N D : Z) : Z := RNE N (2 ^ kc N D * D) * 2 ^ kc N D.

Definition nn (f : spec_float) : Prop :=
  match f with
  | S754_zero _ => True
  | S754_finite false _ _ => True
  | _ => False
  end.

Definition V (f : spec_float) : Z :=
  match f with
  | S754_finite false m e => Zpos m * 2 ^ (e + omega)
  | _ => 0
  end.

Definition R (N D : Z) : Z := if N =? 0 then 0 else RNs N D.

Definition FV (x : float) : Z := V (Prim2SF x).
Definition fnn (x : float) : Prop := nn (Prim2SF x).

Definition moderate (x : float) : Prop :=
  fnn x /\ FV x <= 2 ^ (omega + 5).

Definition sizeable (x : float) : Prop :=
  moderate x /\ 2 ^ (omega - 5) <= FV x.

Definition unit_range (x : float) : Prop := fnn x /\ (FV x <= 2 ^ omega)%Z.

End ScaledValues.

(** What the contrast ratio needs of [Math.pow]: on the gamma branch of
    each of the 256 channel values its result is a number of [0, 1]. *)
Definition gamma_check (pow : float -> float -> float) (v : float) : bool :=
  let val := v / 255 in
  (val <=? 0.03928)
  || (let c := pow ((val + 0.055) / 1.055) 2.4 in (0 <=? c) && (c <=? 1)).

(** The linear branch of the gamma expansion stays in [0, 1]. *)
Definition linear_check (v : float) : bool :=
  let val := v / 255 in
  negb (val <=? 0.03928) || ((0 <=? val / 12.92) && (val / 12.92 <=? 1)).

(** * The colour picker (ThemeColorPicker.tsx)

    The component keeps two pieces of state, the text of the primary colour
    and the array of the five shades, and changes them in four event
    handlers.  A handler is embedded as a function from the state before the
    event to the state after it; the arrays of the component can have
    missing entries, so they are lists of optional strings, [None] standing
    for [undefined].  A string is read as its UTF-8 bytes. *)

Module ThemeColorPicker.

Definition PLACEHOLDER : string := "—".

(** A string is falsy exactly when it is empty. *)
Definition truthy (str : string) : bool := negb (String.eqb str "").

(** The class [[a-fA-F0-9]]. *)
Definition hex_char (c : ascii) : bool :=
  let n := nat_of_ascii c in
  ((97 <=? n) && (n <=? 102) || (65 <=? n) && (n <=? 70)
   || (48 <=? n) && (n <=? 57))%nat.

(** [str.replace(/[^...]/g, '')]: the characters of a class, in order. *)
Fixpoint keep_chars (keep : ascii -> bool) (str : string) : string :=
  match str with
  | EmptyString => EmptyString
  | String c rest =>
      if keep c then String c (keep_chars keep rest) else keep_chars keep rest
  end.

(** [${str[i]}] inside a template literal. *)
Definition char_at (str : string) (i : nat) : string :=
  match String.get i str with
  | Some c => String c EmptyString
  | None => "undefined"
  end.

Definition normalizeHex (value : string) : string :=
  let cleaned := keep_chars hex_char value in
  if (String.length cleaned =? 6)%nat then "#" ++ cleaned
  else if (String.length cleaned =? 3)%nat then
    "#" ++ char_at cleaned 0 ++ char_at cleaned 0
        ++ char_at cleaned 1 ++ char_at cleaned 1
        ++ char_at cleaned 2 ++ char_at cleaned 2
  else if truthy value then "#" ++ cleaned else "".

(** *** String.prototype.trim

    The white space and line terminators of the language, each as its
    UTF-8 bytes: U+0009 to U+000D, U+0020, U+00A0, U+1680, U+2000 to U+200A,
    U+2028, U+2029, U+202F, U+205F, U+3000 and U+FEFF. *)
Definition whiteSpace : list (list nat) :=
  [[9]; [10]; [11]; [12]; [13]; [32]; [194; 160]; [225; 154; 128];
   [226; 128; 128]; [226; 128; 129]; [226; 128; 130]; [226; 128; 131];
   [226; 128; 132]; [226; 128; 133]; [226; 128; 134]; [226; 128; 135];
   [226; 128; 136]; [226; 128; 137]; [226; 128; 138];
   [226; 128; 168]; [226; 128; 169]; [226; 128; 175]; [226; 129; 159];
   [227; 128; 128]; [239; 187; 191]]%nat.

Fixpoint strip_prefix (p : list nat) (cs : list ascii) : option (list ascii) :=
  match p, cs with
  | [], _ => Some cs
  | n :: p', c :: cs' =>
      if (nat_of_ascii c =? n)%nat then strip_prefix p' cs' else None
  | _ :: _, [] => None
  end.

Fixpoint strip_first (ps : list (list nat)) (cs : list ascii) : option (list ascii) :=
  match ps with
  | [] => None
  | p :: ps' =>
      match strip_prefix p cs with
      | Some rest => Some rest
      | None => strip_first ps' cs
      end
  end.

Fixpoint strip_all (fuel : nat) (ps : list (list nat)) (cs : list ascii) : list ascii :=
  match fuel with
  | O => cs
  | S fuel' =>
      match strip_first ps cs with
      | Some rest => strip_all fuel' ps rest
      | None => cs
      end
  end.

Definition trim (str : string) : string :=
  let cs := list_ascii_of_string str in
  let front := strip_all (List.length cs) whiteSpace cs in
  let back := strip_all (List.length front) (map (@rev nat) whiteSpace) (rev front) in
  string_of_list_ascii (rev back).

(** *** Arrays *)

(** [xs[i]]. *)
Definition array_get {A : Type} (xs : list (option A)) (i : nat) : option A :=
  nth i xs None.

(** [xs[i] = v] on a copy of the array: an index past the end extends the
    array, leaving the entries in between missing. *)
Definition array_set {A : Type} (xs : list (option A)) (i : nat) (v : option A)
  : list (option A) :=
  if (i <? List.length xs)%nat then firstn i xs ++ v :: skipn (S i) xs
  else xs ++ repeat None (i - List.length xs) ++ [v].

(** [x || y] on strings that may be missing. *)
Definition or_else (x y : option string) : option string :=
  match x with
  | Some str => if truthy str then x else y
  | None => y
  end.

(** *** State and handlers *)

Record Picker : Type := { primary : string; shades : list (option string) }.

Definition initial : Picker := {| primary := ""; shades := [] |}.

Definition handlePrimaryChange (value : string) (st : Picker) : outcome Picker :=
  let hex := normalizeHex value in
  if negb (truthy hex) then Returns {| primary := ""; shades := [] |}
  else if isValidHex hex then
    generated <- generateShadesFromPrimary hex ;;
    Returns {| primary := hex; shades := map Some generated |}
  else
    Returns {| primary := (if truthy hex then hex else ""); shades := shades st |}.

Definition handlePrimaryInputBlur (value : string) (st : Picker) : outcome Picker :=
  let hex := normalizeHex value in
  if truthy hex && isValidHex hex then
    generated <- generateShadesFromPrimary hex ;;
    Returns {| primary := hex; shades := map Some generated |}
  else if negb (truthy (trim value)) then Returns {| primary := ""; shades := [] |}
  else Returns st.

Definition handleShadeChange (index : nat) (value : string) (st : Picker)
  : outcome Picker :=
  let hex := normalizeHex value in
  let prev := shades st in
  let next :=
    if truthy hex && isValidHex hex then array_set prev index (Some hex)
    else if negb (truthy (trim value)) then array_set prev index (Some "")
    else prev in
  Returns {| primary := primary st; shades := next |}.

Definition handleShadeBlur (index : nat) (value : string) (st : Picker)
  : outcome Picker :=
  if negb (truthy (primary st)) || negb (isValidHex (primary st)) then Returns st
  else
    let hex := normalizeHex value in
    if truthy hex && isValidHex hex then
      Returns {| primary := primary st;
                 shades := array_set (shades st) index (Some hex) |}
    else
      generated <- generateShadesFromPrimary (primary st) ;;
      Returns {| primary := primary st;
                 shades := array_set (shades st) index (nth_error generated index) |}.

(** *** What a render derives from the state *)

Definition hasTheme (st : Picker) : bool :=
  truthy (primary st) && isValidHex (primary st).

Definition defaults (st : Picker) : outcome (list string) :=
  if hasTheme st then generateShadesFromPrimary (primary st) else Returns [].

Definition shadeOrDefault (st : Picker) (generated : list string) (i : nat)
  : option string :=
  or_else (array_get (shades st) i) (nth_error generated i).

Definition displayShades (st : Picker) : outcome (list (option string)) :=
  generated <- defaults st ;;
  Returns (if hasTheme st
           then map (shadeOrDefault st generated) [0; 1; 2; 3; 4]%nat
           else []).

Definition cssVars (st : Picker) : outcome (list (option string)) :=
  generated <- defaults st ;;
  Returns (if hasTheme st
           then Some (primary st)
                :: map (shadeOrDefault st generated) [0; 1; 2; 3; 4]%nat
           else []).

Section Tiles.

Variable Math_pow : float -> float -> float.

(** The colour of the text of tile [i]. *)
Definition tileTextColor (display : list (option string)) (i : nat)
  : outcome string :=
  match array_get display i with
  | Some color =>
      if negb (truthy color) || String.eqb color PLACEHOLDER
      then Returns "#94a3b8"
      else getContrastTextColor Math_pow color
  | None => Returns "#94a3b8"
  end.

End Tiles.

(** *** Events *)

Inductive event : Type :=
| PrimaryChange (value : string)
| PrimaryBlur (value : string)
| ShadeChange (index : nat) (value : string)
| ShadeBlur (index : nat) (value : string).

Definition handle (e : event) (st : Picker) : outcome Picker :=
  match e with
  | PrimaryChange value => handlePrimaryChange value st
  | PrimaryBlur value => handlePrimaryInputBlur value st
  | ShadeChange index value => handleShadeChange index value st
  | ShadeBlur index value => handleShadeBlur index value st
  end.

(** The state after a sequence of events. *)
Fixpoint run (es : list event) (st : Picker) : outcome Picker :=
  match es with
  | [] => Returns st
  | e :: es' => st' <- handle e st ;; run es' st'
  end.

End ThemeColorPicker.

(** ** Checks over the tables for the properties of the shades *)

(** A colour as the picker stores it: a hash and six hex digits. *)
Definition hash_hex (str : string) : bool :=
  match str with
  | String "#" _ => isValidHex str
  | _ => false
  end.

(** [rgbToHSL] on the grey of channel [c]. *)
Definition grey_hsl_check (v : float) : bool :=
  let c := v / 255 in
  let x := rgbToHSL c c c in
  PrimFloat.Leibniz.eqb (h x) 0 && PrimFloat.Leibniz.eqb (s x) 0
  && PrimFloat.Leibniz.eqb (l x) (Math_round (c * 100)).

(** The channel of lightness 0 and of lightness 100, whatever the
    saturation and the weight of the hue. *)
Definition edge_check (percent t : float) : bool :=
  PrimFloat.Leibniz.eqb (channelValue (percent / 100) (0 / 100) t) 0
  && PrimFloat.Leibniz.eqb (channelValue (percent / 100) (100 / 100) t) 255.

(** The channel of saturation 0. *)
Definition grey_channel_check (percent t : float) : bool :=
  PrimFloat.Leibniz.eqb (channelValue (0 / 100) (percent / 100) t)
                        (Math_round (255 * (percent / 100))).

(** The three channels of the shade of a hue, a saturation and a level. *)
Definition shadeChannels (e : float * (float * float * float))
    (percent level : float) : float * float * float :=
  let '(_, (t0, t8, t4)) := e in
  (channelValue (percent / 100) (level / 100) t0,
   channelValue (percent / 100) (level / 100) t8,
   channelValue (percent / 100) (level / 100) t4).

Definition channels_le (p q : float * float * float) : bool :=
  let '(r, g, b) := p in
  let '(r', g', b') := q in
  (r <=? r') && (g <=? g') && (b <=? b').

Fixpoint descending (cs : list (float * float * float)) : bool :=
  match cs with
  | p :: (q :: _) as rest => channels_le q p && descending rest
  | _ => true
  end.

Definition darker_check (e : float * (float * float * float)) (percent : float)
  : bool :=
  descending (map (shadeChannels e percent) lightnessLevels).

(** The saturation read back from a shade. *)
Definition saturation_check (e : float * (float * float * float))
    (percent level : float) : bool :=
  let '(r, g, b) := shadeChannels e percent level in
  abs (s (rgbToHSL (r / 255) (g / 255) (b / 255)) - percent) <=? 2.

(** [q] is not lighter than [p] in any channel. *)
Definition not_lighter (p q : string) : bool :=
  match channelsOf p, channelsOf q with
  | Some cp, Some cq => channels_le cq cp
  | _, _ => false
  end.

(** ** The entries the picker keeps *)

(** An entry of the array of shades: missing, empty, or a colour. *)
Definition shade_entry_ok (e : option string) : bool :=
  match e with
  | None => true
  | Some str => negb (ThemeColorPicker.truthy str) || hash_hex str
  end.

Definition picker_ok (st : ThemeColorPicker.Picker) : bool :=
  forallb shade_entry_ok (ThemeColorPicker.shades st)
  && (negb (ThemeColorPicker.hasTheme st)
      || hash_hex (ThemeColorPicker.primary st)).

(** The characters of a string are all in a class. *)
Definition all_chars (keep : ascii -> bool) (str : string) : bool :=
  forallb keep (list_ascii_of_string str).

(** * Properties *)

(** ** The pattern *)

Ltac each_ascii c := destruct c as [[] [] [] [] [] [] [] []].

Lemma hex_class_existsb (c : ascii) :
  hex_class c = existsb (Ascii.eqb c) hexChars.
Proof. each_ascii c; vm_compute; reflexivity. Qed.

Lemma hex_class_In (c : ascii) : hex_class c = true <-> In c hexChars.
Proof.
  rewrite hex_class_existsb, existsb_exists. split.
  - intros [x [Hx Hc]]. apply Ascii.eqb_eq in Hc. now subst.
  - intros Hc. exists c. split; [exact Hc | apply Ascii.eqb_refl].
Qed.

Lemma hex_class_digit (c : ascii) : hex_class c = digit_in_range c.
Proof. each_ascii c; vm_compute; reflexivity. Qed.

Lemma hex_class_value (c : ascii) :
  hex_class c = true ->
  exists d, hex_digit_value c = Some d /\ (0 <= d < 16)%Z.
Proof.
  rewrite hex_class_digit. unfold digit_in_range.
  destruct (hex_digit_value c) as [d|]; [|discriminate].
  intros Hd. exists d. split; [reflexivity|lia].
Qed.

Lemma strip_hash_cases (hex : string) :
  (exists rest, hex = String "#" rest /\ strip_hash hex = rest)
  \/ (strip_hash hex = hex /\ forall rest, hex <> String "#" rest).
Proof.
  destruct hex as [|c rest].
  - right. split; [reflexivity | discriminate].
  - destruct (Ascii.eqb_spec c "#") as [->|Hc].
    + left. exists rest. split; reflexivity.
    + right. split.
      * each_ascii c; try reflexivity. now contradiction Hc.
      * intros rest' Heq. injection Heq as Hc' _. contradiction.
Qed.

Lemma exec_inv (hex g1 g2 g3 : string) :
  HEX_REGEX_exec hex = Some (g1, g2, g3) ->
  exists c1 c2 c3 c4 c5 c6,
    strip_hash hex = six c1 c2 c3 c4 c5 c6
    /\ g1 = pair_of c1 c2 /\ g2 = pair_of c3 c4 /\ g3 = pair_of c5 c6
    /\ hex_class c1 = true /\ hex_class c2 = true /\ hex_class c3 = true
    /\ hex_class c4 = true /\ hex_class c5 = true /\ hex_class c6 = true.
Proof.
  unfold HEX_REGEX_exec.
  destruct (strip_hash hex) as [|c1 [|c2 [|c3 [|c4 [|c5 [|c6 [|c7 r]]]]]]];
    try discriminate.
  destruct (hex_class c1) eqn:H1; [|discriminate].
  destruct (hex_class c2) eqn:H2; [|discriminate].
  destruct (hex_class c3) eqn:H3; [|discriminate].
  destruct (hex_class c4) eqn:H4; [|discriminate].
  destruct (hex_class c5) eqn:H5; [|discriminate].
  destruct (hex_class c6) eqn:H6; [|discriminate].
  simpl. intros Heq. injection Heq as <- <- <-.
  exists c1, c2, c3, c4, c5, c6. unfold six, pair_of. intuition.
Qed.

Lemma exec_six (hex : string) (c1 c2 c3 c4 c5 c6 : ascii) :
  strip_hash hex = six c1 c2 c3 c4 c5 c6 ->
  hex_class c1 = true -> hex_class c2 = true -> hex_class c3 = true ->
  hex_class c4 = true -> hex_class c5 = true -> hex_class c6 = true ->
  HEX_REGEX_exec hex = Some (pair_of c1 c2, pair_of c3 c4, pair_of c5 c6).
Proof.
  intros Hs H1 H2 H3 H4 H5 H6. unfold HEX_REGEX_exec. rewrite Hs. unfold six.
  rewrite H1, H2, H3, H4, H5, H6. reflexivity.
Qed.

Lemma isValidHex_exec (hex : string) :
  isValidHex hex = true <->
  exists g1 g2 g3, HEX_REGEX_exec hex = Some (g1, g2, g3).
Proof.
  unfold isValidHex, HEX_REGEX_test. split.
  - destruct (HEX_REGEX_exec hex) as [[[g1 g2] g3]|]; [|discriminate].
    intros _. now exists g1, g2, g3.
  - intros [g1 [g2 [g3 ->]]]. reflexivity.
Qed.

Lemma isValidHex_false_exec (hex : string) :
  isValidHex hex = false -> HEX_REGEX_exec hex = None.
Proof.
  unfold isValidHex, HEX_REGEX_test.
  destruct (HEX_REGEX_exec hex); [discriminate | reflexivity].
Qed.

(** C8. [isValidHex value] is true exactly for the strings [#RRGGBB] and
    [RRGGBB] made of six hex digits in either case; it accepts ["#6366f1"]
    and ["6366f1"] and rejects ["#f00"], the empty string and ["#zzzzzz"]. *)
Theorem isValidHex_characterisation :
  (forall value : string,
      isValidHex value = true <->
      exists c1 c2 c3 c4 c5 c6,
        (value = six c1 c2 c3 c4 c5 c6 \/ value = String "#" (six c1 c2 c3 c4 c5 c6))
        /\ Forall (fun c => In c hexChars) [c1; c2; c3; c4; c5; c6])
  /\ isValidHex "#6366f1" = true
  /\ isValidHex "6366f1" = true
  /\ isValidHex "#f00" = false
  /\ isValidHex "" = false
  /\ isValidHex "#zzzzzz" = false.
Proof.
  split; [|repeat split; reflexivity].
  intros value. rewrite isValidHex_exec. split.
  - intros [g1 [g2 [g3 Hex]]].
    destruct (exec_inv _ _ _ _ Hex)
      as (c1 & c2 & c3 & c4 & c5 & c6 & Hs & _ & _ & _ & H1 & H2 & H3 & H4 & H5 & H6).
    exists c1, c2, c3, c4, c5, c6. split.
    + destruct (strip_hash_cases value) as [[rest [Hv Hr]]|[Hv _]].
      * right. rewrite Hv. f_equal. congruence.
      * left. congruence.
    + repeat (apply Forall_cons; [now apply hex_class_In|]). apply Forall_nil.
  - intros (c1 & c2 & c3 & c4 & c5 & c6 & Hv & Hall).
    repeat match goal with
           | H : Forall _ (_ :: _) |- _ => inversion H; subst; clear H
           end.
    repeat match goal with
           | H : In _ hexChars |- _ => apply hex_class_In in H
           end.
    exists (pair_of c1 c2), (pair_of c3 c4), (pair_of c5 c6).
    apply exec_six; try assumption.
    destruct Hv as [-> | ->]; [|reflexivity].
    destruct (strip_hash_cases (six c1 c2 c3 c4 c5 c6)) as [[rest [Hv _]]|[Hv _]];
      [|exact Hv].
    unfold six in Hv. injection Hv as -> _. discriminate.
Qed.

(** ** Whole numbers as floats *)

Lemma of_uint63_Z2F (i : int) : of_uint63 i = Z2F (to_Z i).
Proof.
  unfold Z2F. rewrite <- of_uint63_spec. symmetry. apply SF2Prim_Prim2SF.
Qed.

Lemma natFloat_In (n k : nat) : (k <= n)%nat -> In (natFloat k) (floatsUpTo n).
Proof.
  intros Hk. unfold floatsUpTo. apply in_map, in_seq. lia.
Qed.

Lemma floatsUpTo_inv (n : nat) (x : float) :
  In x (floatsUpTo n) -> exists k, (k <= n)%nat /\ x = natFloat k.
Proof.
  unfold floatsUpTo. rewrite in_map_iff. intros [k [Hk Hin]].
  apply in_seq in Hin. exists k. split; [lia | now symmetry].
Qed.

Lemma is_int_upto_In (n : int) (x : float) :
  is_int_upto n x = true -> In x (floatsUpTo (Z.to_nat (to_Z n))).
Proof.
  unfold is_int_upto. intros H. apply andb_true_iff in H as [Hle Heq].
  apply Uint63.leb_spec in Hle. apply FloatAxioms.Leibniz.eqb_spec in Heq.
  rewrite <- Heq, of_uint63_Z2F.
  pose proof (to_Z_bounded (truncated_int x)) as Hb.
  replace (Z2F (to_Z (truncated_int x)))
    with (natFloat (Z.to_nat (to_Z (truncated_int x)))).
  - apply natFloat_In. lia.
  - unfold natFloat. f_equal. lia.
Qed.

Lemma bytes_eq : bytes = floatsUpTo 255.
Proof. vm_compute. reflexivity. Qed.

Lemma percents_eq : percents = floatsUpTo 100.
Proof. vm_compute. reflexivity. Qed.

Lemma degrees_eq : degrees = floatsUpTo 360.
Proof. vm_compute. reflexivity. Qed.

Lemma channels_eq : channels = map (fun v => v / 255) bytes.
Proof. vm_compute. reflexivity. Qed.

Lemma hueWeights_eq :
  hueWeights =
  map (fun h => (h, (sectorWeight h 0, sectorWeight h 8, sectorWeight h 4))) degrees.
Proof. vm_compute. reflexivity. Qed.

Lemma is_byte_In (x : float) : is_int_upto 255 x = true -> In x bytes.
Proof. intros H. rewrite bytes_eq. exact (is_int_upto_In 255 x H). Qed.

Lemma is_percent_In (x : float) : is_int_upto 100 x = true -> In x percents.
Proof. intros H. rewrite percents_eq. exact (is_int_upto_In 100 x H). Qed.

Lemma is_degree_In (x : float) : is_int_upto 360 x = true -> In x degrees.
Proof. intros H. rewrite degrees_eq. exact (is_int_upto_In 360 x H). Qed.

(** ** Parsing and printing a channel *)

Lemma parseInt16_pair (c1 c2 : ascii) :
  hex_class c1 = true -> hex_class c2 = true ->
  In (parseInt16 (pair_of c1 c2)) bytes.
Proof.
  intros H1 H2.
  destruct (hex_class_value c1 H1) as [d1 [E1 B1]].
  destruct (hex_class_value c2 H2) as [d2 [E2 B2]].
  assert (Hp : parseInt16 (pair_of c1 c2) = natFloat (Z.to_nat (16 * d1 + d2))).
  { unfold parseInt16, pair_of. cbn [hex_prefix_value]. rewrite E1, E2.
    unfold natFloat. f_equal. lia. }
  rewrite Hp, bytes_eq. apply natFloat_In. lia.
Qed.

Lemma channel_In (c1 c2 : ascii) :
  hex_class c1 = true -> hex_class c2 = true ->
  In (parseInt16 (pair_of c1 c2) / 255) channels.
Proof.
  intros H1 H2. rewrite channels_eq.
  apply (in_map (fun v => v / 255)). now apply parseInt16_pair.
Qed.

Lemma bytes_text : forallb byte_text_check bytes = true.
Proof. vm_compute. reflexivity. Qed.

Lemma hex2_byte (x : float) :
  In x bytes ->
  exists c1 c2, hex2 x = pair_of c1 c2
                /\ hex_class c1 = true /\ hex_class c2 = true
                /\ parseInt16 (pair_of c1 c2) = x.
Proof.
  intros Hx. pose proof bytes_text as Hall. rewrite forallb_forall in Hall.
  specialize (Hall x Hx). unfold byte_text_check in Hall.
  destruct (hex2 x) as [|c1 [|c2 [|c3 r]]]; try discriminate.
  apply andb_true_iff in Hall as [Hall H3].
  apply andb_true_iff in Hall as [H1 H2].
  apply FloatAxioms.Leibniz.eqb_spec in H3.
  exists c1, c2. unfold pair_of. auto.
Qed.

Lemma hslToHex_hex2 (h s l : float) :
  hslToHex h s l =
  ("#" ++ hex2 (channelValue (s / 100) (l / 100) (sectorWeight h 0))
       ++ hex2 (channelValue (s / 100) (l / 100) (sectorWeight h 8))
       ++ hex2 (channelValue (s / 100) (l / 100) (sectorWeight h 4)))%string.
Proof.
  cbv beta zeta delta [hslToHex hex2 channelValue channelColor sectorWeight].
  reflexivity.
Qed.

Lemma exec_hex2 (r g b : float) :
  In r bytes -> In g bytes -> In b bytes ->
  HEX_REGEX_exec ("#" ++ hex2 r ++ hex2 g ++ hex2 b) = Some (hex2 r, hex2 g, hex2 b).
Proof.
  intros Hr Hg Hb.
  destruct (hex2_byte r Hr) as (r1 & r2 & -> & R1 & R2 & _).
  destruct (hex2_byte g Hg) as (g1 & g2 & -> & G1 & G2 & _).
  destruct (hex2_byte b Hb) as (b1 & b2 & -> & B1 & B2 & _).
  apply (exec_six _ r1 r2 g1 g2 b1 b2); try assumption. reflexivity.
Qed.

(** ** The components of rgbToHSL *)

Lemma rgbToHSL_components (r g b : float) :
  rgbToHSL r g b =
  {| h := hueOf (Math_max3 r g b) (Math_min3 r g b) r g b;
     s := saturationOf (Math_max3 r g b) (Math_min3 r g b);
     l := lightnessOf (Math_max3 r g b) (Math_min3 r g b) |}.
Proof.
  unfold rgbToHSL, hueOf, saturationOf, lightnessOf.
  destruct (negb (Math_max3 r g b =? Math_min3 r g b)); reflexivity.
Qed.

(** ** hexToHSL on a valid colour *)

Lemma forallb_In {A : Type} (check : A -> bool) (xs : list A) :
  forallb check xs = true -> forall x, In x xs -> check x = true.
Proof. intros H. now apply forallb_forall. Qed.

Lemma all_pairs_spec {A B : Type} (check : A -> B -> bool)
    (xs : list A) (ys : list B) :
  all_pairs check xs ys = true ->
  forall x y, In x xs -> In y ys -> check x y = true.
Proof.
  unfold all_pairs. intros H x y Hx Hy.
  exact (forallb_In _ _ (forallb_In _ _ H x Hx) y Hy).
Qed.

Lemma mem_float_In (x : float) (xs : list float) :
  mem_float x xs = true -> In x xs.
Proof.
  unfold mem_float. rewrite existsb_exists. intros [y [Hy Heq]].
  apply FloatAxioms.Leibniz.eqb_spec in Heq. now subst.
Qed.

Lemma channels_extremes : all_pairs extremes_closed channels channels = true.
Proof. vm_compute. reflexivity. Qed.

Lemma max_min_In (x y : float) :
  In x channels -> In y channels ->
  In (Math_max2 x y) channels /\ In (Math_min2 x y) channels.
Proof.
  intros Hx Hy.
  pose proof (all_pairs_spec _ _ _ channels_extremes x y Hx Hy) as Hall.
  apply andb_true_iff in Hall as [Hmax Hmin].
  apply mem_float_In in Hmax, Hmin. simpl in Hmax, Hmin.
  split.
  - destruct Hmax as [<-|[<-|[]]]; assumption.
  - destruct Hmin as [<-|[<-|[]]]; assumption.
Qed.

Lemma extremes_In (r g b : float) :
  In r channels -> In g channels -> In b channels ->
  In (Math_max3 r g b) channels /\ In (Math_min3 r g b) channels.
Proof.
  intros Hr Hg Hb. unfold Math_max3, Math_min3.
  destruct (max_min_In r g Hr Hg) as [Hu Hv].
  split.
  - exact (proj1 (max_min_In _ b Hu Hb)).
  - exact (proj2 (max_min_In _ b Hv Hb)).
Qed.

(** Every triple of channels: 2^24 evaluations of the hue. *)
Lemma all_hues_channels : all_hues channels = true.
Proof. vm_compute. reflexivity. Qed.

Lemma all_hues_spec (xs : list float) :
  all_hues xs = true ->
  forall r g b, In r xs -> In g xs -> In b xs ->
    hue_check (Math_max3 r g b) (Math_min3 r g b) r g b = true.
Proof.
  unfold all_hues. intros Hall r g b Hr Hg Hb.
  rewrite forallb_forall in Hall. specialize (Hall r Hr).
  rewrite forallb_forall in Hall. specialize (Hall g Hg). cbv zeta in Hall.
  rewrite forallb_forall in Hall. exact (Hall b Hb).
Qed.

Lemma hue_checked (r g b : float) :
  In r channels -> In g channels -> In b channels ->
  hue_check (Math_max3 r g b) (Math_min3 r g b) r g b = true.
Proof. exact (all_hues_spec channels all_hues_channels r g b). Qed.

Lemma all_extremes_channels : all_pairs extremes_check channels channels = true.
Proof. vm_compute. reflexivity. Qed.

Lemma rgbToHSL_range (r g b : float) :
  In r channels -> In g channels -> In b channels ->
  In (h (rgbToHSL r g b)) degrees
  /\ In (s (rgbToHSL r g b)) percents
  /\ In (l (rgbToHSL r g b)) percents.
Proof.
  intros Hr Hg Hb. rewrite rgbToHSL_components. cbn [h s l].
  pose proof (hue_checked r g b Hr Hg Hb) as Hh.
  destruct (extremes_In r g b Hr Hg Hb) as [Hmax Hmin].
  unfold hue_check in Hh. apply andb_true_iff in Hh as [Hle Hh].
  pose proof (all_pairs_spec _ _ _ all_extremes_channels _ _ Hmax Hmin) as Hall.
  unfold extremes_check in Hall. rewrite Hle in Hall.
  apply andb_true_iff in Hall as [Hs Hl].
  split; [|split].
  - now apply is_degree_In.
  - now apply is_percent_In.
  - now apply is_percent_In.
Qed.

Lemma hexToHSL_valid (hex : string) :
  isValidHex hex = true ->
  exists r g b,
    In r channels /\ In g channels /\ In b channels
    /\ hexToHSL hex = Returns (rgbToHSL r g b).
Proof.
  intros Hv. apply isValidHex_exec in Hv as (g1 & g2 & g3 & Hex).
  destruct (exec_inv _ _ _ _ Hex)
    as (c1 & c2 & c3 & c4 & c5 & c6 & _ & -> & -> & -> & H1 & H2 & H3 & H4 & H5 & H6).
  exists (parseInt16 (pair_of c1 c2) / 255),
         (parseInt16 (pair_of c3 c4) / 255),
         (parseInt16 (pair_of c5 c6) / 255).
  repeat split; try (now apply channel_In).
  unfold hexToHSL. rewrite Hex. reflexivity.
Qed.

Lemma degrees_bounds :
  forallb (fun x => (0 <=? x) && (x <=? 360)) degrees = true.
Proof. vm_compute. reflexivity. Qed.

(** C1 (as the code behaves). [hexToHSL "#6366f1"] returns hue 239,
    saturation 84 and lightness 67. *)
Theorem hexToHSL_6366f1 :
  hexToHSL "#6366f1" = Returns {| h := 239; s := 84; l := 67 |}.
Proof. vm_compute. reflexivity. Qed.

(** C1 as stated fails: the result is not hue 239, saturation 89,
    lightness 64. *)
Lemma hexToHSL_6366f1_not_239_89_64 :
  hexToHSL "#6366f1" <> Returns {| h := 239; s := 89; l := 64 |}.
Proof.
  intros H.
  apply (f_equal (fun o => match o with
                           | Returns x => PrimFloat.Leibniz.eqb (s x) 89
                           | Throws _ => false
                           end)) in H.
  vm_compute in H. discriminate H.
Qed.

(** C4 (as the code behaves). For every valid hex input the hue returned
    by [hexToHSL] is a whole number in the closed interval from 0 to 360:
    the rounded value is returned as it is, with no wrap-around, so 360
    itself is possible. *)
Theorem hexToHSL_hue_range (hex : string) :
  isValidHex hex = true ->
  exists x, hexToHSL hex = Returns x
            /\ (0 <=? h x) = true /\ (h x <=? 360) = true
            /\ exists k, (k <= 360)%nat /\ h x = natFloat k.
Proof.
  intros Hv. destruct (hexToHSL_valid hex Hv) as (r & g & b & Hr & Hg & Hb & ->).
  exists (rgbToHSL r g b). split; [reflexivity|].
  destruct (rgbToHSL_range r g b Hr Hg Hb) as [Hh _].
  pose proof (forallb_In _ _ degrees_bounds _ Hh) as Hbnd.
  apply andb_true_iff in Hbnd as [H0 H360].
  repeat split; try assumption.
  rewrite degrees_eq in Hh. now apply floatsUpTo_inv.
Qed.

Lemma hexToHSL_hue_range_witness :
  isValidHex "#ff0001" = true
  /\ exists x, hexToHSL "#ff0001" = Returns x
               /\ (0 <=? h x) = true /\ (h x <=? 360) = true
               /\ exists k, (k <= 360)%nat /\ h x = natFloat k.
Proof.
  split; [reflexivity | apply hexToHSL_hue_range; reflexivity].
Defined.

(** C4 as stated fails: the valid colour ["#ff0001"] has hue 360, which is
    not below 360. *)
Lemma hexToHSL_ff0001_hue_360 :
  isValidHex "#ff0001" = true
  /\ hexToHSL "#ff0001" = Returns {| h := 360; s := 100; l := 50 |}
  /\ (360 <? 360) = false.
Proof. repeat split; vm_compute; reflexivity. Qed.

(** ** The shades *)

Lemma all_triples_spec {A B C : Type} (check : A -> B -> C -> bool)
    (xs : list A) (ys : list B) (zs : list C) :
  all_triples check xs ys zs = true ->
  forall x y z, In x xs -> In y ys -> In z zs -> check x y z = true.
Proof.
  unfold all_triples. intros H x y z Hx Hy Hz.
  exact (forallb_In _ _ (forallb_In _ _ (forallb_In _ _ H x Hx) y Hy) z Hz).
Qed.

Lemma hueWeights_In (hh : float) :
  In hh degrees ->
  In (hh, (sectorWeight hh 0, sectorWeight hh 8, sectorWeight hh 4)) hueWeights.
Proof.
  intros Hh. rewrite hueWeights_eq.
  exact (in_map (fun x => (x, (sectorWeight x 0, sectorWeight x 8, sectorWeight x 4)))
                degrees hh Hh).
Qed.

Lemma parseInt16_hex2 (x : float) : In x bytes -> parseInt16 (hex2 x) = x.
Proof.
  intros Hx. destruct (hex2_byte x Hx) as (c1 & c2 & -> & _ & _ & Hp). exact Hp.
Qed.

Lemma hexToHSL_hex2 (r g b : float) :
  In r bytes -> In g bytes -> In b bytes ->
  hexToHSL ("#" ++ hex2 r ++ hex2 g ++ hex2 b)
  = Returns (rgbToHSL (r / 255) (g / 255) (b / 255)).
Proof.
  intros Hr Hg Hb. unfold hexToHSL. rewrite (exec_hex2 r g b Hr Hg Hb).
  now rewrite !parseInt16_hex2.
Qed.

Lemma all_shades :
  all_triples shade_check hueWeights percents lightnessLevels = true.
Proof. vm_compute. reflexivity. Qed.

Lemma shade_lightness (hh ss ll : float) :
  In hh degrees -> In ss percents -> In ll lightnessLevels ->
  exists x, hexToHSL (hslToHex hh ss ll) = Returns x /\ l x = ll.
Proof.
  intros Hh Hs Hl.
  pose proof (all_triples_spec _ _ _ _ all_shades _ _ _ (hueWeights_In hh Hh) Hs Hl)
    as Hc.
  cbv beta iota zeta delta [shade_check] in Hc.
  apply andb_true_iff in Hc as [Hc Hll].
  apply andb_true_iff in Hc as [Hc Hb].
  apply andb_true_iff in Hc as [Hr Hg].
  apply is_byte_In in Hr, Hg, Hb.
  apply FloatAxioms.Leibniz.eqb_spec in Hll.
  rewrite hslToHex_hex2, (hexToHSL_hex2 _ _ _ Hr Hg Hb).
  eexists. split; [reflexivity | exact Hll].
Qed.

(** C3. For every valid primary, [generateShadesFromPrimary] returns exactly
    five entries, and [hexToHSL] of entry [i] has lightness exactly
    [[92; 78; 64; 50; 36][i]]. *)
Theorem generateShades_lightness (primaryHex : string) :
  isValidHex primaryHex = true ->
  exists shades,
    generateShadesFromPrimary primaryHex = Returns shades
    /\ List.length shades = 5%nat
    /\ Forall2 (fun shade level =>
                  exists x, hexToHSL shade = Returns x /\ l x = level)
               shades [92; 78; 64; 50; 36].
Proof.
  intros Hv. destruct (hexToHSL_valid _ Hv) as (r & g & b & Hr & Hg & Hb & Hx).
  destruct (rgbToHSL_range r g b Hr Hg Hb) as (Hh & Hs & _).
  unfold generateShadesFromPrimary. rewrite Hx. cbn [bind].
  eexists. split; [reflexivity|]. split; [reflexivity|].
  unfold lightnessLevels. cbn [map].
  repeat (apply Forall2_cons;
          [apply shade_lightness; try assumption;
           unfold lightnessLevels; cbn [In]; tauto|]).
  apply Forall2_nil.
Qed.

Lemma generateShades_lightness_witness :
  isValidHex "#6366f1" = true
  /\ exists shades,
    generateShadesFromPrimary "#6366f1" = Returns shades
    /\ List.length shades = 5%nat
    /\ Forall2 (fun shade level =>
                  exists x, hexToHSL shade = Returns x /\ l x = level)
               shades [92; 78; 64; 50; 36].
Proof.
  split; [reflexivity | apply generateShades_lightness; reflexivity].
Defined.

(** ** hslToHex on whole degrees and percents *)

Lemma hueWeights_closed : forallb weights_closed hueWeights = true.
Proof. vm_compute. reflexivity. Qed.

Lemma sectorWeight_In (hh n : float) :
  In hh degrees -> In n [0; 8; 4] -> In (sectorWeight hh n) weights.
Proof.
  intros Hh Hn.
  pose proof (forallb_In _ _ hueWeights_closed _ (hueWeights_In hh Hh)) as Hc.
  cbv beta iota zeta delta [weights_closed] in Hc.
  apply andb_true_iff in Hc as [Hc H4].
  apply andb_true_iff in Hc as [H0 H8].
  apply mem_float_In in H0, H8, H4.
  destruct Hn as [<-|[<-|[<-|[]]]]; assumption.
Qed.

Lemma all_channels : all_triples channel_check percents percents weights = true.
Proof. vm_compute. reflexivity. Qed.

Lemma channel_checked (hh ss ll n : float) :
  In hh degrees -> In ss percents -> In ll percents -> In n [0; 8; 4] ->
  let color := channelColor (ss / 100) (ll / 100) (sectorWeight hh n) in
  (0 <=? color) = true /\ (color <=? 1) = true
  /\ In (channelValue (ss / 100) (ll / 100) (sectorWeight hh n)) bytes.
Proof.
  intros Hh Hs Hl Hn color.
  pose proof (all_triples_spec _ _ _ _ all_channels _ _ _ Hs Hl
                (sectorWeight_In hh n Hh Hn)) as Hc.
  unfold channel_check in Hc. fold color in Hc.
  apply andb_true_iff in Hc as [Hc Hb].
  apply andb_true_iff in Hc as [H0 H1].
  apply is_byte_In in Hb. auto.
Qed.



(** ** The round trip *)





(** The distance can reach five units. *)
Remark roundTrip_02e4e6 :
  roundTrip "#02e4e6" = Returns "#02dfe3"
  /\ channels_within 4 "#02e4e6" "#02dfe3" = false
  /\ channels_within 5 "#02e4e6" "#02dfe3" = true.
Proof. repeat split; vm_compute; reflexivity. Qed.

(** ** The order of numbers *)

Lemma SFcompare_antisym (x y : spec_float) :
  SFcompare y x = option_map CompOpp (SFcompare x y).
Proof.
  destruct x as [sx|sx| |sx mx ex], y as [sy|sy| |sy my ey]; simpl;
    try reflexivity;
    try (destruct sx; reflexivity); try (destruct sy; reflexivity);
    try (destruct sx, sy; reflexivity).
  destruct sx, sy; simpl; try reflexivity;
    rewrite (Z.compare_antisym ex ey);
    destruct (ex ?= ey)%Z; simpl; try reflexivity;
    replace (Pos.compare_cont Eq my mx) with (CompOpp (Pos.compare_cont Eq mx my))
      by apply (Pos.compare_cont_antisym mx my Eq);
    destruct (Pos.compare_cont Eq mx my); reflexivity.
Qed.

Lemma eqb_refl_compare (x y : float) :
  (x =? x) = true -> (y =? y) = true ->
  exists c, SFcompare (Prim2SF x) (Prim2SF y) = Some c.
Proof.
  rewrite !FloatAxioms.eqb_spec. unfold SFeqb.
  destruct (Prim2SF x) as [sx|sx| |sx mx ex], (Prim2SF y) as [sy|sy| |sy my ey];
    simpl; try discriminate; intros _ _; eexists; reflexivity.
Qed.

(** Two numbers that are not NaN are comparable. *)
Lemma leb_false_ltb (x y : float) :
  (x =? x) = true -> (y =? y) = true ->
  (x <=? y) = false -> (y <? x) = true.
Proof.
  intros Hx Hy. destruct (eqb_refl_compare x y Hx Hy) as [c Hc].
  rewrite FloatAxioms.leb_spec, FloatAxioms.ltb_spec. unfold SFleb, SFltb.
  rewrite (SFcompare_antisym (Prim2SF x) (Prim2SF y)), Hc.
  destruct c; simpl; congruence.
Qed.

Lemma leb_true_not_nan (x y : float) :
  (x <=? y) = true -> (x =? x) = true /\ (y =? y) = true.
Proof.
  rewrite FloatAxioms.leb_spec, !FloatAxioms.eqb_spec. unfold SFleb, SFeqb.
  destruct (Prim2SF x) as [sx|sx| |sx mx ex], (Prim2SF y) as [sy|sy| |sy my ey];
    simpl; try discriminate; intros _;
    repeat match goal with
           | |- context [if ?b then _ else _] => destruct b
           end; simpl;
    rewrite ?Z.compare_refl, ?Pos.compare_cont_refl; auto.
Qed.

(** ** Luminance and contrast *)

Section ContrastFacts.

Variable Math_pow : float -> float -> float.

Lemma getLuminance_returns (hex : string) :
  exists L, getLuminance Math_pow hex = Returns L.
Proof.
  unfold getLuminance.
  destruct (HEX_REGEX_exec hex) as [[[c1 c2] c3]|]; eexists; reflexivity.
Qed.

Lemma getContrastRatio_returns (fg bg : string) :
  exists L1 L2,
    getLuminance Math_pow fg = Returns L1
    /\ getLuminance Math_pow bg = Returns L2
    /\ getContrastRatio Math_pow fg bg
       = Returns ((Math_max2 L1 L2 + 0.05) / (Math_min2 L1 L2 + 0.05)).
Proof.
  destruct (getLuminance_returns fg) as [L1 H1].
  destruct (getLuminance_returns bg) as [L2 H2].
  exists L1, L2. unfold getContrastRatio. rewrite H1, H2. auto.
Qed.

Lemma getContrastTextColor_unfold (bg : string) (rb rw : float) :
  getContrastRatio Math_pow black bg = Returns rb ->
  getContrastRatio Math_pow white bg = Returns rw ->
  getContrastTextColor Math_pow bg =
  Returns (if (4.5 <=? rb) && (4.5 <=? rw)
           then (if rw <=? rb then black else white)
           else if 4.5 <=? rb then black
           else if 4.5 <=? rw then white
           else (if rw <=? rb then black else white)).
Proof.
  intros Hb Hw. unfold getContrastTextColor. rewrite Hb, Hw. cbn [bind].
  destruct (4.5 <=? rb), (4.5 <=? rw); reflexivity.
Qed.

Lemma getContrastTextColor_returns (bg : string) :
  exists c, getContrastTextColor Math_pow bg = Returns c
            /\ (c = black \/ c = white).
Proof.
  destruct (getContrastRatio_returns black bg) as (? & ? & _ & _ & Hb).
  destruct (getContrastRatio_returns white bg) as (? & ? & _ & _ & Hw).
  rewrite (getContrastTextColor_unfold bg _ _ Hb Hw).
  eexists. split; [reflexivity|].
  repeat match goal with
         | |- context [if ?b then _ else _] => destruct b
         end; auto.
Qed.

Lemma getLuminance_invalid (hex : string) :
  isValidHex hex = false -> getLuminance Math_pow hex = Returns 0.
Proof.
  intros Hv. unfold getLuminance. now rewrite (isValidHex_false_exec hex Hv).
Qed.

Lemma getLuminance_black :
  getLuminance Math_pow black = Returns 0.00030352698354883752.
Proof. vm_compute. reflexivity. Qed.

Lemma getLuminance_white :
  getLuminance Math_pow white
  = Returns (0.2126 * Math_pow 1 2.4 + 0.7152 * Math_pow 1 2.4
             + 0.0722 * Math_pow 1 2.4).
Proof. vm_compute. reflexivity. Qed.

End ContrastFacts.

(** C9. [getContrastTextColor] never throws, whatever the string.  On a
    string that fails the hex pattern the luminance is taken as 0, the
    contrast of white is 21, the contrast of black is about 1.006, and the
    result is ["#FFFFFF"].  (The host's [Math.pow] is assumed to map 1 to 1.) *)
Theorem getContrastTextColor_invalid (Math_pow : float -> float -> float) :
  Math_pow 1 2.4 = 1 ->
  (forall hex, exists c, getContrastTextColor Math_pow hex = Returns c)
  /\ forall hex,
      isValidHex hex = false ->
      getLuminance Math_pow hex = Returns 0
      /\ getContrastRatio Math_pow white hex = Returns 21
      /\ getContrastRatio Math_pow black hex = Returns 1.0060705396709768
      /\ getContrastTextColor Math_pow hex = Returns "#FFFFFF".
Proof.
  intros Hpow. split.
  - intros hex. destruct (getContrastTextColor_returns Math_pow hex) as [c [Hc _]].
    now exists c.
  - intros hex Hv.
    pose proof (getLuminance_invalid Math_pow hex Hv) as HL.
    assert (Hw : getContrastRatio Math_pow white hex = Returns 21).
    { unfold getContrastRatio. rewrite getLuminance_white, HL, Hpow.
      vm_compute. reflexivity. }
    assert (Hb : getContrastRatio Math_pow black hex = Returns 1.0060705396709768).
    { unfold getContrastRatio. rewrite getLuminance_black, HL.
      vm_compute. reflexivity. }
    repeat split; try assumption.
    rewrite (getContrastTextColor_unfold Math_pow hex _ _ Hb Hw).
    vm_compute. reflexivity.
Qed.

Lemma getContrastTextColor_invalid_witness :
  pow_ref 1 2.4 = 1
  /\ isValidHex "#f00" = false
  /\ getContrastTextColor pow_ref "#f00" = Returns "#FFFFFF".
Proof.
  split; [vm_compute; reflexivity|]. split; [reflexivity|].
  apply (getContrastTextColor_invalid pow_ref); vm_compute; reflexivity.
Defined.

(** C2 (as the code behaves). On a string that fails the hex pattern
    [getContrastTextColor] does not fail: [getLuminance] returns 0 instead
    of throwing, and one of the two text colours is returned.  The error of
    the pattern check is thrown by [hexToHSL] and, through it, by
    [generateShadesFromPrimary]. *)
Theorem getContrastTextColor_no_error
    (Math_pow : float -> float -> float) (hex : string) :
  isValidHex hex = false ->
  getLuminance Math_pow hex = Returns 0
  /\ (exists c, getContrastTextColor Math_pow hex = Returns c
                /\ (c = "#010101" \/ c = "#FFFFFF"))
  /\ (exists msg, hexToHSL hex = Throws msg)
  /\ (exists msg, generateShadesFromPrimary hex = Throws msg).
Proof.
  intros Hv. split; [now apply getLuminance_invalid|].
  split; [apply getContrastTextColor_returns|].
  assert (Hx : exists msg, hexToHSL hex = Throws msg).
  { unfold hexToHSL. rewrite (isValidHex_false_exec hex Hv). eexists. reflexivity. }
  split; [exact Hx|].
  destruct Hx as [msg Hx]. exists msg.
  unfold generateShadesFromPrimary. now rewrite Hx.
Qed.

Lemma getContrastTextColor_no_error_witness :
  isValidHex "#zzzzzz" = false
  /\ exists c, getContrastTextColor pow_ref "#zzzzzz" = Returns c
               /\ (c = "#010101" \/ c = "#FFFFFF").
Proof.
  split; [reflexivity|].
  apply (getContrastTextColor_no_error pow_ref "#zzzzzz"). reflexivity.
Defined.

(** C2 as stated fails: the invalid string ["#f00"] makes
    [getContrastTextColor] return white, not throw. *)
Lemma getContrastTextColor_f00 :
  isValidHex "#f00" = false
  /\ getContrastTextColor pow_ref "#f00" = Returns "#FFFFFF"
  /\ forall msg, getContrastTextColor pow_ref "#f00" <> Throws msg.
Proof.
  split; [reflexivity|].
  assert (H : getContrastTextColor pow_ref "#f00" = Returns "#FFFFFF")
    by (vm_compute; reflexivity).
  split; [exact H|]. intros msg. rewrite H. discriminate.
Qed.

(** C6. For a valid background whose black and white contrast ratios are
    both at least 4.5, [getContrastTextColor] returns the colour with the
    higher ratio, and black whenever [ratioBlack >= ratioWhite]: black wins
    ties, also when both ratios are exactly 4.5.  When neither ratio
    reaches 4.5 the same test decides. *)
Theorem getContrastTextColor_choice
    (Math_pow : float -> float -> float) (bg : string) (rb rw : float) :
  isValidHex bg = true ->
  getContrastRatio Math_pow black bg = Returns rb ->
  getContrastRatio Math_pow white bg = Returns rw ->
  ((4.5 <=? rb) = true -> (4.5 <=? rw) = true ->
     ((rw <=? rb) = true -> getContrastTextColor Math_pow bg = Returns "#010101")
     /\ ((rw <=? rb) = false ->
         getContrastTextColor Math_pow bg = Returns "#FFFFFF"
         /\ (rb <? rw) = true)
     /\ ((rb =? rw) = true -> getContrastTextColor Math_pow bg = Returns "#010101"))
  /\ (rb = 4.5 -> rw = 4.5 -> getContrastTextColor Math_pow bg = Returns "#010101")
  /\ ((4.5 <=? rb) = false -> (4.5 <=? rw) = false ->
      getContrastTextColor Math_pow bg
      = Returns (if rw <=? rb then "#010101" else "#FFFFFF")).
Proof.
  intros _ Hb Hw. rewrite (getContrastTextColor_unfold Math_pow bg rb rw Hb Hw).
  split; [|split].
  - intros Pb Pw. rewrite Pb, Pw. cbn [andb].
    split; [|split].
    + intros Hle. now rewrite Hle.
    + intros Hle. rewrite Hle. split; [reflexivity|].
      apply leb_false_ltb; try assumption.
      * exact (proj2 (leb_true_not_nan _ _ Pw)).
      * exact (proj2 (leb_true_not_nan _ _ Pb)).
    + intros Heq.
      destruct (rw <=? rb) eqn:Hle; [reflexivity|].
      apply leb_false_ltb in Hle.
      * exfalso. revert Heq Hle.
        rewrite FloatAxioms.eqb_spec, FloatAxioms.ltb_spec. unfold SFeqb, SFltb.
        destruct (SFcompare (Prim2SF rb) (Prim2SF rw)) as [[]|]; discriminate.
      * exact (proj2 (leb_true_not_nan _ _ Pw)).
      * exact (proj2 (leb_true_not_nan _ _ Pb)).
  - intros -> ->. vm_compute. reflexivity.
  - intros Pb Pw. rewrite Pb, Pw. reflexivity.
Qed.

Lemma getContrastTextColor_choice_witness :
  isValidHex "#767676" = true
  /\ getContrastRatio pow_ref black "#767676" = Returns 4.5953883974270768
  /\ getContrastRatio pow_ref white "#767676" = Returns 4.5422249596052531
  /\ (4.5 <=? 4.5953883974270768) = true
  /\ (4.5 <=? 4.5422249596052531) = true
  /\ (4.5422249596052531 <=? 4.5953883974270768) = true
  /\ getContrastTextColor pow_ref "#767676" = Returns "#010101".
Proof.
  split; [reflexivity|].
  split; [vm_compute; reflexivity|].
  split; [vm_compute; reflexivity|].
  split; [reflexivity|]. split; [reflexivity|]. split; [reflexivity|].
  assert (Hb : getContrastRatio pow_ref black "#767676" = Returns 4.5953883974270768)
    by (vm_compute; reflexivity).
  assert (Hw : getContrastRatio pow_ref white "#767676" = Returns 4.5422249596052531)
    by (vm_compute; reflexivity).
  destruct (getContrastTextColor_choice pow_ref "#767676" _ _ eq_refl Hb Hw)
    as [Hboth _].
  destruct (Hboth eq_refl eq_refl) as [Hblack _].
  exact (Hblack eq_refl).
Defined.

(** * Binary64 arithmetic *)

Section Rounding.

Local Open Scope Z_scope.

(** ** Right shifts with a round bit and a sticky bit *)

Lemma shr_1_spec (r : shr_record) :
  0 <= shr_m r ->
  shr_1 r = {| shr_m := shr_m r / 2; shr_r := Z.odd (shr_m r);
               shr_s := shr_r r || shr_s r |}.
Proof.
  destruct r as [m rr ss]. simpl. intros Hm.
  destruct m as [|p|p]; [reflexivity| |lia].
  rewrite <- Z.div2_div. destruct p; reflexivity.
Qed.

Lemma double_div_mod (P Q : Z) :
  0 <= P -> 0 < Q ->
  (2 * (P mod Q) < Q /\ 2 * P / Q = 2 * (P / Q) /\ 2 * P mod Q = 2 * (P mod Q))
  \/ (Q <= 2 * (P mod Q) /\ 2 * P / Q = 2 * (P / Q) + 1
      /\ 2 * P mod Q = 2 * (P mod Q) - Q).
Proof.
  intros HP HQ.
  pose proof (Z.div_mod P Q ltac:(lia)) as Hdm.
  pose proof (Z.mod_pos_bound P Q HQ) as Hb.
  destruct (Z_lt_le_dec (2 * (P mod Q)) Q) as [Hlt|Hge].
  - left. split; [exact Hlt|].
    assert (H : 2 * P = Q * (2 * (P / Q)) + 2 * (P mod Q)) by lia.
    destruct (Z.div_mod_unique Q (2 * P / Q) (2 * (P / Q)) (2 * P mod Q) (2 * (P mod Q)))
      as [H1 H2]; try lia.
    + left. apply Z.mod_pos_bound. lia.
    + rewrite <- Z.div_mod by lia. lia.
  - right. split; [exact Hge|].
    destruct (Z.div_mod_unique Q (2 * P / Q) (2 * (P / Q) + 1)
                (2 * P mod Q) (2 * (P mod Q) - Q)) as [H1 H2]; try lia.
    + left. apply Z.mod_pos_bound. lia.
    + rewrite <- Z.div_mod by lia. lia.
Qed.

Lemma rec_inv_shr_1 (P Q : Z) (r : shr_record) :
  0 <= P -> 0 < Q -> rec_inv P Q r -> rec_inv P (2 * Q) (shr_1 r).
Proof.
  intros HP HQ (Hm & Hr & Hs).
  assert (H0 : 0 <= shr_m r) by (rewrite Hm; apply Z.div_pos; lia).
  rewrite (shr_1_spec r H0). unfold rec_inv. cbn [shr_m shr_r shr_s].
  rewrite Hm, Hr, Hs.
  repeat split.
  - rewrite Z.div_div by lia. f_equal. lia.
  - rewrite Z.div_mul_cancel_l by lia. reflexivity.
  - rewrite Z.mul_mod_distr_l by lia.
    pose proof (Z.mod_pos_bound P Q HQ) as Hb.
    destruct (double_div_mod P Q HP HQ) as [(Hlt & Hd & Hmod)|(Hge & Hd & Hmod)];
      rewrite Hd, Hmod.
    + rewrite Z.odd_mul. cbn [Z.odd andb orb].
      destruct (Z.eqb_spec (2 * (P mod Q)) 0), (Z.eqb_spec (2 * (P mod Q)) 0);
        try lia; reflexivity.
    + rewrite Z.add_comm, Z.odd_add_mul_2. cbn [Z.odd orb].
      destruct (Z.eqb_spec (2 * (P mod Q)) 0); [lia | reflexivity].
Qed.

Lemma pow2_xI (p : positive) : 2 ^ Zpos p~1 = 2 ^ Zpos p * (2 ^ Zpos p * 2).
Proof.
  rewrite (Pos2Z.inj_xI p). replace (2 * Zpos p + 1) with (Zpos p + (Zpos p + 1)) by lia.
  rewrite Z.pow_add_r by lia. rewrite Z.pow_add_r by lia. rewrite Z.pow_1_r. reflexivity.
Qed.

Lemma pow2_xO (p : positive) : 2 ^ Zpos p~0 = 2 ^ Zpos p * 2 ^ Zpos p.
Proof.
  rewrite (Pos2Z.inj_xO p). replace (2 * Zpos p) with (Zpos p + Zpos p) by lia.
  now rewrite Z.pow_add_r by lia.
Qed.

Lemma pow2_pos (n : Z) : 0 <= n -> 0 < 2 ^ n.
Proof. intros Hn. apply Z.pow_pos_nonneg; lia. Qed.

Lemma rec_inv_iter (P : Z) (p : positive) :
  0 <= P ->
  forall (Q : Z) (r : shr_record),
    0 < Q -> rec_inv P Q r -> rec_inv P (2 ^ Zpos p * Q) (iter_pos shr_1 p r).
Proof.
  intros HP. induction p as [p IH|p IH|]; intros Q r HQ Hr; cbn [iter_pos].
  - pose proof (pow2_pos (Zpos p) ltac:(lia)) as Hp.
    rewrite pow2_xI.
    replace (2 ^ Zpos p * (2 ^ Zpos p * 2) * Q) with (2 ^ Zpos p * (2 ^ Zpos p * (2 * Q)))
      by ring.
    apply IH; [nia|]. apply IH; [lia|]. now apply rec_inv_shr_1.
  - pose proof (pow2_pos (Zpos p) ltac:(lia)) as Hp.
    rewrite pow2_xO, <- Z.mul_assoc.
    apply IH; [nia|]. now apply IH.
  - rewrite Z.pow_1_r. now apply rec_inv_shr_1.
Qed.

Lemma shr_spec (P Q : Z) (r : shr_record) (e n : Z) :
  0 <= P -> 0 < Q -> rec_inv P Q r ->
  snd (shr r e n) = e + Z.max n 0
  /\ rec_inv P (2 ^ Z.max n 0 * Q) (fst (shr r e n)).
Proof.
  intros HP HQ Hr. unfold shr. destruct n as [|p|p]; cbn [fst snd].
  - rewrite Z.max_id, Z.add_0_r, Z.pow_0_r, Z.mul_1_l. auto.
  - rewrite Z.max_l by lia. split; [reflexivity|]. now apply rec_inv_iter.
  - rewrite Z.max_r by lia. rewrite Z.add_0_r, Z.pow_0_r, Z.mul_1_l. auto.
Qed.

(** ** Rounding to nearest, ties to even *)

Lemma round_rec_inv (P Q : Z) (r : shr_record) :
  0 <= P -> 0 < Q -> rec_inv P Q r ->
  round_nearest_even (shr_m r) (loc_of_shr_record r) = RNE P Q.
Proof.
  intros HP HQ (Hm & Hr & Hs). destruct r as [m rr ss]. cbn [shr_m shr_r shr_s] in *.
  subst m rr ss. unfold RNE.
  pose proof (Z.mod_pos_bound P Q HQ) as Hb.
  destruct (double_div_mod P Q HP HQ) as [(Hlt & Hd & Hmod)|(Hge & Hd & Hmod)];
    rewrite Hd, Hmod.
  - rewrite Z.odd_mul. cbn [Z.odd andb].
    rewrite (proj2 (Z.compare_lt_iff _ _) Hlt).
    destruct (Z.eqb_spec (2 * (P mod Q)) 0); reflexivity.
  - rewrite Z.add_comm, Z.odd_add_mul_2. cbn [Z.odd].
    destruct (Z.eqb_spec (2 * (P mod Q) - Q) 0) as [He|Hne]; cbn [negb loc_of_shr_record round_nearest_even].
    + replace (2 * (P mod Q) ?= Q) with Eq by (symmetry; apply Z.compare_eq_iff; lia).
      reflexivity.
    + replace (2 * (P mod Q) ?= Q) with Gt by (symmetry; apply Z.compare_gt_iff; lia).
      reflexivity.
Qed.

Lemma rec_inv_exact (m : Z) : rec_inv m 1 (shr_record_of_loc m loc_Exact).
Proof.
  unfold rec_inv. cbn [shr_record_of_loc shr_m shr_r shr_s].
  rewrite !Z.div_1_r, Z.mod_1_r, Z.odd_mul. auto.
Qed.

(** ** Number of digits *)

Lemma digits2_pos_bounds (p : positive) :
  2 ^ (Zpos (digits2_pos p) - 1) <= Zpos p < 2 ^ Zpos (digits2_pos p).
Proof.
  induction p as [p IH|p IH|]; cbn [digits2_pos].
  - rewrite Pos2Z.inj_succ. replace (Z.succ (Zpos (digits2_pos p)) - 1)
      with (Zpos (digits2_pos p) - 1 + 1) by lia.
    rewrite Z.pow_succ_r by lia.
    rewrite Z.pow_add_r, Z.pow_1_r by lia. lia.
  - rewrite Pos2Z.inj_succ. replace (Z.succ (Zpos (digits2_pos p)) - 1)
      with (Zpos (digits2_pos p) - 1 + 1) by lia.
    rewrite Z.pow_succ_r by lia.
    rewrite Z.pow_add_r, Z.pow_1_r by lia. lia.
  - cbn. lia.
Qed.

Lemma dig_bounds (m : Z) :
  0 < m -> 0 < Zdigits2 m /\ 2 ^ (Zdigits2 m - 1) <= m < 2 ^ Zdigits2 m.
Proof.
  destruct m as [|p|p]; try lia. intros _. cbn [Zdigits2].
  split; [lia | apply digits2_pos_bounds].
Qed.

Lemma dig_unique (m d : Z) :
  2 ^ (d - 1) <= m < 2 ^ d -> 0 < d -> Zdigits2 m = d.
Proof.
  intros Hm Hd.
  assert (H0 : 0 < m) by (pose proof (pow2_pos (d - 1)); lia).
  destruct (dig_bounds m H0) as [Hd' Hb].
  destruct (Z.lt_trichotomy (Zdigits2 m) d) as [Hlt|[Heq|Hgt]]; [|exact Heq|].
  - assert (2 ^ Zdigits2 m <= 2 ^ (d - 1)) by (apply Z.pow_le_mono_r; lia). lia.
  - assert (2 ^ d <= 2 ^ (Zdigits2 m - 1)) by (apply Z.pow_le_mono_r; lia). lia.
Qed.

Lemma dig_nonneg (m : Z) : 0 <= Zdigits2 m.
Proof. destruct m; cbn; lia. Qed.

Lemma dig_mono (a b : Z) : 0 < a -> a <= b -> Zdigits2 a <= Zdigits2 b.
Proof.
  intros Ha Hab.
  destruct (dig_bounds a Ha) as [Hda Hba].
  destruct (dig_bounds b ltac:(lia)) as [Hdb Hbb].
  destruct (Z_le_gt_dec (Zdigits2 a) (Zdigits2 b)) as [|Hgt]; [assumption|].
  assert (2 ^ Zdigits2 b <= 2 ^ (Zdigits2 a - 1)) by (apply Z.pow_le_mono_r; lia). lia.
Qed.

Lemma dig_lt_pow (m d : Z) : 0 <= d -> 0 <= m < 2 ^ d -> Zdigits2 m <= d.
Proof.
  intros Hd Hm. destruct (Z.eq_dec m 0) as [->|Hne]; [cbn; lia|].
  destruct (dig_bounds m ltac:(lia)) as [Hd' Hb].
  destruct (Z_le_gt_dec (Zdigits2 m) d) as [|Hgt]; [assumption|].
  assert (2 ^ d <= 2 ^ (Zdigits2 m - 1)) by (apply Z.pow_le_mono_r; lia). lia.
Qed.

Lemma div_pow2_lt (m d n : Z) :
  0 <= n -> 0 <= d -> 0 <= m < 2 ^ (d + n) -> m / 2 ^ n < 2 ^ d.
Proof.
  intros Hn Hd Hm. apply Z.div_lt_upper_bound; [now apply pow2_pos|].
  rewrite <- Z.pow_add_r by lia. now rewrite Z.add_comm.
Qed.

(** ** The exponent of a rounded number *)

Abbreviation fexp := (SpecFloat.fexp prec emax).
Abbreviation emin := (SpecFloat.emin prec emax).

Lemma fexp_spec (k : Z) : fexp k = Z.max (k - 53) (-1074).
Proof. reflexivity. Qed.

Lemma RNE_bounds (P Q : Z) : 0 <= P -> 0 < Q -> P / Q <= RNE P Q <= P / Q + 1.
Proof.
  intros HP HQ. unfold RNE.
  destruct (2 * (P mod Q) ?= Q); [destruct (Z.even (P / Q))| |]; lia.
Qed.

Section Round.

Variable sx : bool.

(** What [binary_round_aux] returns for a number [P / Q * 2 ^ e] whose
    integer part [m] is positive. *)
Theorem binary_round_aux_spec (P Q m e : Z) (l : location) :
  0 < Q -> Q <= P ->
  rec_inv P Q (shr_record_of_loc m l) ->
  let n1 := Z.max (fexp (Zdigits2 m + e) - e) 0 in
  let e1 := e + n1 in
  let m1 := RNE P (2 ^ n1 * Q) in
  (m1 = 0 /\ binary_round_aux prec emax sx m e l = S754_zero sx)
  \/ (exists (m2 : positive) (e2 : Z),
         Zpos m2 * 2 ^ (e2 - e1) = m1 /\ e1 <= e2 /\ -1074 <= e1
         /\ binary_round_aux prec emax sx m e l
            = if e2 <=? emax - prec then S754_finite sx m2 e2 else S754_infinity sx).
Proof.
  intros HQ HPQ Hinv n1 e1 m1.
  assert (Hm : m = P / Q).
  { destruct Hinv as [Hm _]. destruct l as [|[]]; exact Hm. }
  assert (Hm1 : 1 <= m).
  { rewrite Hm. apply Z.div_le_lower_bound; lia. }
  destruct (dig_bounds m ltac:(lia)) as [Hd Hdb].
  assert (Hn1 : 0 <= n1) by (unfold n1; lia).
  assert (He1 : -1074 <= e1) by (unfold e1, n1; rewrite fexp_spec; lia).
  assert (Hshift : Zdigits2 m - n1 <= 53) by (unfold n1; rewrite fexp_spec; lia).
  pose proof (pow2_pos n1 Hn1) as Hpn1.
  unfold binary_round_aux, shr_fexp.
  destruct (shr_spec P Q _ e (fexp (Zdigits2 m + e) - e) ltac:(lia) HQ Hinv)
    as [Hse Hsr].
  fold n1 in Hse, Hsr. fold e1 in Hse.
  destruct (shr (shr_record_of_loc m l) e (fexp (Zdigits2 m + e) - e)) as [r1 e1'].
  cbn [fst snd] in Hse, Hsr. subst e1'.
  rewrite (round_rec_inv P (2 ^ n1 * Q) r1 ltac:(lia) ltac:(nia) Hsr).
  fold m1.
  assert (Hm1b : 0 <= m1 <= 2 ^ 53).
  { pose proof (RNE_bounds P (2 ^ n1 * Q) ltac:(lia) ltac:(nia)) as Hb. fold m1 in Hb.
    assert (Hq : P / (2 ^ n1 * Q) = m / 2 ^ n1).
    { rewrite Hm, Z.div_div by lia. f_equal. lia. }
    rewrite Hq in Hb.
    assert (0 <= m / 2 ^ n1) by (apply Z.div_pos; lia).
    assert (m / 2 ^ n1 < 2 ^ 53).
    { destruct (Z_le_gt_dec (Zdigits2 m) n1) as [Hle|Hgt].
      - assert (m / 2 ^ n1 = 0).
        { apply Z.div_small. split; [lia|].
          assert (2 ^ Zdigits2 m <= 2 ^ n1) by (apply Z.pow_le_mono_r; lia). lia. }
        lia.
      - apply (div_pow2_lt m 53 n1); try lia. split; [lia|].
        assert (2 ^ Zdigits2 m <= 2 ^ (53 + n1)) by (apply Z.pow_le_mono_r; lia). lia. }
    lia. }
  pose proof (rec_inv_exact m1) as Hinv2.
  destruct (shr_spec m1 1 _ e1 (fexp (Zdigits2 m1 + e1) - e1) ltac:(lia) ltac:(lia) Hinv2)
    as [Hse2 Hsr2].
  destruct (shr (shr_record_of_loc m1 loc_Exact) e1 (fexp (Zdigits2 m1 + e1) - e1))
    as [r2 e2].
  cbn [fst snd] in Hse2, Hsr2. destruct Hsr2 as [Hm2 _].
  rewrite Z.mul_1_r in Hm2.
  destruct (Z.eq_dec m1 0) as [Hz|Hnz].
  - left. split; [exact Hz|]. rewrite Hm2, Hz, Z.div_0_l; [reflexivity|].
    pose proof (pow2_pos (Z.max (fexp (Zdigits2 0 + e1) - e1) 0)). lia.
  - right.
    destruct (Z.eq_dec m1 (2 ^ 53)) as [Hc|Hnc].
    + assert (Hdig : Zdigits2 m1 = 54) by (rewrite Hc; reflexivity).
      rewrite Hdig, fexp_spec in Hse2, Hm2.
      replace (Z.max (Z.max (54 + e1 - 53) (-1074) - e1) 0) with 1 in Hse2, Hm2 by lia.
      rewrite Hc in Hm2. change (2 ^ 53 / 2 ^ 1) with (Zpos (2 ^ 52)) in Hm2.
      rewrite Hm2. exists (2 ^ 52)%positive, e2.
      subst e2. replace (e1 + 1 - e1) with 1 by lia.
      repeat split; try lia.
    + assert (Hdig : Zdigits2 m1 <= 53) by (apply dig_lt_pow; lia).
      rewrite fexp_spec in Hse2, Hm2.
      replace (Z.max (Z.max (Zdigits2 m1 + e1 - 53) (-1074) - e1) 0) with 0
        in Hse2, Hm2 by lia.
      rewrite Z.pow_0_r, Z.div_1_r in Hm2. rewrite Z.add_0_r in Hse2. subst e2.
      rewrite Hm2. destruct m1 as [|p|p]; try lia.
      exists p, e1. rewrite Z.sub_diag, Z.pow_0_r.
      repeat split; try lia.
Qed.

End Round.

(** ** Properties of rounding to nearest *)

Lemma RNE_cases (P Q : Z) :
  0 <= P -> 0 < Q ->
  exists f r, P = Q * f + r /\ 0 <= r < Q /\ 0 <= f /\ P / Q = f
    /\ ((2 * r < Q /\ RNE P Q = f)
        \/ (2 * r = Q /\ RNE P Q = (if Z.even f then f else f + 1))
        \/ (Q < 2 * r /\ RNE P Q = f + 1)).
Proof.
  intros HP HQ. exists (P / Q), (P mod Q).
  pose proof (Z.div_mod P Q ltac:(lia)) as Hdm.
  pose proof (Z.mod_pos_bound P Q HQ) as Hb.
  assert (0 <= P / Q) by (apply Z.div_pos; lia).
  repeat split; try lia. unfold RNE.
  destruct (Z.compare_spec (2 * (P mod Q)) Q); auto.
Qed.

Lemma div_unique_floor (P Q f : Z) :
  0 < Q -> Q * f <= P < Q * (f + 1) -> P / Q = f.
Proof.
  intros HQ Hb. symmetry. apply (Z.div_unique P Q f (P - Q * f)); lia.
Qed.

Lemma RNE_mono (P1 Q1 P2 Q2 : Z) :
  0 <= P1 -> 0 < Q1 -> 0 <= P2 -> 0 < Q2 ->
  P1 * Q2 <= P2 * Q1 -> RNE P1 Q1 <= RNE P2 Q2.
Proof.
  intros HP1 HQ1 HP2 HQ2 Hle.
  destruct (RNE_cases P1 Q1 HP1 HQ1) as (f1 & r1 & E1 & B1 & F1 & _ & C1).
  destruct (RNE_cases P2 Q2 HP2 HQ2) as (f2 & r2 & E2 & B2 & F2 & _ & C2).
  assert (Hf : f1 <= f2).
  { destruct (Z_le_gt_dec f1 f2) as [|Hgt]; [assumption|exfalso].
    assert (f2 + 1 <= f1) by lia.
    assert (P2 * Q1 < Q2 * (f2 + 1) * Q1) by nia.
    assert (Q1 * f1 * Q2 <= P1 * Q2) by nia.
    assert (Q2 * (f2 + 1) * Q1 <= Q1 * f1 * Q2) by nia. lia. }
  assert (Hr1 : f1 <= RNE P1 Q1 <= f1 + 1).
  { destruct C1 as [[_ ->]|[[_ ->]|[_ ->]]]; [lia| |lia]. destruct (Z.even f1); lia. }
  assert (Hr2 : f2 <= RNE P2 Q2 <= f2 + 1).
  { destruct C2 as [[_ ->]|[[_ ->]|[_ ->]]]; [lia| |lia]. destruct (Z.even f2); lia. }
  destruct (Z.eq_dec f1 f2) as [Heq|Hne]; [|lia].
  subst f2.
  assert (Hrr : r1 * Q2 <= r2 * Q1) by nia.
  destruct C1 as [[H1 ->]|[[H1 ->]|[H1 ->]]]; [lia| |].
  - destruct C2 as [[H2 ->]|[[H2 ->]|[H2 ->]]].
    + exfalso. nia.
    + lia.
    + destruct (Z.even f1); lia.
  - destruct C2 as [[H2 ->]|[[H2 ->]|[H2 ->]]].
    + exfalso. nia.
    + exfalso. nia.
    + lia.
Qed.

Lemma RNE_exact (a Q : Z) : 0 <= a -> 0 < Q -> RNE (a * Q) Q = a.
Proof.
  intros Ha HQ. unfold RNE. rewrite Z.mod_mul by lia. rewrite Z.div_mul by lia.
  destruct (Z.compare_spec (2 * 0) Q); try lia; reflexivity.
Qed.

Lemma RNE_le_int (P Q n : Z) :
  0 <= P -> 0 < Q -> 0 <= n -> P <= n * Q -> RNE P Q <= n.
Proof.
  intros HP HQ Hn Hle. rewrite <- (RNE_exact n Q Hn HQ).
  apply RNE_mono; try lia. nia.
Qed.

Lemma RNE_ge_int (P Q n : Z) :
  0 <= P -> 0 < Q -> 0 <= n -> n * Q <= P -> n <= RNE P Q.
Proof.
  intros HP HQ Hn Hle. rewrite <- (RNE_exact n Q Hn HQ).
  apply RNE_mono; try lia. nia.
Qed.

Lemma RNE_scale (c P Q : Z) :
  0 < c -> 0 <= P -> 0 < Q -> RNE (c * P) (c * Q) = RNE P Q.
Proof.
  intros Hc HP HQ. unfold RNE.
  rewrite Z.mul_mod_distr_l by lia. rewrite Z.div_mul_cancel_l by lia.
  destruct (Z.compare_spec (2 * (c * (P mod Q))) (c * Q)),
           (Z.compare_spec (2 * (P mod Q)) Q); try nia; reflexivity.
Qed.

(** ** Rounding a scaled rational

    Numbers are counted in units of [2 ^ (- omega)]; [N / D] in these units
    is rounded to 53 significant bits, or to a multiple of the smallest
    subnormal. *)

Lemma kc_nonneg (N D : Z) : 0 <= kc N D.
Proof. unfold kc, omega. lia. Qed.

Lemma floor_le (N1 D1 N2 D2 : Z) :
  0 < D1 -> 0 < D2 -> 0 <= N1 -> N1 * D2 <= N2 * D1 -> N1 / D1 <= N2 / D2.
Proof.
  intros H1 H2 HN Hle.
  apply Z.div_le_lower_bound; [lia|].
  pose proof (Z.mul_div_le N1 D1 H1) as Hf.
  assert (0 <= N1 / D1) by (apply Z.div_pos; lia).
  nia.
Qed.

Theorem RNs_mono (N1 D1 N2 D2 : Z) :
  0 < D1 -> 0 < D2 -> D1 <= N1 -> N1 * D2 <= N2 * D1 ->
  RNs N1 D1 <= RNs N2 D2.
Proof.
  intros HD1 HD2 H1 Hle.
  assert (HN2 : D2 <= N2).
  { apply (Z.mul_le_mono_pos_r _ _ D1); [lia|].
    assert (D1 * D2 <= N1 * D2) by (apply Z.mul_le_mono_nonneg_r; lia). lia. }
  assert (Hq1 : 1 <= N1 / D1) by (apply Z.div_le_lower_bound; lia).
  assert (Hq12 : N1 / D1 <= N2 / D2) by (apply floor_le; lia).
  pose proof (dig_mono (N1 / D1) (N2 / D2) ltac:(lia) Hq12) as Hdig.
  unfold RNs.
  set (k1 := kc N1 D1). set (k2 := kc N2 D2).
  assert (Hk : k1 <= k2) by (unfold k1, k2, kc; lia).
  pose proof (kc_nonneg N1 D1) as Hk1. fold k1 in Hk1.
  pose proof (pow2_pos k1 Hk1) as Hp1.
  pose proof (pow2_pos k2 ltac:(lia)) as Hp2.
  destruct (Z.eq_dec k1 k2) as [Heq|Hne].
  - rewrite <- Heq. apply Z.mul_le_mono_nonneg_r; [lia|].
    apply RNE_mono; try nia.
  - assert (Hk2 : k2 = Zdigits2 (N2 / D2) - 53) by (unfold k1, k2, kc in *; lia).
    assert (Hd1 : Zdigits2 (N1 / D1) - 53 <= k1) by (unfold k1, kc; lia).
    set (d2 := Zdigits2 (N2 / D2)) in *.
    destruct (dig_bounds (N2 / D2) ltac:(lia)) as [_ [Hlow _]]. fold d2 in Hlow.
    destruct (dig_bounds (N1 / D1) ltac:(lia)) as [_ [_ Hup]].
    (* the power of two between the two numbers *)
    assert (Hb2 : 2 ^ 52 * 2 ^ k2 <= RNE N2 (2 ^ k2 * D2) * 2 ^ k2).
    { apply Z.mul_le_mono_nonneg_r; [lia|].
      apply RNE_ge_int; try nia.
      assert (2 ^ (d2 - 1) * D2 <= N2).
      { pose proof (Z.mul_div_le N2 D2 HD2). nia. }
      replace (2 ^ (d2 - 1)) with (2 ^ 52 * 2 ^ k2) in H.
      - nia.
      - rewrite <- Z.pow_add_r by lia. f_equal. lia. }
    assert (Hb1 : RNE N1 (2 ^ k1 * D1) * 2 ^ k1 <= 2 ^ (52 + k2 - k1) * 2 ^ k1).
    { apply Z.mul_le_mono_nonneg_r; [lia|].
      pose proof (pow2_pos (52 + k2 - k1) ltac:(lia)).
      apply RNE_le_int; try nia.
      assert (N1 < 2 ^ Zdigits2 (N1 / D1) * D1).
      { pose proof (Z.mod_pos_bound N1 D1 HD1). pose proof (Z.div_mod N1 D1 ltac:(lia)). nia. }
      assert (2 ^ Zdigits2 (N1 / D1) <= 2 ^ (52 + k2)) by (apply Z.pow_le_mono_r; lia).
      replace (2 ^ (52 + k2 - k1) * (2 ^ k1 * D1)) with (2 ^ (52 + k2) * D1).
      - nia.
      - replace (52 + k2) with (52 + k2 - k1 + k1) at 1 by lia.
        rewrite Z.pow_add_r by lia. ring. }
    replace (2 ^ (52 + k2 - k1) * 2 ^ k1) with (2 ^ 52 * 2 ^ k2) in Hb1.
    + lia.
    + rewrite <- !Z.pow_add_r by lia. f_equal. lia.
Qed.

(** ** The value of a number that is not negative *)

Lemma valid_finite (s : bool) (m : positive) (e : Z) :
  valid_binary (S754_finite s m e) = true ->
  e = Z.max (Zdigits2 (Zpos m) + e - 53) (-1074) /\ e <= 971.
Proof.
  cbn [valid_binary]. unfold bounded, canonical_mantissa.
  rewrite andb_true_iff, Z.eqb_eq, Z.leb_le, fexp_spec. cbn [Zdigits2].
  change (emax - prec) with 971. lia.
Qed.

Lemma V_nonneg (f : spec_float) : 0 <= V f.
Proof.
  destruct f as [| | |[] m e]; cbn [V]; lia.
Qed.

Lemma V_finite_bounds (m : positive) (e : Z) :
  valid_binary (S754_finite false m e) = true ->
  2 ^ (Zdigits2 (Zpos m) + e + omega - 1) <= V (S754_finite false m e)
    < 2 ^ (Zdigits2 (Zpos m) + e + omega)
  /\ 0 < Zdigits2 (Zpos m) <= 53.
Proof.
  intros Hv. destruct (valid_finite _ _ _ Hv) as [Hc He].
  destruct (dig_bounds (Zpos m) ltac:(lia)) as [Hd Hb].
  cbn [V]. unfold omega.
  pose proof (pow2_pos (e + 2200) ltac:(lia)) as Hp.
  split; [|lia].
  replace (Zdigits2 (Zpos m) + e + 2200 - 1) with (Zdigits2 (Zpos m) - 1 + (e + 2200)) by lia.
  replace (Zdigits2 (Zpos m) + e + 2200) with (Zdigits2 (Zpos m) + (e + 2200)) by lia.
  rewrite (Z.pow_add_r 2 (Zdigits2 (Zpos m) - 1) (e + 2200)) by lia.
  rewrite (Z.pow_add_r 2 (Zdigits2 (Zpos m)) (e + 2200)) by lia. nia.
Qed.

Lemma lt_scaled (m1 m2 a b c : Z) :
  0 < a -> 1 <= b -> 0 <= m1 < 2 * c -> c <= m2 ->
  m1 * a < m2 * (b * (2 * a)).
Proof.
  intros Ha Hb H1 H2.
  assert (m1 * a < 2 * c * a) by (apply Z.mul_lt_mono_pos_r; lia).
  assert (2 * c * a <= 2 * m2 * a) by (apply Z.mul_le_mono_nonneg_r; lia).
  assert (m2 * (1 * (2 * a)) <= m2 * (b * (2 * a))).
  { apply Z.mul_le_mono_nonneg_l; [lia|]. apply Z.mul_le_mono_nonneg_r; lia. }
  lia.
Qed.

(** The order of valid numbers is the order of their values. *)
Lemma compare_V (f1 f2 : spec_float) :
  nn f1 -> nn f2 ->
  valid_binary f1 = true -> valid_binary f2 = true ->
  SFcompare f1 f2 = Some (V f1 ?= V f2).
Proof.
  intros N1 N2 V1 V2.
  destruct f1 as [s1|s1| |[] m1 e1]; try contradiction;
    destruct f2 as [s2|s2| |[] m2 e2]; try contradiction.
  - reflexivity.
  - destruct (V_finite_bounds m2 e2 V2) as [[Hl _] _].
    destruct (valid_finite _ _ _ V2).
    pose proof (pow2_pos (Zdigits2 (Zpos m2) + e2 + omega - 1)
                  ltac:(unfold omega; pose proof (dig_nonneg (Zpos m2));
                        destruct (dig_bounds (Zpos m2)); lia)).
    cbn [SFcompare]. f_equal. symmetry. apply Z.compare_lt_iff.
    change (V (S754_zero s1)) with 0. lia.
  - destruct (V_finite_bounds m1 e1 V1) as [[Hl _] _].
    destruct (valid_finite _ _ _ V1).
    pose proof (pow2_pos (Zdigits2 (Zpos m1) + e1 + omega - 1)
                  ltac:(unfold omega; destruct (dig_bounds (Zpos m1)); lia)).
    cbn [SFcompare]. f_equal. symmetry. apply Z.compare_gt_iff.
    change (V (S754_zero s2)) with 0. lia.
  - destruct (valid_finite _ _ _ V1) as [C1 E1].
    destruct (valid_finite _ _ _ V2) as [C2 E2].
    destruct (dig_bounds (Zpos m1) ltac:(lia)) as [D1 B1].
    destruct (dig_bounds (Zpos m2) ltac:(lia)) as [D2 B2].
    cbn [SFcompare V]. f_equal. unfold omega.
    destruct (Z.compare_spec e1 e2) as [Heq|Hlt|Hgt].
    + subst e2. change (Pos.compare_cont Eq m1 m2) with (Zpos m1 ?= Zpos m2).
      pose proof (pow2_pos (e1 + 2200) ltac:(lia)) as Hp.
      destruct (Z.compare_spec (Zpos m1) (Zpos m2)) as [H|H|H];
        symmetry; [apply Z.compare_eq_iff|apply Z.compare_lt_iff|apply Z.compare_gt_iff];
        nia.
    + symmetry. apply Z.compare_lt_iff.
      assert (Hd2 : Zdigits2 (Zpos m2) = 53) by lia.
      rewrite Hd2 in B2.
      assert (Zpos m1 < 2 ^ 53).
      { assert (2 ^ Zdigits2 (Zpos m1) <= 2 ^ 53) by (apply Z.pow_le_mono_r; lia). lia. }
      replace (e2 + 2200) with (e2 - e1 - 1 + (1 + (e1 + 2200))) by lia.
      rewrite (Z.pow_add_r 2 (e2 - e1 - 1) (1 + (e1 + 2200))) by lia.
      rewrite (Z.pow_add_r 2 1 (e1 + 2200)) by lia.
      pose proof (pow2_pos (e1 + 2200) ltac:(lia)).
      pose proof (pow2_pos (e2 - e1 - 1) ltac:(lia)).
      change (2 ^ (53 - 1)) with 4503599627370496 in B2.
      change (2 ^ 53) with 9007199254740992 in *. change (2 ^ 1) with 2.
      apply (lt_scaled _ _ _ _ 4503599627370496); lia.
    + symmetry. apply Z.compare_gt_iff.
      assert (Hd1 : Zdigits2 (Zpos m1) = 53) by lia.
      rewrite Hd1 in B1.
      assert (Zpos m2 < 2 ^ 53).
      { assert (2 ^ Zdigits2 (Zpos m2) <= 2 ^ 53) by (apply Z.pow_le_mono_r; lia). lia. }
      replace (e1 + 2200) with (e1 - e2 - 1 + (1 + (e2 + 2200))) by lia.
      rewrite (Z.pow_add_r 2 (e1 - e2 - 1) (1 + (e2 + 2200))) by lia.
      rewrite (Z.pow_add_r 2 1 (e2 + 2200)) by lia.
      pose proof (pow2_pos (e2 + 2200) ltac:(lia)).
      pose proof (pow2_pos (e1 - e2 - 1) ltac:(lia)).
      change (2 ^ (53 - 1)) with 4503599627370496 in B1.
      change (2 ^ 53) with 9007199254740992 in *. change (2 ^ 1) with 2.
      apply (lt_scaled _ _ _ _ 4503599627370496); lia.
Qed.

Lemma floor_bounds (P Q a b : Z) :
  0 < Q -> a <= P / Q < b -> a * Q <= P < b * Q.
Proof.
  intros HQ [Ha Hb].
  pose proof (Z.div_mod P Q ltac:(lia)) as Hdm.
  pose proof (Z.mod_pos_bound P Q HQ) as Hm.
  split; nia.
Qed.

Lemma dig_scaled (P Q j : Z) :
  0 < Q -> Q <= P -> 0 <= j ->
  Zdigits2 (P * 2 ^ j / Q) = Zdigits2 (P / Q) + j.
Proof.
  intros HQ HPQ Hj.
  assert (Hq : 1 <= P / Q) by (apply Z.div_le_lower_bound; lia).
  destruct (dig_bounds (P / Q) ltac:(lia)) as [Hd Hb].
  destruct (floor_bounds P Q _ _ HQ Hb) as [Hlo Hhi].
  pose proof (pow2_pos j Hj) as Hpj.
  apply dig_unique; [|lia]. split.
  - apply Z.div_le_lower_bound; [lia|].
    replace (Zdigits2 (P / Q) + j - 1) with (Zdigits2 (P / Q) - 1 + j) by lia.
    rewrite (Z.pow_add_r 2 (Zdigits2 (P / Q) - 1) j) by lia.
    nia.
  - apply Z.div_lt_upper_bound; [lia|].
    rewrite (Z.pow_add_r 2 (Zdigits2 (P / Q)) j) by lia. nia.
Qed.

Lemma RNs_scale (c N D : Z) :
  0 < c -> 0 <= N -> 0 < D -> RNs (c * N) (c * D) = RNs N D.
Proof.
  intros Hc HN HD. unfold RNs, kc.
  rewrite Z.div_mul_cancel_l by lia.
  set (k := Z.max (Zdigits2 (N / D) - 53) (omega - 1074)).
  assert (0 < 2 ^ k) by (apply pow2_pos; unfold k, omega; lia).
  replace (2 ^ k * (c * D)) with (c * (2 ^ k * D)) by ring.
  rewrite RNE_scale by nia. reflexivity.
Qed.

(** A valid number rounds to itself. *)
Lemma RNs_id (m : positive) (e : Z) :
  valid_binary (S754_finite false m e) = true ->
  RNs (V (S754_finite false m e)) 1 = V (S754_finite false m e).
Proof.
  intros Hv. destruct (valid_finite _ _ _ Hv) as [Hc He].
  cbn [V]. unfold RNs, kc. rewrite Z.div_1_r.
  assert (Hd : Zdigits2 (Zpos m * 2 ^ (e + omega)) = Zdigits2 (Zpos m) + (e + omega)).
  { pose proof (dig_scaled (Zpos m) 1 (e + omega) ltac:(lia) ltac:(lia)
                  ltac:(unfold omega; lia)) as H.
    now rewrite !Z.div_1_r in H. }
  rewrite Hd.
  replace (Z.max (Zdigits2 (Zpos m) + (e + omega) - 53) (omega - 1074))
    with (e + omega) by (unfold omega; lia).
  rewrite Z.mul_1_r. rewrite RNE_exact; [reflexivity|lia|].
  apply pow2_pos. unfold omega. lia.
Qed.

Lemma R_id (f : spec_float) :
  nn f -> valid_binary f = true -> R (V f) 1 = V f.
Proof.
  intros Hn Hv. unfold R.
  destruct (Z.eqb_spec (V f) 0) as [H0|H0]; [now rewrite H0|].
  destruct f as [| | |[] m e]; try contradiction; try (cbn [V] in H0; lia).
  now apply RNs_id.
Qed.

(** The value [binary_round_aux] returns. *)
Theorem binary_round_aux_value (P Q m e : Z) (l : location) :
  0 < Q -> Q <= P ->
  rec_inv P Q (shr_record_of_loc m l) ->
  - omega <= e ->
  e <= SpecFloat.fexp prec emax (Zdigits2 m + e) ->
  RNs (P * 2 ^ (e + omega)) Q < 2 ^ (omega + 972) ->
  nn (binary_round_aux prec emax false m e l)
  /\ V (binary_round_aux prec emax false m e l) = RNs (P * 2 ^ (e + omega)) Q.
Proof.
  intros HQ HPQ Hinv He Hcan Hov.
  assert (Hm : m = P / Q).
  { destruct Hinv as [Hm _]. destruct l as [|[]]; exact Hm. }
  pose proof (binary_round_aux_spec false P Q m e l HQ HPQ Hinv) as Hspec.
  cbv zeta in Hspec.
  set (e1 := SpecFloat.fexp prec emax (Zdigits2 m + e)) in *.
  replace (Z.max (e1 - e) 0) with (e1 - e) in Hspec by lia.
  replace (e + (e1 - e)) with e1 in Hspec by lia.
  assert (He1 : -1074 <= e1) by (unfold e1; rewrite fexp_spec; lia).
  pose proof (pow2_pos (e + omega) ltac:(lia)) as Hpe.
  pose proof (pow2_pos (e1 - e) ltac:(lia)) as Hpd.
  pose proof (pow2_pos (e1 + omega) ltac:(unfold omega; lia)) as Hp1.
  assert (Hk : kc (P * 2 ^ (e + omega)) Q = e1 + omega).
  { unfold kc. rewrite dig_scaled by lia. rewrite <- Hm.
    unfold e1. rewrite fexp_spec. unfold omega. lia. }
  assert (Hr : RNs (P * 2 ^ (e + omega)) Q
               = RNE P (2 ^ (e1 - e) * Q) * 2 ^ (e1 + omega)).
  { unfold RNs. rewrite Hk. f_equal.
    replace (e1 + omega) with (e + omega + (e1 - e)) by lia.
    rewrite (Z.pow_add_r 2 (e + omega) (e1 - e)) by lia.
    replace (P * 2 ^ (e + omega)) with (2 ^ (e + omega) * P) by ring.
    replace (2 ^ (e + omega) * 2 ^ (e1 - e) * Q)
      with (2 ^ (e + omega) * (2 ^ (e1 - e) * Q)) by ring.
    apply RNE_scale; nia. }
  rewrite Hr in Hov |- *.
  destruct Hspec as [[Hz ->]|(m2 & e2 & Hm2 & He2 & _ & ->)].
  - rewrite Hz. split; [exact I | reflexivity].
  - pose proof (pow2_pos (e2 - e1) ltac:(lia)) as Hp2.
    assert (Hval : Zpos m2 * 2 ^ (e2 + omega)
                   = RNE P (2 ^ (e1 - e) * Q) * 2 ^ (e1 + omega)).
    { rewrite <- Hm2.
      replace (e2 + omega) with (e2 - e1 + (e1 + omega)) by lia.
      rewrite (Z.pow_add_r 2 (e2 - e1) (e1 + omega)) by (unfold omega; lia). ring. }
    assert (Hfin : e2 <= 971).
    { destruct (Z_le_gt_dec e2 971) as [|Hgt]; [assumption|exfalso].
      assert (2 ^ (omega + 972) <= 2 ^ (e2 + omega))
        by (apply Z.pow_le_mono_r; unfold omega; lia).
      pose proof (pow2_pos (e2 + omega) ltac:(unfold omega; lia)).
      rewrite <- Hval in Hov. nia. }
    change (emax - prec) with 971.
    rewrite (proj2 (Z.leb_le e2 971) Hfin).
    split; [exact I | exact Hval].
Qed.

Lemma RNs_pow2 (j : Z) : omega - 1074 <= j -> RNs (2 ^ j) 1 = 2 ^ j.
Proof.
  intros Hj. unfold RNs, kc. rewrite Z.div_1_r.
  assert (Hd : Zdigits2 (2 ^ j) = j + 1).
  { apply dig_unique; [|unfold omega in Hj; lia].
    replace (j + 1 - 1) with j by lia. split; [lia|].
    apply Z.pow_lt_mono_r; unfold omega in Hj; lia. }
  rewrite Hd. set (k := Z.max (j + 1 - 53) (omega - 1074)).
  assert (Hk : 0 <= k <= j) by (unfold k, omega in *; lia).
  pose proof (pow2_pos k ltac:(lia)).
  replace (2 ^ j) with (2 ^ (j - k) * 2 ^ k) at 1
    by (rewrite <- Z.pow_add_r by lia; f_equal; lia).
  rewrite Z.mul_1_r, RNE_exact; [|apply Z.lt_le_incl, pow2_pos; lia|lia].
  rewrite <- Z.pow_add_r by lia. f_equal. lia.
Qed.

Lemma RNs_le_pow2 (N D j : Z) :
  0 < D -> D <= N -> N <= 2 ^ j * D -> omega - 1074 <= j -> RNs N D <= 2 ^ j.
Proof.
  intros HD HN Hle Hj. rewrite <- (RNs_pow2 j Hj).
  apply RNs_mono; lia.
Qed.

Lemma RNs_nonneg (N D : Z) : 0 < D -> 0 <= N -> 0 <= RNs N D.
Proof.
  intros HD HN. unfold RNs.
  pose proof (pow2_pos (kc N D) (kc_nonneg N D)).
  pose proof (RNE_bounds N (2 ^ kc N D * D) HN ltac:(nia)).
  assert (0 <= N / (2 ^ kc N D * D)) by (apply Z.div_pos; nia).
  nia.
Qed.

Lemma R_nonneg (N D : Z) : 0 < D -> 0 <= N -> 0 <= R N D.
Proof.
  intros HD HN. unfold R. destruct (N =? 0); [lia|now apply RNs_nonneg].
Qed.

(** Rounding is monotone. *)
Theorem R_mono (N1 D1 N2 D2 : Z) :
  0 < D1 -> 0 < D2 -> 0 <= N1 -> (N1 = 0 \/ D1 <= N1) ->
  N1 * D2 <= N2 * D1 -> R N1 D1 <= R N2 D2.
Proof.
  intros HD1 HD2 HN1 Hc Hle. unfold R.
  assert (HN2 : 0 <= N2) by nia.
  destruct (Z.eqb_spec N1 0) as [H1|H1].
  - destruct (N2 =? 0); [lia | now apply RNs_nonneg].
  - destruct (Z.eqb_spec N2 0) as [H2|H2]; [nia|].
    apply RNs_mono; lia.
Qed.

Lemma R_le_pow2 (N D j : Z) :
  0 < D -> 0 <= N -> (N = 0 \/ D <= N) -> N <= 2 ^ j * D -> omega - 1074 <= j ->
  R N D <= 2 ^ j.
Proof.
  intros HD HN Hc Hle Hj. unfold R. destruct (Z.eqb_spec N 0) as [H0|H0].
  - apply Z.lt_le_incl, pow2_pos. unfold omega in Hj. lia.
  - apply RNs_le_pow2; lia.
Qed.

Lemma V_lower (f : spec_float) :
  nn f -> valid_binary f = true -> V f = 0 \/ 2 ^ (omega - 1074) <= V f.
Proof.
  intros Hn Hv. destruct f as [| | |[] m e]; try contradiction; try (left; reflexivity).
  right. destruct (valid_finite _ _ _ Hv) as [Hc He]. cbn [V].
  assert (2 ^ (omega - 1074) <= 2 ^ (e + omega))
    by (apply Z.pow_le_mono_r; unfold omega; lia).
  pose proof (pow2_pos (omega - 1074) ltac:(unfold omega; lia)). nia.
Qed.

Lemma V_upper (f : spec_float) :
  nn f -> valid_binary f = true -> V f < 2 ^ (omega + 1024).
Proof.
  intros Hn Hv.
  pose proof (pow2_pos (omega + 1024) ltac:(unfold omega; lia)).
  destruct f as [| | |[] m e]; try contradiction; try (cbn [V]; lia).
  destruct (valid_finite _ _ _ Hv) as [Hc He].
  destruct (V_finite_bounds m e Hv) as [[_ Hu] Hd].
  assert (2 ^ (Zdigits2 (Zpos m) + e + omega) <= 2 ^ (omega + 1024))
    by (apply Z.pow_le_mono_r; unfold omega; lia).
  lia.
Qed.

(** ** Multiplication *)

Lemma dig_mul_lower (a b : Z) :
  0 < a -> 0 < b -> Zdigits2 a + Zdigits2 b - 1 <= Zdigits2 (a * b).
Proof.
  intros Ha Hb.
  destruct (dig_bounds a Ha) as [Hda [Hla _]].
  destruct (dig_bounds b Hb) as [Hdb [Hlb _]].
  destruct (dig_bounds (a * b) ltac:(nia)) as [Hdab [_ Hu]].
  destruct (Z_le_gt_dec (Zdigits2 a + Zdigits2 b - 1) (Zdigits2 (a * b)));
    [assumption|exfalso].
  assert (2 ^ Zdigits2 (a * b) <= 2 ^ (Zdigits2 a - 1 + (Zdigits2 b - 1)))
    by (apply Z.pow_le_mono_r; lia).
  rewrite Z.pow_add_r in H by lia.
  pose proof (pow2_pos (Zdigits2 a - 1) ltac:(lia)).
  pose proof (pow2_pos (Zdigits2 b - 1) ltac:(lia)).
  assert (2 ^ (Zdigits2 a - 1) * 2 ^ (Zdigits2 b - 1) <= a * b) by nia.
  lia.
Qed.

Lemma pow2_split (a b : Z) : 0 <= a -> 0 <= b -> 2 ^ (a + b) = 2 ^ a * 2 ^ b.
Proof. intros. now apply Z.pow_add_r. Qed.

Theorem SFmul_value (x y : spec_float) :
  nn x -> nn y -> valid_binary x = true -> valid_binary y = true ->
  V x * V y <= 2 ^ (omega + 971) * 2 ^ omega ->
  nn (SF64mul x y) /\ V (SF64mul x y) = R (V x * V y) (2 ^ omega).
Proof.
  intros Nx Ny Vx Vy Hb.
  pose proof (pow2_pos omega ltac:(unfold omega; lia)) as Hpo.
  destruct x as [sx|sx| |[] mx ex]; try contradiction;
    destruct y as [sy|sy| |[] my ey]; try contradiction;
    try (split; [exact I|]; cbn [V]; rewrite ?Z.mul_0_l, ?Z.mul_0_r; reflexivity).
  destruct (valid_finite _ _ _ Vx) as [Cx Ex].
  destruct (valid_finite _ _ _ Vy) as [Cy Ey].
  destruct (dig_bounds (Zpos mx) ltac:(lia)) as [Dx Bx].
  destruct (dig_bounds (Zpos my) ltac:(lia)) as [Dy By].
  pose proof (dig_mul_lower (Zpos mx) (Zpos my) ltac:(lia) ltac:(lia)) as Hdm.
  unfold SF64mul, SFmul. cbn [xorb].
  pose proof (pow2_pos (ex + ey + omega) ltac:(unfold omega; lia)) as Hpe.
  assert (Hval : V (S754_finite false mx ex) * V (S754_finite false my ey)
                 = 2 ^ omega * (Zpos (mx * my) * 2 ^ (ex + ey + omega))).
  { cbn [V]. rewrite Pos2Z.inj_mul.
    replace (Zpos mx * 2 ^ (ex + omega) * (Zpos my * 2 ^ (ey + omega)))
      with (Zpos mx * Zpos my * (2 ^ (ex + omega) * 2 ^ (ey + omega))) by ring.
    rewrite <- pow2_split by (unfold omega; lia).
    replace (ex + omega + (ey + omega)) with (omega + (ex + ey + omega)) by lia.
    rewrite pow2_split by (unfold omega; lia). ring. }
  rewrite Hval in Hb |- *.
  assert (Hnz : 2 ^ omega * (Zpos (mx * my) * 2 ^ (ex + ey + omega)) <> 0) by nia.
  unfold R. rewrite (proj2 (Z.eqb_neq _ _) Hnz).
  replace (2 ^ omega) with (2 ^ omega * 1) at 2 by ring.
  rewrite RNs_scale by nia.
  apply (binary_round_aux_value (Zpos (mx * my)) 1 (Zpos (mx * my)) (ex + ey) loc_Exact).
  - lia.
  - lia.
  - apply rec_inv_exact.
  - unfold omega. lia.
  - rewrite fexp_spec, Pos2Z.inj_mul. lia.
  - apply Z.le_lt_trans with (2 ^ (omega + 971)).
    + apply RNs_le_pow2; try nia; unfold omega; lia.
    + apply Z.pow_lt_mono_r; unfold omega; lia.
Qed.

(** ** Addition *)

Lemma iter_xO (m d : positive) : Zpos (Pos.iter xO m d) = Zpos m * 2 ^ Zpos d.
Proof.
  induction d as [|d IH] using Pos.peano_ind.
  - cbn [Pos.iter]. rewrite Z.pow_1_r. lia.
  - rewrite Pos.iter_succ, Pos2Z.inj_xO, IH, Pos2Z.inj_succ, Z.pow_succ_r by lia. ring.
Qed.

Lemma shl_align_spec (m : positive) (e e' : Z) :
  snd (shl_align m e e') = Z.min e e'
  /\ Zpos (fst (shl_align m e e')) = Zpos m * 2 ^ (e - Z.min e e').
Proof.
  unfold shl_align. destruct (e' - e) as [|d|d] eqn:Hd; cbn [fst snd].
  - rewrite Z.min_l by lia. rewrite Z.sub_diag, Z.pow_0_r. lia.
  - rewrite Z.min_l by lia. rewrite Z.sub_diag, Z.pow_0_r. lia.
  - rewrite Z.min_r by lia. split; [reflexivity|].
    rewrite iter_xO. f_equal. f_equal. lia.
Qed.

Theorem binary_round_value (m : positive) (e : Z) :
  - 1074 <= e ->
  Zpos m * 2 ^ (e + omega) <= 2 ^ (omega + 971) ->
  nn (binary_round prec emax false m e)
  /\ V (binary_round prec emax false m e) = RNs (Zpos m * 2 ^ (e + omega)) 1.
Proof.
  intros He Hb. unfold binary_round.
  set (ec := SpecFloat.fexp prec emax (Zpos (digits2_pos m) + e)).
  destruct (shl_align_spec m e ec) as [Hs Hm].
  destruct (shl_align m e ec) as [mz ez]. cbn [fst snd] in Hs, Hm. subst ez.
  assert (Hec : -1074 <= ec) by (unfold ec; rewrite fexp_spec; lia).
  pose proof (pow2_pos (e - Z.min e ec) ltac:(lia)) as Hp.
  pose proof (pow2_pos (e + omega) ltac:(unfold omega; lia)) as Hpe.
  assert (Hdig : Zdigits2 (Zpos mz) + Z.min e ec = Zpos (digits2_pos m) + e).
  { rewrite Hm.
    pose proof (dig_scaled (Zpos m) 1 (e - Z.min e ec) ltac:(lia) ltac:(lia) ltac:(lia))
      as H.
    rewrite !Z.div_1_r in H. rewrite H. cbn [Zdigits2]. lia. }
  assert (Hv : Zpos mz * 2 ^ (Z.min e ec + omega) = Zpos m * 2 ^ (e + omega)).
  { rewrite Hm, <- Z.mul_assoc, <- pow2_split by (unfold omega; lia).
    f_equal. f_equal. lia. }
  rewrite <- Hv in Hb |- *.
  apply (binary_round_aux_value (Zpos mz) 1 (Zpos mz) (Z.min e ec) loc_Exact).
  - lia.
  - lia.
  - apply rec_inv_exact.
  - unfold omega. lia.
  - rewrite Hdig. fold ec. lia.
  - apply Z.le_lt_trans with (2 ^ (omega + 971)).
    + apply RNs_le_pow2; try lia; unfold omega; lia.
    + apply Z.pow_lt_mono_r; unfold omega; lia.
Qed.

Theorem SFadd_value (x y : spec_float) :
  nn x -> nn y -> valid_binary x = true -> valid_binary y = true ->
  V x + V y <= 2 ^ (omega + 971) ->
  nn (SF64add x y) /\ V (SF64add x y) = R (V x + V y) 1.
Proof.
  intros Nx Ny Vx Vy Hb.
  destruct x as [sx|sx| |[] mx ex]; try contradiction;
    destruct y as [sy|sy| |[] my ey]; try contradiction.
  - split; [destruct sx, sy; exact I|]. destruct sx, sy; reflexivity.
  - split; [exact I|]. unfold SF64add, SFadd. rewrite Z.add_0_l.
    symmetry. now apply R_id.
  - split; [exact I|]. unfold SF64add, SFadd. rewrite Z.add_0_r.
    symmetry. now apply R_id.
  - destruct (valid_finite _ _ _ Vx) as [Cx Ex].
    destruct (valid_finite _ _ _ Vy) as [Cy Ey].
    unfold SF64add, SFadd. cbn [cond_Zopp].
    set (ez := Z.min ex ey).
    destruct (shl_align_spec mx ex ez) as [_ Hmx].
    destruct (shl_align_spec my ey ez) as [_ Hmy].
    rewrite (Z.min_r ex ez) in Hmx by (unfold ez; lia).
    rewrite (Z.min_r ey ez) in Hmy by (unfold ez; lia).
    cbn [Z.add binary_normalize].
    assert (Hsum : Zpos (fst (shl_align mx ex ez) + fst (shl_align my ey ez))
                     * 2 ^ (ez + omega)
                   = V (S754_finite false mx ex) + V (S754_finite false my ey)).
    { rewrite Pos2Z.inj_add, Hmx, Hmy. cbn [V].
      rewrite Z.mul_add_distr_r, <- !Z.mul_assoc.
      rewrite <- !pow2_split by (unfold ez, omega; lia).
      f_equal; f_equal; f_equal; lia. }
    pose proof (pow2_pos (ez + omega) ltac:(unfold ez, omega; lia)) as Hpz.
    unfold R. rewrite <- Hsum in Hb |- *.
    rewrite (proj2 (Z.eqb_neq _ 0)) by nia.
    apply binary_round_value; [unfold ez; lia | exact Hb].
Qed.

(** ** Division *)

Lemma new_location_inv (P Q : Z) :
  0 <= P -> 0 < Q ->
  rec_inv P Q (shr_record_of_loc (P / Q) (new_location Q (P mod Q))).
Proof.
  intros HP HQ.
  pose proof (Z.mod_pos_bound P Q HQ) as Hb.
  assert (Hloc : new_location Q (P mod Q)
                 = if P mod Q =? 0 then loc_Exact
                   else loc_Inexact (2 * (P mod Q) ?= Q)).
  { unfold new_location, new_location_even, new_location_odd.
    destruct (Z.even Q) eqn:Hev; [reflexivity|].
    destruct (P mod Q =? 0); [reflexivity|]. f_equal.
    assert (Hodd : Z.odd Q = true) by (rewrite <- Z.negb_even, Hev; reflexivity).
    apply Z.odd_spec in Hodd. destruct Hodd as [k Hk].
    destruct (Z.compare_spec (2 * (P mod Q) + 1) Q),
             (Z.compare_spec (2 * (P mod Q)) Q); try lia; reflexivity. }
  rewrite Hloc. unfold rec_inv.
  destruct (double_div_mod P Q HP HQ) as [(Hlt & Hd & Hmod)|(Hge & Hd & Hmod)];
    rewrite Hd, Hmod.
  - rewrite Z.odd_mul. cbn [Z.odd andb].
    destruct (Z.eqb_spec (P mod Q) 0) as [H0|H0].
    + rewrite H0. cbn. auto.
    + rewrite (proj2 (Z.compare_lt_iff _ _) Hlt). cbn [shr_record_of_loc shr_m shr_r shr_s].
      repeat split. destruct (Z.eqb_spec (2 * (P mod Q)) 0); [lia | reflexivity].
  - rewrite Z.add_comm, Z.odd_add_mul_2. cbn [Z.odd].
    destruct (Z.eqb_spec (P mod Q) 0) as [H0|H0]; [lia|].
    destruct (Z.compare_spec (2 * (P mod Q)) Q) as [He|Hl|Hg]; try lia;
      cbn [shr_record_of_loc shr_m shr_r shr_s]; repeat split.
    + destruct (Z.eqb_spec (2 * (P mod Q) - Q) 0); [reflexivity | lia].
    + destruct (Z.eqb_spec (2 * (P mod Q) - Q) 0); [lia | reflexivity].
Qed.

Lemma div_eucl_div_mod (a b : Z) : Z.div_eucl a b = (a / b, a mod b).
Proof. unfold Z.div, Z.modulo. now destruct (Z.div_eucl a b). Qed.

Lemma fexp_mono (a b : Z) :
  a <= b -> SpecFloat.fexp prec emax a <= SpecFloat.fexp prec emax b.
Proof. rewrite !fexp_spec. lia. Qed.

Theorem SFdiv_value (x y : spec_float) :
  nn x -> nn y -> valid_binary x = true -> valid_binary y = true ->
  0 < V y ->
  V y <= V x * 2 ^ 1000 \/ V x = 0 ->
  V x * 2 ^ omega <= 2 ^ (omega + 971) * V y ->
  nn (SF64div x y) /\ V (SF64div x y) = R (V x * 2 ^ omega) (V y).
Proof.
  intros Nx Ny Vx Vy Hy Hq Hb.
  destruct y as [sy|sy| |[] my ey]; try contradiction; try (cbn [V] in Hy; lia).
  destruct x as [sx|sx| |[] mx ex]; try contradiction.
  { split; [exact I|]. reflexivity. }
  destruct (valid_finite _ _ _ Vx) as [Cx0 _].
  assert (Hxpos : 0 < V (S754_finite false mx ex)).
  { cbn [V]. pose proof (pow2_pos (ex + omega) ltac:(unfold omega; lia)). nia. }
  destruct Hq as [Hq|Hq]; [|lia].
  destruct (valid_finite _ _ _ Vx) as [Cx Ex].
  destruct (valid_finite _ _ _ Vy) as [Cy Ey].
  destruct (V_finite_bounds mx ex Vx) as [[Lx Ux] Dx].
  destruct (V_finite_bounds my ey Vy) as [[Ly Uy] Dy].
  destruct (dig_bounds (Zpos mx) ltac:(lia)) as [_ Bx].
  destruct (dig_bounds (Zpos my) ltac:(lia)) as [_ By].
  clear Nx Ny Vx Vy.
  set (d1 := Zdigits2 (Zpos mx)) in *. set (d2 := Zdigits2 (Zpos my)) in *.
  set (k := d1 + ex - (d2 + ey)).
  assert (Hk : -1021 <= k).
  { destruct (Z_le_gt_dec (-1021) k) as [|Hgt]; [assumption|exfalso].
    assert (H1 : V (S754_finite false mx ex) * 2 ^ 1000 < 2 ^ (d1 + ex + omega) * 2 ^ 1000).
    { apply Z.mul_lt_mono_pos_r; [apply pow2_pos; lia | exact Ux]. }
    rewrite <- pow2_split in H1 by (unfold omega; lia).
    assert (2 ^ (d1 + ex + omega + 1000) <= 2 ^ (d2 + ey + omega - 1))
      by (apply Z.pow_le_mono_r; unfold k in Hgt; lia).
    lia. }
  unfold SF64div, SFdiv, SFdiv_core_binary. cbn [xorb]. fold d1 d2.
  replace (d1 + ex - (d2 + ey)) with k by reflexivity.
  set (e' := Z.min (SpecFloat.fexp prec emax k) (ex - ey)).
  set (s := ex - ey - e').
  assert (Hfk : SpecFloat.fexp prec emax k = k - 53) by (rewrite fexp_spec; lia).
  assert (Hs : 53 - d1 + d2 <= s) by (unfold s, e', k in *; lia).
  assert (Hs0 : 0 <= s) by lia.
  assert (Hm' : match s with
                | Zpos _ => Z.shiftl (Zpos mx) s
                | Z0 => Zpos mx
                | Zneg _ => 0
                end = Zpos mx * 2 ^ s).
  { destruct s as [|p|p] eqn:Es; [rewrite Z.pow_0_r; lia| |lia].
    apply Z.shiftl_mul_pow2. lia. }
  rewrite Hm'. rewrite div_eucl_div_mod.
  pose proof (pow2_pos s Hs0) as Hps.
  set (P := Zpos mx * 2 ^ s).
  assert (HP : 2 ^ (d1 - 1 + s) <= P).
  { unfold P. rewrite pow2_split by lia. nia. }
  assert (HPQ : Zpos my <= P).
  { assert (2 ^ d2 <= 2 ^ (d1 - 1 + s)) by (apply Z.pow_le_mono_r; lia). lia. }
  assert (Hq1 : 2 ^ (d1 + s - d2 - 1) <= P / Zpos my).
  { apply Z.div_le_lower_bound; [lia|].
    assert (Zpos my * 2 ^ (d1 + s - d2 - 1) <= 2 ^ d2 * 2 ^ (d1 + s - d2 - 1)).
    { apply Z.mul_le_mono_nonneg_r; [apply Z.lt_le_incl, pow2_pos|]; lia. }
    rewrite <- pow2_split in H by lia.
    replace (d2 + (d1 + s - d2 - 1)) with (d1 - 1 + s) in H by lia. lia. }
  assert (Hdq : d1 + s - d2 <= Zdigits2 (P / Zpos my)).
  { pose proof (pow2_pos (d1 + s - d2 - 1) ltac:(lia)).
    destruct (dig_bounds (P / Zpos my) ltac:(lia)) as [Hd [_ Hu]].
    destruct (Z_le_gt_dec (d1 + s - d2) (Zdigits2 (P / Zpos my))); [assumption|exfalso].
    assert (2 ^ Zdigits2 (P / Zpos my) <= 2 ^ (d1 + s - d2 - 1))
      by (apply Z.pow_le_mono_r; lia).
    lia. }
  pose proof (pow2_pos (e' + omega) ltac:(unfold e', omega; rewrite Hfk; lia)) as Hpe.
  pose proof (pow2_pos (ey + omega) ltac:(unfold omega; lia)) as Hpy.
  pose proof (pow2_pos omega ltac:(unfold omega; lia)) as Hpo.
  assert (HN : V (S754_finite false mx ex) * 2 ^ omega
               = 2 ^ (ey + omega) * (P * 2 ^ (e' + omega))).
  { cbn [V]. unfold P.
    replace (Zpos mx * 2 ^ (ex + omega) * 2 ^ omega)
      with (Zpos mx * (2 ^ (ex + omega) * 2 ^ omega)) by ring.
    replace (2 ^ (ey + omega) * (Zpos mx * 2 ^ s * 2 ^ (e' + omega)))
      with (Zpos mx * (2 ^ (ey + omega) * (2 ^ s * 2 ^ (e' + omega)))) by ring.
    f_equal.
    assert (He'o : 0 <= e' + omega) by (clear - Hfk Hk Ex Ey Cx Cy; unfold e', omega; rewrite Hfk; lia).
    assert (Hexo : 0 <= ex + omega) by (clear - Cx; unfold omega; lia).
    assert (Heyo : 0 <= ey + omega) by (clear - Cy; unfold omega; lia).
    assert (Hoo : 0 <= omega) by (unfold omega; lia).
    clear - He'o Hexo Heyo Hoo Hs0.
    rewrite <- (pow2_split (ex + omega) omega) by assumption.
    rewrite <- (pow2_split s (e' + omega)) by assumption.
    rewrite <- (pow2_split (ey + omega) (s + (e' + omega))) by lia.
    f_equal. unfold s. lia. }
  assert (HD : V (S754_finite false my ey) = 2 ^ (ey + omega) * Zpos my)
    by (cbn [V]; ring).
  rewrite HN, HD in Hb |- *.
  assert (HP0 : 0 < P) by (clear - HPQ; lia).
  assert (HPe : 0 < P * 2 ^ (e' + omega)) by (apply Z.mul_pos_pos; lia).
  assert (Hnz : 2 ^ (ey + omega) * (P * 2 ^ (e' + omega)) <> 0).
  { apply Z.neq_mul_0. lia. }
  unfold R. rewrite (proj2 (Z.eqb_neq _ _) Hnz).
  rewrite RNs_scale by lia.
  assert (He'1 : - omega <= e').
  { clear - Hfk Hk Ex Ey Cx Cy. unfold e', omega. rewrite Hfk. lia. }
  assert (He'2 : e' <= SpecFloat.fexp prec emax (Zdigits2 (P / Zpos my) + e')).
  { apply Z.le_trans with (SpecFloat.fexp prec emax k).
    - clear. unfold e'. lia.
    - apply fexp_mono. clear - Hdq. unfold k, s in *. lia. }
  assert (Hmy : 0 < Zpos my) by reflexivity.
  apply (binary_round_aux_value P (Zpos my) (P / Zpos my) e'
           (new_location (Zpos my) (P mod Zpos my)));
    [exact Hmy | exact HPQ | apply new_location_inv; [clear - HP0; lia | exact Hmy]
    | exact He'1 | exact He'2 | ].
  apply Z.le_lt_trans with (2 ^ (omega + 971)).
  - apply RNs_le_pow2; [exact Hmy | | | clear; unfold omega; lia].
    + apply Z.le_trans with (P * 1); [clear - HPQ; lia|].
      apply Z.mul_le_mono_nonneg_l; [clear - HP0; lia | clear - Hpe; lia].
    + apply (Z.mul_le_mono_pos_l _ _ (2 ^ (ey + omega))); [exact Hpy|].
      replace (2 ^ (ey + omega) * (2 ^ (omega + 971) * Zpos my))
        with (2 ^ (omega + 971) * (2 ^ (ey + omega) * Zpos my)) by ring.
      exact Hb.
  - apply Z.pow_lt_mono_r; clear; unfold omega; lia.
Qed.

(** ** Primitive floats *)

Lemma FV_nonneg (x : float) : 0 <= FV x.
Proof. apply V_nonneg. Qed.

Lemma compare_FV (x y : float) :
  fnn x -> fnn y -> SFcompare (Prim2SF x) (Prim2SF y) = Some (FV x ?= FV y).
Proof.
  intros Hx Hy. apply compare_V; try assumption; apply Prim2SF_valid.
Qed.

Lemma leb_FV (x y : float) :
  fnn x -> fnn y -> ((x <=? y)%float = true <-> FV x <= FV y).
Proof.
  intros Hx Hy. rewrite FloatAxioms.leb_spec. unfold SFleb.
  rewrite (compare_FV x y Hx Hy).
  destruct (Z.compare_spec (FV x) (FV y)); split; intros; try lia; try reflexivity;
    discriminate.
Qed.

Lemma ltb_FV (x y : float) :
  fnn x -> fnn y -> ((x <? y)%float = true <-> FV x < FV y).
Proof.
  intros Hx Hy. rewrite FloatAxioms.ltb_spec. unfold SFltb.
  rewrite (compare_FV x y Hx Hy).
  destruct (Z.compare_spec (FV x) (FV y)); split; intros; try lia; try reflexivity;
    discriminate.
Qed.

(** A number between zero and a finite non-negative number is finite and
    not negative. *)
Lemma fnn_between (x u : float) :
  fnn u -> (0 <=? x)%float = true -> (x <=? u)%float = true -> fnn x.
Proof.
  unfold fnn. rewrite !FloatAxioms.leb_spec. unfold SFleb.
  change (Prim2SF 0) with (S754_zero false).
  destruct (Prim2SF x) as [sx|sx| |sx mx ex], (Prim2SF u) as [su|su| |su mu eu];
    cbn; try contradiction; try discriminate; try (intros; exact I);
    destruct sx; try discriminate; try (intros; exact I);
    destruct su; try contradiction; try discriminate.
Qed.

Theorem add_FV (x y : float) :
  fnn x -> fnn y -> FV x + FV y <= 2 ^ (omega + 971) ->
  fnn (x + y) /\ FV (x + y) = R (FV x + FV y) 1.
Proof.
  intros Hx Hy Hb. unfold fnn, FV. rewrite FloatAxioms.add_spec.
  apply SFadd_value; try assumption; apply Prim2SF_valid.
Qed.

Theorem mul_FV (x y : float) :
  fnn x -> fnn y -> FV x * FV y <= 2 ^ (omega + 971) * 2 ^ omega ->
  fnn (x * y) /\ FV (x * y) = R (FV x * FV y) (2 ^ omega).
Proof.
  intros Hx Hy Hb. unfold fnn, FV. rewrite FloatAxioms.mul_spec.
  apply SFmul_value; try assumption; apply Prim2SF_valid.
Qed.

Theorem div_FV (x y : float) :
  fnn x -> fnn y -> 0 < FV y ->
  FV y <= FV x * 2 ^ 1000 \/ FV x = 0 ->
  FV x * 2 ^ omega <= 2 ^ (omega + 971) * FV y ->
  fnn (x / y) /\ FV (x / y) = R (FV x * 2 ^ omega) (FV y).
Proof.
  intros Hx Hy H0 Hq Hb. unfold fnn, FV. rewrite FloatAxioms.div_spec.
  apply SFdiv_value; try assumption; apply Prim2SF_valid.
Qed.

(** *** Numbers between 1/32 and 32, or zero *)

Lemma FV_1 : FV 1 = 2 ^ omega.
Proof. vm_compute. reflexivity. Qed.

Lemma FV_32 : FV 32 = 2 ^ (omega + 5).
Proof. vm_compute. reflexivity. Qed.

Lemma FV_32nd : FV 0.03125 = 2 ^ (omega - 5).
Proof. vm_compute. reflexivity. Qed.

Lemma fnn_32 : fnn 32.
Proof. exact I. Qed.

Lemma moderate_between (x : float) :
  (0 <=? x)%float = true -> (x <=? 32)%float = true -> moderate x.
Proof.
  intros H0 H32. pose proof (fnn_between x 32 fnn_32 H0 H32) as Hn.
  split; [exact Hn|]. rewrite <- FV_32. now apply leb_FV.
Qed.

Lemma pow_le (a b : Z) : 0 <= a <= b -> 2 ^ a <= 2 ^ b.
Proof. intros. apply Z.pow_le_mono_r; lia. Qed.

Lemma add_moderate (x y : float) :
  moderate x -> moderate y ->
  fnn (x + y) /\ FV (x + y) = R (FV x + FV y) 1.
Proof.
  intros [Hx Bx] [Hy By]. apply add_FV; try assumption.
  assert (2 ^ (omega + 5) + 2 ^ (omega + 5) <= 2 ^ (omega + 971)).
  { replace (2 ^ (omega + 5) + 2 ^ (omega + 5)) with (2 ^ (omega + 5 + 1)).
    - apply pow_le. unfold omega. lia.
    - rewrite (pow2_split (omega + 5) 1) by (unfold omega; lia). lia. }
  lia.
Qed.

Lemma mul_moderate (x y : float) :
  moderate x -> moderate y ->
  fnn (x * y) /\ FV (x * y) = R (FV x * FV y) (2 ^ omega).
Proof.
  intros [Hx Bx] [Hy By]. apply mul_FV; try assumption.
  pose proof (FV_nonneg x). pose proof (FV_nonneg y).
  apply Z.le_trans with (2 ^ (omega + 5) * 2 ^ (omega + 5)).
  - apply Z.mul_le_mono_nonneg; lia.
  - rewrite <- !pow2_split by (unfold omega; lia). apply pow_le. unfold omega. lia.
Qed.

Lemma div_sizeable (x y : float) :
  sizeable x -> sizeable y ->
  fnn (x / y) /\ FV (x / y) = R (FV x * 2 ^ omega) (FV y).
Proof.
  intros [[Hx Bx] Lx] [[Hy By] Ly].
  pose proof (pow2_pos (omega - 5) ltac:(unfold omega; lia)) as Hp.
  pose proof (pow2_pos omega ltac:(unfold omega; lia)) as Hpo.
  apply div_FV; try assumption; try lia.
  - left. apply Z.le_trans with (2 ^ (omega - 5) * 2 ^ 1000).
    + rewrite <- pow2_split by (unfold omega; lia).
      apply Z.le_trans with (2 ^ (omega + 5)); [exact By|].
      apply pow_le. unfold omega. lia.
    + apply Z.mul_le_mono_nonneg_r; [|exact Lx]. apply Z.lt_le_incl, pow2_pos. lia.
  - apply Z.le_trans with (2 ^ (omega + 5) * 2 ^ omega).
    + apply Z.mul_le_mono_nonneg_r; lia.
    + apply Z.le_trans with (2 ^ (omega + 971) * 2 ^ (omega - 5)).
      * rewrite <- !pow2_split by (unfold omega; lia). apply pow_le. unfold omega. lia.
      * apply Z.mul_le_mono_nonneg_l; [|exact Ly].
        apply Z.lt_le_incl, pow2_pos. unfold omega. lia.
Qed.

End Rounding.

(** ** Math.max and Math.min do not depend on the order of their arguments *)

Lemma ltb_antisym (x y : float) : (x <? y) = true -> (y <? x) = false.
Proof.
  rewrite !FloatAxioms.ltb_spec. unfold SFltb.
  rewrite (SFcompare_antisym (Prim2SF x) (Prim2SF y)).
  destruct (SFcompare (Prim2SF x) (Prim2SF y)) as [[]|]; cbn; congruence.
Qed.

Lemma eqb_sym (x y : float) : (x =? y) = (y =? x).
Proof.
  rewrite !FloatAxioms.eqb_spec. unfold SFeqb.
  rewrite (SFcompare_antisym (Prim2SF y) (Prim2SF x)).
  destruct (SFcompare (Prim2SF y) (Prim2SF x)) as [[]|]; reflexivity.
Qed.

Lemma zero_cases (x : float) (sg : bool) :
  Prim2SF x = S754_zero sg -> x = (if sg then neg_zero else zero).
Proof.
  intros H. rewrite <- (SF2Prim_Prim2SF x), H. destruct sg; reflexivity.
Qed.

Lemma eqb_true_cases (x y : float) :
  (x =? y) = true ->
  x = y \/ ((x = zero \/ x = neg_zero) /\ (y = zero \/ y = neg_zero)).
Proof.
  rewrite FloatAxioms.eqb_spec. unfold SFeqb.
  destruct (Prim2SF x) as [sx|sx| |sx mx ex] eqn:Ex,
           (Prim2SF y) as [sy|sy| |sy my ey] eqn:Ey;
    cbn; try discriminate;
    try (destruct sx; discriminate); try (destruct sy; discriminate).
  - intros _. right. apply zero_cases in Ex, Ey. destruct sx, sy; auto.
  - intros H. left. apply Prim2SF_inj. rewrite Ex, Ey.
    destruct sx, sy; try discriminate; reflexivity.
  - intros H. left. apply Prim2SF_inj. rewrite Ex, Ey.
    destruct sx, sy; try discriminate;
      destruct (Z.compare_spec ex ey) as [He|He|He]; try discriminate; subst ey;
      change (Pos.compare_cont Eq mx my) with (Pos.compare mx my) in H;
      destruct (Pos.compare_spec mx my) as [Hm|Hm|Hm]; try discriminate;
      subst my; reflexivity.
Qed.

Lemma Math_max2_comm (x y : float) : Math_max2 x y = Math_max2 y x.
Proof.
  unfold Math_max2.
  destruct (x <? y) eqn:Hxy.
  - rewrite (ltb_antisym x y Hxy). reflexivity.
  - destruct (y <? x) eqn:Hyx; [reflexivity|].
    rewrite (eqb_sym y x). destruct (x =? y) eqn:He; [|reflexivity].
    destruct (eqb_true_cases x y He) as [->|[[->| ->] [->| ->]]];
      try reflexivity; destruct (get_sign y); reflexivity.
Qed.

Lemma Math_min2_comm (x y : float) : Math_min2 x y = Math_min2 y x.
Proof.
  unfold Math_min2.
  destruct (x <? y) eqn:Hxy.
  - rewrite (ltb_antisym x y Hxy). reflexivity.
  - destruct (y <? x) eqn:Hyx; [reflexivity|].
    rewrite (eqb_sym y x). destruct (x =? y) eqn:He; [|reflexivity].
    destruct (eqb_true_cases x y He) as [->|[[->| ->] [->| ->]]];
      try reflexivity; destruct (get_sign y); reflexivity.
Qed.

Lemma getContrastRatio_comm (pow : float -> float -> float) (a b : string) :
  getContrastRatio pow a b = getContrastRatio pow b a.
Proof.
  unfold getContrastRatio.
  destruct (getLuminance_returns pow a) as [La ->].
  destruct (getLuminance_returns pow b) as [Lb ->].
  cbn [bind]. now rewrite (Math_max2_comm La Lb), (Math_min2_comm La Lb).
Qed.

(** ** Monotone arithmetic *)

Lemma FV_lower (x : float) : fnn x -> FV x = 0%Z \/ (2 ^ (omega - 1074) <= FV x)%Z.
Proof. intros Hx. apply V_lower; [exact Hx | apply Prim2SF_valid]. Qed.

Lemma R_scale (c N D : Z) :
  (0 < c)%Z -> (0 <= N)%Z -> (0 < D)%Z -> R (c * N) (c * D) = R N D.
Proof.
  intros Hc HN HD. unfold R.
  destruct (Z.eqb_spec N 0) as [->|Hn].
  - now rewrite Z.mul_0_r.
  - rewrite (proj2 (Z.eqb_neq (c * N) 0)) by (apply Z.neq_mul_0; lia).
    apply RNs_scale; lia.
Qed.

Lemma product_lower (x y : float) :
  fnn x -> fnn y ->
  (FV x * FV y = 0 \/ 2 ^ omega <= FV x * FV y)%Z.
Proof.
  intros Hx Hy.
  destruct (FV_lower x Hx) as [->|Lx]; [left; lia|].
  destruct (FV_lower y Hy) as [->|Ly]; [left; lia|].
  right.
  pose proof (pow2_pos (omega - 1074) ltac:(unfold omega; lia)) as Hp.
  apply Z.le_trans with (2 ^ (omega - 1074) * 2 ^ (omega - 1074))%Z.
  - rewrite <- pow2_split by (unfold omega; lia). apply pow_le. unfold omega. lia.
  - apply Z.mul_le_mono_nonneg; lia.
Qed.

Lemma mul_le_mono (w x x' : float) :
  moderate w -> moderate x -> moderate x' -> (FV x <= FV x')%Z ->
  fnn (w * x) /\ (FV (w * x) <= FV (w * x'))%Z.
Proof.
  intros Hw Hx Hx' Hle.
  destruct (mul_moderate w x Hw Hx) as [Hn ->].
  destruct (mul_moderate w x' Hw Hx') as [_ ->].
  split; [exact Hn|].
  pose proof (pow2_pos omega ltac:(unfold omega; lia)) as Hpo.
  pose proof (FV_nonneg w). pose proof (FV_nonneg x).
  apply R_mono; [lia | lia | apply Z.mul_nonneg_nonneg; lia | |].
  - apply product_lower; [apply Hw | apply Hx].
  - apply Z.mul_le_mono_nonneg_r; [lia|]. apply Z.mul_le_mono_nonneg_l; lia.
Qed.

Lemma add_le_mono (x x' y y' : float) :
  moderate x -> moderate x' -> moderate y -> moderate y' ->
  (FV x <= FV x')%Z -> (FV y <= FV y')%Z ->
  fnn (x + y) /\ (FV (x + y) <= FV (x' + y'))%Z.
Proof.
  intros Hx Hx' Hy Hy' Lx Ly.
  destruct (add_moderate x y Hx Hy) as [Hn ->].
  destruct (add_moderate x' y' Hx' Hy') as [_ ->].
  split; [exact Hn|].
  pose proof (FV_nonneg x). pose proof (FV_nonneg y).
  apply R_mono; lia.
Qed.

Lemma div_le_mono (x x' y y' : float) :
  sizeable x -> sizeable x' -> sizeable y -> sizeable y' ->
  (FV x <= FV x')%Z -> (FV y' <= FV y)%Z ->
  fnn (x / y) /\ (FV (x / y) <= FV (x' / y'))%Z.
Proof.
  intros Hx Hx' Hy Hy' Lx Ly.
  destruct (div_sizeable x y Hx Hy) as [Hn ->].
  destruct (div_sizeable x' y' Hx' Hy') as [_ ->].
  split; [exact Hn|].
  pose proof (pow2_pos omega ltac:(unfold omega; lia)) as Hpo.
  pose proof (pow2_pos (omega - 5) ltac:(unfold omega; lia)) as Hp5.
  destruct Hx as [[_ Bx] Sx]. destruct Hy as [[_ By] Sy]. destruct Hy' as [[_ By'] Sy'].
  apply R_mono; [lia | lia | apply Z.mul_nonneg_nonneg; lia | |].
  - right. apply Z.le_trans with (2 ^ (omega + 5))%Z; [exact By|].
    apply Z.le_trans with (2 ^ (omega - 5) * 2 ^ omega)%Z.
    + rewrite <- pow2_split by (unfold omega; lia). apply pow_le. unfold omega. lia.
    + apply Z.mul_le_mono_nonneg_r; lia.
  - apply Z.le_trans with (FV x * 2 ^ omega * FV y)%Z.
    + apply Z.mul_le_mono_nonneg_l; [|exact Ly]. apply Z.mul_nonneg_nonneg; lia.
    + apply Z.mul_le_mono_nonneg_r; [lia|]. apply Z.mul_le_mono_nonneg_r; lia.
Qed.

Lemma div_ge_one (x y : float) :
  sizeable x -> sizeable y -> (FV y <= FV x)%Z -> (FV 1 <= FV (x / y))%Z.
Proof.
  intros Hx Hy Hle.
  destruct (div_sizeable x y Hx Hy) as [_ ->].
  pose proof (pow2_pos omega ltac:(unfold omega; lia)) as Hpo.
  pose proof (pow2_pos (omega - 5) ltac:(unfold omega; lia)) as Hp5.
  destruct Hy as [[_ By] Sy].
  assert (Hone : R (FV y * 2 ^ omega) (FV y) = FV 1).
  { replace (FV y * 2 ^ omega)%Z with (FV y * 2 ^ omega)%Z by reflexivity.
    replace (FV y) with (FV y * 1)%Z at 2 by lia.
    rewrite R_scale by lia.
    unfold R. rewrite (proj2 (Z.eqb_neq (2 ^ omega) 0)) by lia.
    rewrite RNs_pow2 by (unfold omega; lia). symmetry. exact FV_1. }
  rewrite <- Hone.
  apply R_mono; [lia | lia | apply Z.mul_nonneg_nonneg; lia | |].
  - right. apply Z.le_trans with (FV y * 1)%Z; [lia|].
    apply Z.mul_le_mono_nonneg_l; lia.
  - apply Z.mul_le_mono_nonneg_r; [lia|]. apply Z.mul_le_mono_nonneg_r; lia.
Qed.

(** *** Numbers in the unit interval *)

Lemma unit_of_leb (x : float) :
  (0 <=? x) = true -> (x <=? 1) = true -> unit_range x.
Proof.
  intros H0 H1. assert (Hn : fnn x) by (apply (fnn_between x 1); [exact I | |]; assumption).
  split; [exact Hn|]. rewrite <- FV_1. apply leb_FV; [exact Hn | exact I | exact H1].
Qed.

Lemma unit_leb (x : float) :
  unit_range x -> (0 <=? x) = true /\ (x <=? 1) = true.
Proof.
  intros [Hn Hb]. split.
  - apply leb_FV; [exact I | exact Hn |]. apply FV_nonneg.
  - apply leb_FV; [exact Hn | exact I |]. now rewrite FV_1.
Qed.

Lemma unit_moderate (x : float) : unit_range x -> moderate x.
Proof.
  intros [Hn Hb]. split; [exact Hn|].
  apply Z.le_trans with (2 ^ omega)%Z; [exact Hb|]. apply pow_le. unfold omega. lia.
Qed.

Lemma moderate_const (x : float) :
  (0 <=? x) && (x <=? 32) = true -> moderate x.
Proof.
  intros H. apply andb_true_iff in H as [H0 H1]. now apply moderate_between.
Qed.

Lemma moderate_below (x u : float) :
  fnn x -> moderate u -> (FV x <= FV u)%Z -> moderate x.
Proof. intros Hn [_ Hu] Hle. split; [exact Hn | lia]. Qed.

(** The weighted sum of three numbers of the unit interval. *)
Lemma luminance_unit (r g b : float) :
  unit_range r -> unit_range g -> unit_range b ->
  unit_range (0.2126 * r + 0.7152 * g + 0.0722 * b).
Proof.
  intros Hr Hg Hb.
  assert (M1 : moderate 1) by (apply moderate_const; reflexivity).
  assert (Mw1 : moderate 0.2126) by (apply moderate_const; reflexivity).
  assert (Mw2 : moderate 0.7152) by (apply moderate_const; reflexivity).
  assert (Mw3 : moderate 0.0722) by (apply moderate_const; reflexivity).
  assert (Ms : moderate (0.2126 + 0.7152)) by (apply moderate_const; reflexivity).
  destruct (mul_le_mono 0.2126 r 1 Mw1 (unit_moderate r Hr) M1
              ltac:(rewrite FV_1; apply Hr)) as [N1 L1].
  destruct (mul_le_mono 0.7152 g 1 Mw2 (unit_moderate g Hg) M1
              ltac:(rewrite FV_1; apply Hg)) as [N2 L2].
  destruct (mul_le_mono 0.0722 b 1 Mw3 (unit_moderate b Hb) M1
              ltac:(rewrite FV_1; apply Hb)) as [N3 L3].
  change (0.2126 * 1) with 0.2126 in L1.
  change (0.7152 * 1) with 0.7152 in L2.
  change (0.0722 * 1) with 0.0722 in L3.
  pose proof (moderate_below _ _ N1 Mw1 L1) as T1.
  pose proof (moderate_below _ _ N2 Mw2 L2) as T2.
  pose proof (moderate_below _ _ N3 Mw3 L3) as T3.
  destruct (add_le_mono _ _ _ _ T1 Mw1 T2 Mw2 L1 L2) as [N12 L12].
  pose proof (moderate_below _ _ N12 Ms L12) as T12.
  destruct (add_le_mono _ _ _ _ T12 Ms T3 Mw3 L12 L3) as [N L].
  split; [exact N|].
  change (0.2126 + 0.7152 + 0.0722) with 1 in L. now rewrite FV_1 in L.
Qed.

Lemma extremes_unit (x y : float) :
  unit_range x -> unit_range y ->
  unit_range (Math_max2 x y) /\ unit_range (Math_min2 x y)
  /\ (FV (Math_min2 x y) <= FV (Math_max2 x y))%Z.
Proof.
  intros Hx Hy. pose proof (proj1 Hx) as Nx. pose proof (proj1 Hy) as Ny.
  unfold Math_max2, Math_min2.
  destruct (x <? y) eqn:Hxy.
  - apply (ltb_FV x y Nx Ny) in Hxy. repeat split; try apply Hx; try apply Hy. lia.
  - destruct (y <? x) eqn:Hyx.
    + apply (ltb_FV y x Ny Nx) in Hyx. repeat split; try apply Hx; try apply Hy. lia.
    + assert (Heq : FV x = FV y).
      { destruct (Z.lt_trichotomy (FV x) (FV y)) as [H|[H|H]]; [|exact H|].
        - apply (ltb_FV x y Nx Ny) in H. congruence.
        - apply (ltb_FV y x Ny Nx) in H. congruence. }
      assert (He : (x =? y) = true).
      { rewrite FloatAxioms.eqb_spec. unfold SFeqb. rewrite (compare_FV x y Nx Ny).
        now rewrite (proj2 (Z.compare_eq_iff _ _) Heq). }
      rewrite He. destruct (get_sign x); repeat split;
        try apply Hx; try apply Hy; lia.
Qed.

(** The ratio of two luminances of the unit interval. *)
Lemma ratio_range (L1 L2 : float) :
  unit_range L1 -> unit_range L2 ->
  let r := (Math_max2 L1 L2 + 0.05) / (Math_min2 L1 L2 + 0.05) in
  (1 <=? r) = true /\ (r <=? 21) = true.
Proof.
  intros H1 H2 r.
  destruct (extremes_unit L1 L2 H1 H2) as (Hmax & Hmin & Hle).
  set (hi := Math_max2 L1 L2) in *. set (lo := Math_min2 L1 L2) in *.
  assert (M0 : moderate 0) by (apply moderate_const; reflexivity).
  assert (M1 : moderate 1) by (apply moderate_const; reflexivity).
  assert (Mc : moderate 0.05) by (apply moderate_const; reflexivity).
  assert (Mt : moderate (1 + 0.05)) by (apply moderate_const; reflexivity).
  assert (Lc : (2 ^ (omega - 5) <= FV 0.05)%Z).
  { rewrite <- FV_32nd. apply leb_FV; [exact I | exact I | reflexivity]. }
  pose proof (unit_moderate hi Hmax) as Mhi.
  pose proof (unit_moderate lo Hmin) as Mlo.
  destruct (add_le_mono lo hi 0.05 0.05 Mlo Mhi Mc Mc Hle ltac:(lia)) as [NB LBA].
  destruct (add_le_mono 0 lo 0.05 0.05 M0 Mlo Mc Mc (FV_nonneg lo) ltac:(lia))
    as [_ LcB].
  change (0 + 0.05) with 0.05 in LcB.
  destruct (add_le_mono hi 1 0.05 0.05 Mhi M1 Mc Mc
              ltac:(rewrite FV_1; apply Hmax) ltac:(lia)) as [NA LAt].
  assert (SB : sizeable (lo + 0.05)).
  { split; [apply (moderate_below _ (1 + 0.05)); [exact NB | exact Mt | lia] | lia]. }
  assert (SA : sizeable (hi + 0.05)).
  { split; [apply (moderate_below _ (1 + 0.05)); [exact NA | exact Mt | lia] | lia]. }
  assert (Sc : sizeable 0.05) by (split; [exact Mc | exact Lc]).
  assert (St : sizeable (1 + 0.05)).
  { split; [exact Mt|]. lia. }
  destruct (div_le_mono _ _ _ _ SA St SB Sc LAt LcB) as [Nr Lr].
  pose proof (div_ge_one _ _ SA SB LBA) as Lone.
  change ((1 + 0.05) / 0.05) with 21 in Lr.
  split.
  - apply leb_FV; [exact I | exact Nr | exact Lone].
  - apply leb_FV; [exact Nr | exact I | exact Lr].
Qed.

(** ** The contrast ratio of two valid colours *)

Lemma all_linear : forallb linear_check bytes = true.
Proof. vm_compute. reflexivity. Qed.

Section ContrastRange.

Variable Math_pow : float -> float -> float.
Hypothesis pow_unit : forallb (gamma_check Math_pow) bytes = true.

Lemma linearChannel_unit (c1 c2 : ascii) :
  hex_class c1 = true -> hex_class c2 = true ->
  unit_range (linearChannel Math_pow (pair_of c1 c2)).
Proof.
  intros H1 H2. pose proof (parseInt16_pair c1 c2 H1 H2) as Hin.
  pose proof (forallb_In _ _ pow_unit _ Hin) as Hg.
  pose proof (forallb_In _ _ all_linear _ Hin) as Hl.
  unfold linearChannel. revert Hg Hl.
  generalize (parseInt16 (pair_of c1 c2)). intros v.
  unfold gamma_check, linear_check. cbv zeta.
  destruct (v / 255 <=? 0.03928); cbn [negb orb]; intros Hg Hl.
  - apply andb_true_iff in Hl as [A B]. now apply unit_of_leb.
  - apply andb_true_iff in Hg as [A B]. now apply unit_of_leb.
Qed.

Lemma getLuminance_unit (hex : string) :
  isValidHex hex = true ->
  exists L, getLuminance Math_pow hex = Returns L /\ unit_range L.
Proof.
  intros Hv. apply isValidHex_exec in Hv as (g1 & g2 & g3 & He).
  destruct (exec_inv hex g1 g2 g3 He)
    as (c1 & c2 & c3 & c4 & c5 & c6 & _ & -> & -> & -> & K1 & K2 & K3 & K4 & K5 & K6).
  unfold getLuminance. rewrite He. eexists. split; [reflexivity|].
  cbv zeta. apply luminance_unit; now apply linearChannel_unit.
Qed.

End ContrastRange.

(** C5. For every pair of valid hex strings the contrast ratio is the same
    in both orders, the two results compare equal as numbers, and the ratio
    lies in the closed interval [1, 21]; [Math.pow], which the language
    leaves to the implementation, is assumed to return a number of [0, 1]
    on the gamma branch of each of the 256 channel values. *)
Theorem getContrastRatio_symmetric_range
    (Math_pow : float -> float -> float) (A B : string) :
  forallb (gamma_check Math_pow) bytes = true ->
  isValidHex A = true -> isValidHex B = true ->
  exists rAB rBA,
    getContrastRatio Math_pow A B = Returns rAB
    /\ getContrastRatio Math_pow B A = Returns rBA
    /\ rAB = rBA /\ (rAB =? rBA) = true
    /\ (1 <=? rAB) = true /\ (rAB <=? 21) = true.
Proof.
  intros Hp HA HB.
  destruct (getLuminance_unit Math_pow Hp A HA) as (L1 & E1 & U1).
  destruct (getLuminance_unit Math_pow Hp B HB) as (L2 & E2 & U2).
  destruct (ratio_range L1 L2 U1 U2) as [Lo Hi].
  assert (E : getContrastRatio Math_pow A B
              = Returns ((Math_max2 L1 L2 + 0.05) / (Math_min2 L1 L2 + 0.05))).
  { unfold getContrastRatio. rewrite E1, E2. reflexivity. }
  eexists _, _. split; [exact E|]. split.
  { rewrite getContrastRatio_comm. exact E. }
  split; [reflexivity|]. split; [|split; assumption].
  exact (proj2 (leb_true_not_nan _ _ Lo)).
Qed.

Lemma getContrastRatio_symmetric_range_witness :
  forallb (gamma_check pow_ref) bytes = true
  /\ isValidHex "#6366f1" = true /\ isValidHex "#FFFFFF" = true
  /\ exists rAB rBA,
       getContrastRatio pow_ref "#6366f1" "#FFFFFF" = Returns rAB
       /\ getContrastRatio pow_ref "#FFFFFF" "#6366f1" = Returns rBA
       /\ rAB = rBA /\ (rAB =? rBA) = true
       /\ (1 <=? rAB) = true /\ (rAB <=? 21) = true.
Proof.
  split; [vm_compute; reflexivity|]. split; [reflexivity|]. split; [reflexivity|].
  apply (getContrastRatio_symmetric_range pow_ref "#6366f1" "#FFFFFF");
    vm_compute; reflexivity.
Defined.

(** * Further properties of the colour functions *)

(** ** Errors and components of hexToHSL *)


(** X2. For every valid hex input the saturation and the lightness returned
    by [hexToHSL] are whole numbers from 0 to 100. *)
Theorem hexToHSL_percents (hex : string) :
  isValidHex hex = true ->
  exists x ks kl,
    hexToHSL hex = Returns x
    /\ (ks <= 100)%nat /\ s x = natFloat ks
    /\ (kl <= 100)%nat /\ l x = natFloat kl.
Proof.
  intros Hv. destruct (hexToHSL_valid hex Hv) as (r & g & b & Hr & Hg & Hb & ->).
  destruct (rgbToHSL_range r g b Hr Hg Hb) as (_ & Hs & Hl).
  rewrite percents_eq in Hs, Hl.
  destruct (floatsUpTo_inv _ _ Hs) as (ks & Ks & Es).
  destruct (floatsUpTo_inv _ _ Hl) as (kl & Kl & El).
  exists (rgbToHSL r g b), ks, kl. auto.
Qed.

Lemma hexToHSL_percents_witness :
  isValidHex "#6366f1" = true
  /\ exists x ks kl,
       hexToHSL "#6366f1" = Returns x
       /\ (ks <= 100)%nat /\ s x = natFloat ks
       /\ (kl <= 100)%nat /\ l x = natFloat kl.
Proof.
  split; [reflexivity | apply hexToHSL_percents; reflexivity].
Defined.

(** ** The leading hash *)

Lemma hex_class_not_hash (c : ascii) : hex_class c = true -> c <> "#"%char.
Proof. intros H ->. discriminate H. Qed.

Lemma exec_strip_hash (hex : string) :
  isValidHex hex = true ->
  HEX_REGEX_exec (strip_hash hex) = HEX_REGEX_exec hex.
Proof.
  intros Hv. apply isValidHex_exec in Hv as (g1 & g2 & g3 & He).
  destruct (exec_inv hex g1 g2 g3 He)
    as (c1 & c2 & c3 & c4 & c5 & c6 & Hs & _ & _ & _ & K1 & _).
  unfold HEX_REGEX_exec at 1 2.
  replace (strip_hash (strip_hash hex)) with (strip_hash hex); [reflexivity|].
  rewrite Hs. unfold six.
  destruct (strip_hash_cases (six c1 c2 c3 c4 c5 c6)) as [[rest [Hv _]]|[Hv _]].
  - unfold six in Hv. injection Hv as -> _. discriminate K1.
  - symmetry. exact Hv.
Qed.

(** X3. The leading hash is optional: a valid colour and the same colour
    without its hash are both valid and give the same result in
    [hexToHSL], [generateShadesFromPrimary] and [getLuminance]. *)
Theorem leading_hash_optional
    (Math_pow : float -> float -> float) (hex : string) :
  isValidHex hex = true ->
  isValidHex (strip_hash hex) = true
  /\ hexToHSL (strip_hash hex) = hexToHSL hex
  /\ generateShadesFromPrimary (strip_hash hex) = generateShadesFromPrimary hex
  /\ getLuminance Math_pow (strip_hash hex) = getLuminance Math_pow hex.
Proof.
  intros Hv. pose proof (exec_strip_hash hex Hv) as He.
  assert (Hx : hexToHSL (strip_hash hex) = hexToHSL hex).
  { destruct (hexToHSL_valid hex Hv) as (r & g & b & _ & _ & _ & Hr).
    unfold hexToHSL in *. rewrite He.
    destruct (HEX_REGEX_exec hex) as [[[g1 g2] g3]|]; [reflexivity|discriminate]. }
  split; [|split; [exact Hx|split]].
  - unfold isValidHex, HEX_REGEX_test in *. now rewrite He.
  - unfold generateShadesFromPrimary. now rewrite Hx.
  - unfold getLuminance. now rewrite He.
Qed.

Lemma leading_hash_optional_witness :
  isValidHex "#6366f1" = true
  /\ hexToHSL "6366f1" = hexToHSL "#6366f1"
  /\ generateShadesFromPrimary "6366f1" = generateShadesFromPrimary "#6366f1".
Proof.
  split; [reflexivity|].
  destruct (leading_hash_optional pow_ref "#6366f1" eq_refl) as (_ & Hx & Hg & _).
  split; [exact Hx | exact Hg].
Defined.

(** ** Greys *)

Lemma all_grey_hsl : forallb grey_hsl_check bytes = true.
Proof. vm_compute. reflexivity. Qed.

Lemma channelsOf_inv (hex : string) (r g b : float) :
  channelsOf hex = Some (r, g, b) ->
  In r bytes /\ In g bytes /\ In b bytes
  /\ hexToHSL hex = Returns (rgbToHSL (r / 255) (g / 255) (b / 255)).
Proof.
  unfold channelsOf, hexToHSL.
  destruct (HEX_REGEX_exec hex) as [[[g1 g2] g3]|] eqn:He; [|discriminate].
  intros Hc. injection Hc as <- <- <-.
  destruct (exec_inv hex g1 g2 g3 He)
    as (c1 & c2 & c3 & c4 & c5 & c6 & _ & -> & -> & -> & K1 & K2 & K3 & K4 & K5 & K6).
  repeat split; try (now apply parseInt16_pair).
Qed.

Lemma grey_hsl (v : float) :
  In v bytes ->
  rgbToHSL (v / 255) (v / 255) (v / 255)
  = {| h := 0; s := 0; l := Math_round (v / 255 * 100) |}.
Proof.
  intros Hv. pose proof (forallb_In _ _ all_grey_hsl v Hv) as Hc.
  unfold grey_hsl_check in Hc. cbv zeta in Hc.
  destruct (rgbToHSL (v / 255) (v / 255) (v / 255)) as [hh ss ll].
  cbn [h s l] in Hc.
  apply andb_true_iff in Hc as [Hc Hl]. apply andb_true_iff in Hc as [Hh Hs].
  apply FloatAxioms.Leibniz.eqb_spec in Hh, Hs, Hl. now subst.
Qed.

(** X4. A grey, a colour whose three channels are the same byte [v], has
    hue 0, saturation 0 and lightness [round (v / 255 * 100)]; its hue and
    saturation carry no information, so every grey primary gives the same
    five shades. *)
Theorem grey_primary (hex : string) (v : float) :
  channelsOf hex = Some (v, v, v) ->
  hexToHSL hex = Returns {| h := 0; s := 0; l := Math_round (v / 255 * 100) |}
  /\ generateShadesFromPrimary hex
     = Returns ["#ebebeb"; "#c7c7c7"; "#a3a3a3"; "#808080"; "#5c5c5c"].
Proof.
  intros Hc. destruct (channelsOf_inv hex v v v Hc) as (Hv & _ & _ & Hx).
  rewrite (grey_hsl v Hv) in Hx. split; [exact Hx|].
  unfold generateShadesFromPrimary. rewrite Hx. cbn [bind h s].
  vm_compute. reflexivity.
Qed.

Lemma grey_primary_witness :
  channelsOf "#777777" = Some (119, 119, 119)
  /\ hexToHSL "#777777" = Returns {| h := 0; s := 0; l := 47 |}
  /\ generateShadesFromPrimary "#777777"
     = Returns ["#ebebeb"; "#c7c7c7"; "#a3a3a3"; "#808080"; "#5c5c5c"].
Proof.
  assert (Hc : channelsOf "#777777" = Some (119, 119, 119))
    by (vm_compute; reflexivity).
  split; [exact Hc|].
  destruct (grey_primary "#777777" 119 Hc) as [Hx Hg].
  split; [|exact Hg]. rewrite Hx. vm_compute. reflexivity.
Defined.

(** ** Edges of hslToHex *)

(** X5. [hslToHex] reads the hue 360, which [hexToHSL] can return, as the
    hue 0, whatever the saturation and the lightness. *)
Theorem hslToHex_hue_360 (s l : float) : hslToHex 360 s l = hslToHex 0 s l.
Proof.
  rewrite !hslToHex_hex2.
  replace (sectorWeight 360 0) with (sectorWeight 0 0) by (vm_compute; reflexivity).
  replace (sectorWeight 360 8) with (sectorWeight 0 8) by (vm_compute; reflexivity).
  replace (sectorWeight 360 4) with (sectorWeight 0 4) by (vm_compute; reflexivity).
  reflexivity.
Qed.

Lemma all_edges : all_pairs edge_check percents weights = true.
Proof. vm_compute. reflexivity. Qed.

Lemma all_grey_channels : all_pairs grey_channel_check percents weights = true.
Proof. vm_compute. reflexivity. Qed.

(** X6. For a whole hue in 0..360 and whole percents: lightness 0 gives
    black and lightness 100 gives white whatever the hue and the
    saturation, and saturation 0 gives the grey whose three channels are
    [round (255 * l / 100)] whatever the hue. *)
Theorem hslToHex_edges (hd sp lp : nat) :
  (hd <= 360)%nat -> (sp <= 100)%nat -> (lp <= 100)%nat ->
  let hh := natFloat hd in
  let ss := natFloat sp in
  let ll := natFloat lp in
  hslToHex hh ss 0 = "#000000"
  /\ hslToHex hh ss 100 = "#ffffff"
  /\ hslToHex hh 0 ll
     = "#" ++ hex2 (Math_round (255 * (ll / 100)))
           ++ hex2 (Math_round (255 * (ll / 100)))
           ++ hex2 (Math_round (255 * (ll / 100))).
Proof.
  intros Hhd Hsp Hlp hh ss ll.
  assert (Hh : In hh degrees) by (rewrite degrees_eq; now apply natFloat_In).
  assert (Hs : In ss percents) by (rewrite percents_eq; now apply natFloat_In).
  assert (Hl : In ll percents) by (rewrite percents_eq; now apply natFloat_In).
  assert (He : forall n, In n [0; 8; 4] ->
            channelValue (ss / 100) (0 / 100) (sectorWeight hh n) = 0
            /\ channelValue (ss / 100) (100 / 100) (sectorWeight hh n) = 255
            /\ channelValue (0 / 100) (ll / 100) (sectorWeight hh n)
               = Math_round (255 * (ll / 100))).
  { intros n Hn. pose proof (sectorWeight_In hh n Hh Hn) as Hw.
    pose proof (all_pairs_spec _ _ _ all_edges _ _ Hs Hw) as H1.
    pose proof (all_pairs_spec _ _ _ all_grey_channels _ _ Hl Hw) as H2.
    unfold edge_check in H1. unfold grey_channel_check in H2.
    apply andb_true_iff in H1 as [H0 H100].
    apply FloatAxioms.Leibniz.eqb_spec in H0, H100, H2. auto. }
  destruct (He 0) as (A0 & B0 & C0); [cbn [In]; tauto|].
  destruct (He 8) as (A8 & B8 & C8); [cbn [In]; tauto|].
  destruct (He 4) as (A4 & B4 & C4); [cbn [In]; tauto|].
  rewrite !hslToHex_hex2, A0, A8, A4, B0, B8, B4, C0, C8, C4.
  repeat split; vm_compute; reflexivity.
Qed.

Lemma hslToHex_edges_witness :
  (239 <= 360)%nat /\ (84 <= 100)%nat /\ (67 <= 100)%nat
  /\ hslToHex (natFloat 239) (natFloat 84) 0 = "#000000"
  /\ hslToHex (natFloat 239) (natFloat 84) 100 = "#ffffff"
  /\ hslToHex (natFloat 239) 0 (natFloat 67) = "#ababab".
Proof.
  split; [lia|]. split; [lia|]. split; [lia|].
  pose proof (hslToHex_edges 239 84 67) as H. cbv zeta in H.
  destruct H as (H0 & H100 & Hg); [lia | lia | lia |].
  split; [exact H0|]. split; [exact H100|]. rewrite Hg. vm_compute. reflexivity.
Defined.

(** ** The five shades *)

Lemma levels_percents (ll : float) : In ll lightnessLevels -> In ll percents.
Proof.
  intros H. apply mem_float_In.
  unfold lightnessLevels in H. cbn [In] in H.
  destruct H as [<-|[<-|[<-|[<-|[<-|[]]]]]]; vm_compute; reflexivity.
Qed.

Lemma shade_bytes (hh ss ll : float) :
  In hh degrees -> In ss percents -> In ll percents ->
  let e := (hh, (sectorWeight hh 0, sectorWeight hh 8, sectorWeight hh 4)) in
  let '(r, g, b) := shadeChannels e ss ll in
  In r bytes /\ In g bytes /\ In b bytes
  /\ hslToHex hh ss ll = "#" ++ hex2 r ++ hex2 g ++ hex2 b.
Proof.
  intros Hh Hs Hl. cbv beta iota zeta delta [shadeChannels].
  split; [|split; [|split]].
  - apply (channel_checked hh ss ll 0); try assumption; cbn [In]; tauto.
  - apply (channel_checked hh ss ll 8); try assumption; cbn [In]; tauto.
  - apply (channel_checked hh ss ll 4); try assumption; cbn [In]; tauto.
  - apply hslToHex_hex2.
Qed.

Lemma channelsOf_shade (hh ss ll : float) :
  In hh degrees -> In ss percents -> In ll percents ->
  channelsOf (hslToHex hh ss ll)
  = Some (shadeChannels
            (hh, (sectorWeight hh 0, sectorWeight hh 8, sectorWeight hh 4)) ss ll).
Proof.
  intros Hh Hs Hl. pose proof (shade_bytes hh ss ll Hh Hs Hl) as H.
  cbv beta iota zeta delta [shadeChannels] in *.
  destruct H as (Hr & Hg & Hb & ->).
  unfold channelsOf. rewrite (exec_hex2 _ _ _ Hr Hg Hb).
  now rewrite !parseInt16_hex2.
Qed.

Lemma shade_hash_hex (hh ss ll : float) :
  In hh degrees -> In ss percents -> In ll percents ->
  hash_hex (hslToHex hh ss ll) = true.
Proof.
  intros Hh Hs Hl. pose proof (shade_bytes hh ss ll Hh Hs Hl) as H.
  cbv beta iota zeta delta [shadeChannels] in H.
  destruct H as (Hr & Hg & Hb & ->).
  change (hash_hex (String "#" (hex2 (channelValue (ss / 100) (ll / 100) (sectorWeight hh 0))
            ++ hex2 (channelValue (ss / 100) (ll / 100) (sectorWeight hh 8))
            ++ hex2 (channelValue (ss / 100) (ll / 100) (sectorWeight hh 4)))) = true).
  cbn [hash_hex]. apply isValidHex_exec. eexists _, _, _.
  exact (exec_hex2 _ _ _ Hr Hg Hb).
Qed.

(** The shades of a valid primary, spelled out. *)
Lemma generateShades_valid (primaryHex : string) :
  isValidHex primaryHex = true ->
  exists x,
    hexToHSL primaryHex = Returns x
    /\ In (h x) degrees /\ In (s x) percents
    /\ generateShadesFromPrimary primaryHex
       = Returns [hslToHex (h x) (s x) 92; hslToHex (h x) (s x) 78;
                  hslToHex (h x) (s x) 64; hslToHex (h x) (s x) 50;
                  hslToHex (h x) (s x) 36].
Proof.
  intros Hv. destruct (hexToHSL_valid _ Hv) as (r & g & b & Hr & Hg & Hb & Hx).
  destruct (rgbToHSL_range r g b Hr Hg Hb) as (Hh & Hs & _).
  exists (rgbToHSL r g b). repeat split; try assumption.
  unfold generateShadesFromPrimary. rewrite Hx. reflexivity.
Qed.

Lemma float_neq (x y : float) : Prim2SF x <> Prim2SF y -> x <> y.
Proof. intros H ->. now apply H. Qed.

Lemma levels_NoDup : NoDup lightnessLevels.
Proof.
  unfold lightnessLevels.
  repeat (apply NoDup_cons;
          [cbn [In]; intros H;
           repeat (destruct H as [H|H];
                   [revert H; apply float_neq; vm_compute; discriminate|]);
           exact H|]).
  apply NoDup_nil.
Qed.

(** X7. The five shades of a valid primary are pairwise different. *)
Theorem generateShades_distinct (primaryHex : string) :
  isValidHex primaryHex = true ->
  exists shades,
    generateShadesFromPrimary primaryHex = Returns shades /\ NoDup shades.
Proof.
  intros Hv. destruct (generateShades_valid _ Hv) as (x & _ & Hh & Hs & Hg).
  eexists. split; [exact Hg|].
  apply (NoDup_map_inv (fun c => match hexToHSL c with
                                 | Returns y => l y
                                 | Throws _ => nan
                                 end)).
  cbn [map].
  assert (Hl : forall ll, In ll lightnessLevels ->
            match hexToHSL (hslToHex (h x) (s x) ll) with
            | Returns y => l y
            | Throws _ => nan
            end = ll).
  { intros ll Hin. destruct (shade_lightness _ _ ll Hh Hs Hin) as (y & -> & Hy).
    exact Hy. }
  unfold lightnessLevels in Hl.
  rewrite !Hl by (cbn [In]; tauto). exact levels_NoDup.
Qed.

Lemma generateShades_distinct_witness :
  isValidHex "#808080" = true
  /\ exists shades,
       generateShadesFromPrimary "#808080" = Returns shades /\ NoDup shades.
Proof.
  split; [reflexivity | apply generateShades_distinct; reflexivity].
Defined.

Lemma all_darker : all_pairs darker_check hueWeights percents = true.
Proof. vm_compute. reflexivity. Qed.

(** X8. The shades run from light to dark channel by channel: no channel
    of a shade is larger than the same channel of the shade before it. *)
Theorem generateShades_darken (primaryHex : string) :
  isValidHex primaryHex = true ->
  exists c0 c1 c2 c3 c4,
    generateShadesFromPrimary primaryHex = Returns [c0; c1; c2; c3; c4]
    /\ not_lighter c0 c1 = true /\ not_lighter c1 c2 = true
    /\ not_lighter c2 c3 = true /\ not_lighter c3 c4 = true.
Proof.
  intros Hv. destruct (generateShades_valid _ Hv) as (x & _ & Hh & Hs & Hg).
  eexists _, _, _, _, _. split; [exact Hg|].
  pose proof (all_pairs_spec _ _ _ all_darker _ _ (hueWeights_In _ Hh) Hs) as Hd.
  unfold darker_check, lightnessLevels in Hd. cbn [map descending] in Hd.
  apply andb_true_iff in Hd as [D1 Hd]. apply andb_true_iff in Hd as [D2 Hd].
  apply andb_true_iff in Hd as [D3 Hd]. apply andb_true_iff in Hd as [D4 _].
  unfold not_lighter.
  rewrite !channelsOf_shade
    by (try assumption; apply levels_percents; unfold lightnessLevels; cbn [In]; tauto).
  auto.
Qed.

Lemma generateShades_darken_witness :
  isValidHex "#6366f1" = true
  /\ exists c0 c1 c2 c3 c4,
       generateShadesFromPrimary "#6366f1" = Returns [c0; c1; c2; c3; c4]
       /\ not_lighter c0 c1 = true /\ not_lighter c1 c2 = true
       /\ not_lighter c2 c3 = true /\ not_lighter c3 c4 = true.
Proof.
  split; [reflexivity | apply generateShades_darken; reflexivity].
Defined.

Lemma all_saturations :
  all_triples saturation_check hueWeights percents lightnessLevels = true.
Proof. vm_compute. reflexivity. Qed.

Lemma shade_saturation (hh ss ll : float) :
  In hh degrees -> In ss percents -> In ll lightnessLevels ->
  exists y, hexToHSL (hslToHex hh ss ll) = Returns y
            /\ (abs (s y - ss) <=? 2) = true.
Proof.
  intros Hh Hs Hl.
  pose proof (all_triples_spec _ _ _ _ all_saturations _ _ _
                (hueWeights_In hh Hh) Hs Hl) as Hc.
  pose proof (shade_bytes hh ss ll Hh Hs (levels_percents ll Hl)) as Hb.
  unfold saturation_check in Hc.
  cbv beta iota zeta delta [shadeChannels] in Hb, Hc.
  destruct Hb as (Hr & Hg & Hb & ->).
  rewrite (hexToHSL_hex2 _ _ _ Hr Hg Hb).
  eexists. split; [reflexivity | exact Hc].
Qed.

(** X9. The saturation read back from a shade by [hexToHSL] is within 2
    of the saturation of the primary (the channels of a shade are rounded
    to bytes, so it is not always the same). *)
Theorem generateShades_saturation (primaryHex : string) :
  isValidHex primaryHex = true ->
  exists x shades,
    hexToHSL primaryHex = Returns x
    /\ generateShadesFromPrimary primaryHex = Returns shades
    /\ Forall (fun shade =>
                 exists y, hexToHSL shade = Returns y
                           /\ (abs (s y - s x) <=? 2) = true) shades.
Proof.
  intros Hv. destruct (generateShades_valid _ Hv) as (x & Hx & Hh & Hs & Hg).
  exists x. eexists. split; [exact Hx|]. split; [exact Hg|].
  repeat (apply Forall_cons;
          [apply shade_saturation; try assumption;
           unfold lightnessLevels; cbn [In]; tauto|]).
  apply Forall_nil.
Qed.

Lemma generateShades_saturation_witness :
  isValidHex "#6366f1" = true
  /\ exists x shades,
       hexToHSL "#6366f1" = Returns x
       /\ generateShadesFromPrimary "#6366f1" = Returns shades
       /\ Forall (fun shade =>
                    exists y, hexToHSL shade = Returns y
                              /\ (abs (s y - s x) <=? 2) = true) shades.
Proof.
  split; [reflexivity | apply generateShades_saturation; reflexivity].
Defined.

(** ** Luminance and contrast of any string *)

Lemma unit_zero : unit_range 0.
Proof.
  split; [exact I|]. change (FV 0) with 0%Z.
  pose proof (pow2_pos omega ltac:(unfold omega; lia)). lia.
Qed.

Lemma getLuminance_unit_any (Math_pow : float -> float -> float) (hex : string) :
  forallb (gamma_check Math_pow) bytes = true ->
  exists L, getLuminance Math_pow hex = Returns L /\ unit_range L.
Proof.
  intros Hp. destruct (isValidHex hex) eqn:Hv.
  - now apply getLuminance_unit.
  - exists 0. split; [now apply getLuminance_invalid | exact unit_zero].
Qed.

(** X10. The relative luminance of every string, valid colour or not, is a
    number between 0 and 1, when [Math.pow] stays in [0, 1] on the gamma
    branch of the 256 channel values. *)
Theorem getLuminance_range (Math_pow : float -> float -> float) (hex : string) :
  forallb (gamma_check Math_pow) bytes = true ->
  exists L, getLuminance Math_pow hex = Returns L
            /\ (0 <=? L) = true /\ (L <=? 1) = true.
Proof.
  intros Hp. destruct (getLuminance_unit_any Math_pow hex Hp) as (L & HL & HU).
  exists L. split; [exact HL | now apply unit_leb].
Qed.

Lemma getLuminance_range_witness :
  forallb (gamma_check pow_ref) bytes = true
  /\ exists L, getLuminance pow_ref "#6366f1" = Returns L
               /\ (0 <=? L) = true /\ (L <=? 1) = true.
Proof.
  split; [vm_compute; reflexivity|].
  apply (getLuminance_range pow_ref "#6366f1"). vm_compute. reflexivity.
Defined.

(** Two numbers that are not negative and have the same value, not zero,
    are the same number. *)
Lemma FV_inj (x y : float) :
  fnn x -> fnn y -> FV x = FV y -> FV x <> 0%Z -> x = y.
Proof.
  intros Hx Hy He Hnz.
  assert (Heq : (x =? y) = true).
  { rewrite FloatAxioms.eqb_spec. unfold SFeqb. rewrite (compare_FV x y Hx Hy).
    now rewrite (proj2 (Z.compare_eq_iff _ _) He). }
  destruct (eqb_true_cases x y Heq) as [H|[[H|H] _]]; [exact H| |];
    subst x; exfalso; apply Hnz; reflexivity.
Qed.

Lemma offset_sizeable (L : float) : unit_range L -> sizeable (L + 0.05).
Proof.
  intros HL.
  assert (M0 : moderate 0) by (apply moderate_const; reflexivity).
  assert (M1 : moderate 1) by (apply moderate_const; reflexivity).
  assert (Mc : moderate 0.05) by (apply moderate_const; reflexivity).
  assert (Mt : moderate (1 + 0.05)) by (apply moderate_const; reflexivity).
  assert (Lc : (2 ^ (omega - 5) <= FV 0.05)%Z).
  { rewrite <- FV_32nd. apply leb_FV; [exact I | exact I | reflexivity]. }
  pose proof (unit_moderate L HL) as ML.
  destruct (add_le_mono 0 L 0.05 0.05 M0 ML Mc Mc (FV_nonneg L) ltac:(lia))
    as [_ Lo].
  change (0 + 0.05) with 0.05 in Lo.
  destruct (add_le_mono L 1 0.05 0.05 ML M1 Mc Mc
              ltac:(rewrite FV_1; apply HL) ltac:(lia)) as [Nn Hi].
  split; [apply (moderate_below _ (1 + 0.05)); [exact Nn | exact Mt | lia] | lia].
Qed.

Lemma div_self (x : float) : sizeable x -> x / x = 1.
Proof.
  intros Hx. destruct (div_sizeable x x Hx Hx) as [Hn Hv].
  pose proof (pow2_pos omega ltac:(unfold omega; lia)) as Hpo.
  pose proof (pow2_pos (omega - 5) ltac:(unfold omega; lia)) as Hp5.
  destruct Hx as [[_ Bx] Sx].
  assert (Hone : FV (x / x) = FV 1).
  { rewrite Hv.
    replace (FV x) with (FV x * 1)%Z at 2 by lia.
    rewrite R_scale by lia.
    unfold R. rewrite (proj2 (Z.eqb_neq (2 ^ omega) 0)) by lia.
    rewrite RNs_pow2 by (unfold omega; lia). symmetry. exact FV_1. }
  apply FV_inj; [exact Hn | exact I | exact Hone |].
  rewrite Hone, FV_1. lia.
Qed.

Lemma extremes_self (x : float) :
  fnn x -> Math_max2 x x = x /\ Math_min2 x x = x.
Proof.
  intros Hx. unfold Math_max2, Math_min2.
  assert (Hlt : (x <? x) = false).
  { destruct (x <? x) eqn:H; [|reflexivity].
    apply (ltb_FV x x Hx Hx) in H. lia. }
  assert (Heq : (x =? x) = true).
  { rewrite FloatAxioms.eqb_spec. unfold SFeqb.
    now rewrite (compare_FV x x Hx Hx), Z.compare_refl. }
  rewrite Hlt, Heq. destruct (get_sign x); split; reflexivity.
Qed.

(** X11. The contrast ratio of a string with itself is exactly 1, for a
    valid colour and for any other string. *)
Theorem getContrastRatio_self (Math_pow : float -> float -> float) (hex : string) :
  forallb (gamma_check Math_pow) bytes = true ->
  getContrastRatio Math_pow hex hex = Returns 1.
Proof.
  intros Hp. destruct (getLuminance_unit_any Math_pow hex Hp) as (L & HL & HU).
  unfold getContrastRatio. rewrite HL. cbn [bind].
  destruct (extremes_self L (proj1 HU)) as [-> ->].
  now rewrite (div_self _ (offset_sizeable L HU)).
Qed.

Lemma getContrastRatio_self_witness :
  forallb (gamma_check pow_ref) bytes = true
  /\ getContrastRatio pow_ref "#6366f1" "#6366f1" = Returns 1.
Proof.
  split; [vm_compute; reflexivity|].
  apply (getContrastRatio_self pow_ref "#6366f1"). vm_compute. reflexivity.
Defined.

(** A number between two numbers that are not negative is not negative. *)
Lemma fnn_bounded (x lo hi : float) :
  fnn lo -> fnn hi -> (lo <=? x) = true -> (x <=? hi) = true -> fnn x.
Proof.
  unfold fnn. rewrite !FloatAxioms.leb_spec. unfold SFleb.
  destruct (Prim2SF x) as [sx|sx| |sx mx ex];
    destruct (Prim2SF lo) as [sl|sl| |sl ml el];
    destruct (Prim2SF hi) as [su|su| |su mu eu];
    cbn; try contradiction; try discriminate; try (intros; exact I);
    destruct sx; try discriminate; try (intros; exact I);
    try (destruct sl; try contradiction; try discriminate);
    try (destruct su; try contradiction; try discriminate).
Qed.

Lemma ratio_values (L1 L2 : float) :
  unit_range L1 -> unit_range L2 ->
  let r := (Math_max2 L1 L2 + 0.05) / (Math_min2 L1 L2 + 0.05) in
  fnn r /\ (FV 1 <= FV r)%Z /\ (FV r <= FV 21)%Z.
Proof.
  intros H1 H2 r. destruct (ratio_range L1 L2 H1 H2) as [Lo Hi]. fold r in Lo, Hi.
  assert (Hn : fnn r) by (apply (fnn_bounded r 1 21); try assumption; exact I).
  split; [exact Hn|]. split.
  - apply leb_FV; [exact I | exact Hn | exact Lo].
  - apply leb_FV; [exact Hn | exact I | exact Hi].
Qed.

(** X12. The threshold 4.5 never changes the answer of
    [getContrastTextColor]: for every background it returns the colour
    with the higher contrast ratio, black when the two ratios are equal. *)
Theorem getContrastTextColor_higher_ratio
    (Math_pow : float -> float -> float) (bg : string) :
  forallb (gamma_check Math_pow) bytes = true ->
  exists rb rw,
    getContrastRatio Math_pow "#010101" bg = Returns rb
    /\ getContrastRatio Math_pow "#FFFFFF" bg = Returns rw
    /\ getContrastTextColor Math_pow bg
       = Returns (if rw <=? rb then "#010101" else "#FFFFFF").
Proof.
  intros Hp.
  destruct (getLuminance_unit_any Math_pow "#010101" Hp) as (Lb & Eb & Ub).
  destruct (getLuminance_unit_any Math_pow "#FFFFFF" Hp) as (Lw & Ew & Uw).
  destruct (getLuminance_unit_any Math_pow bg Hp) as (L & E & U).
  destruct (ratio_values Lb L Ub U) as (Nb & _ & _).
  destruct (ratio_values Lw L Uw U) as (Nw & _ & _).
  set (rb := (Math_max2 Lb L + 0.05) / (Math_min2 Lb L + 0.05)) in *.
  set (rw := (Math_max2 Lw L + 0.05) / (Math_min2 Lw L + 0.05)) in *.
  assert (Hb : getContrastRatio Math_pow black bg = Returns rb).
  { unfold getContrastRatio, black. rewrite Eb, E. reflexivity. }
  assert (Hw : getContrastRatio Math_pow white bg = Returns rw).
  { unfold getContrastRatio, white. rewrite Ew, E. reflexivity. }
  exists rb, rw. split; [exact Hb|]. split; [exact Hw|].
  rewrite (getContrastTextColor_unfold Math_pow bg rb rw Hb Hw).
  assert (N45 : fnn 4.5) by exact I.
  destruct (4.5 <=? rb) eqn:Pb, (4.5 <=? rw) eqn:Pw; cbn [andb]; try reflexivity.
  - (* only black passes *)
    apply (leb_FV 4.5 rb N45 Nb) in Pb.
    assert (Hlt : (FV rw < FV 4.5)%Z).
    { destruct (Z.lt_ge_cases (FV rw) (FV 4.5)) as [H|H]; [exact H|].
      apply (leb_FV 4.5 rw N45 Nw) in H. congruence. }
    rewrite (proj2 (leb_FV rw rb Nw Nb)) by lia. reflexivity.
  - (* only white passes *)
    apply (leb_FV 4.5 rw N45 Nw) in Pw.
    assert (Hlt : (FV rb < FV 4.5)%Z).
    { destruct (Z.lt_ge_cases (FV rb) (FV 4.5)) as [H|H]; [exact H|].
      apply (leb_FV 4.5 rb N45 Nb) in H. congruence. }
    destruct (rw <=? rb) eqn:Hle; [|reflexivity].
    apply (leb_FV rw rb Nw Nb) in Hle. lia.
Qed.

Lemma getContrastTextColor_higher_ratio_witness :
  forallb (gamma_check pow_ref) bytes = true
  /\ exists rb rw,
       getContrastRatio pow_ref "#010101" "#6366f1" = Returns rb
       /\ getContrastRatio pow_ref "#FFFFFF" "#6366f1" = Returns rw
       /\ getContrastTextColor pow_ref "#6366f1"
          = Returns (if rw <=? rb then "#010101" else "#FFFFFF").
Proof.
  split; [vm_compute; reflexivity|].
  apply (getContrastTextColor_higher_ratio pow_ref "#6366f1").
  vm_compute. reflexivity.
Defined.

(** The values of the larger and of the smaller of two numbers. *)
Lemma extremes_FV (x y : float) :
  fnn x -> fnn y ->
  fnn (Math_max2 x y) /\ fnn (Math_min2 x y)
  /\ FV (Math_max2 x y) = Z.max (FV x) (FV y)
  /\ FV (Math_min2 x y) = Z.min (FV x) (FV y).
Proof.
  intros Nx Ny. unfold Math_max2, Math_min2.
  destruct (x <? y) eqn:Hxy.
  - apply (ltb_FV x y Nx Ny) in Hxy. repeat split; try assumption; lia.
  - destruct (y <? x) eqn:Hyx.
    + apply (ltb_FV y x Ny Nx) in Hyx. repeat split; try assumption; lia.
    + assert (Heq : FV x = FV y).
      { destruct (Z.lt_trichotomy (FV x) (FV y)) as [H|[H|H]]; [|exact H|].
        - apply (ltb_FV x y Nx Ny) in H. congruence.
        - apply (ltb_FV y x Ny Nx) in H. congruence. }
      assert (He : (x =? y) = true).
      { rewrite FloatAxioms.eqb_spec. unfold SFeqb. rewrite (compare_FV x y Nx Ny).
        now rewrite (proj2 (Z.compare_eq_iff _ _) Heq). }
      rewrite He. destruct (get_sign x); repeat split; try assumption; lia.
Qed.

(** A ratio is at least the ratio of a lower bound of the lighter colour
    to an upper bound of the darker one. *)
Lemma ratio_lower (L1 L2 lo hi : float) :
  unit_range L1 -> unit_range L2 -> unit_range lo -> unit_range hi ->
  (FV lo <= Z.max (FV L1) (FV L2))%Z -> (Z.min (FV L1) (FV L2) <= FV hi)%Z ->
  let r := (Math_max2 L1 L2 + 0.05) / (Math_min2 L1 L2 + 0.05) in
  (FV ((lo + 0.05) / (hi + 0.05)) <= FV r)%Z.
Proof.
  intros U1 U2 Ulo Uhi Hlo Hhi r.
  destruct (extremes_unit L1 L2 U1 U2) as (Umax & Umin & _).
  destruct (extremes_FV L1 L2 (proj1 U1) (proj1 U2)) as (_ & _ & Emax & Emin).
  assert (Mc : moderate 0.05) by (apply moderate_const; reflexivity).
  destruct (add_le_mono lo (Math_max2 L1 L2) 0.05 0.05
              (unit_moderate _ Ulo) (unit_moderate _ Umax) Mc Mc
              ltac:(lia) ltac:(lia)) as [_ Hn].
  destruct (add_le_mono (Math_min2 L1 L2) hi 0.05 0.05
              (unit_moderate _ Umin) (unit_moderate _ Uhi) Mc Mc
              ltac:(lia) ltac:(lia)) as [_ Hd].
  apply div_le_mono; try apply offset_sizeable; assumption.
Qed.

Lemma unit_const (x : float) : (0 <=? x) && (x <=? 1) = true -> unit_range x.
Proof. intros H. apply andb_true_iff in H as [H0 H1]. now apply unit_of_leb. Qed.

(** X13. The text colour returned always reaches the contrast 4.5 against
    the background, valid colour or not: of the ratios for black and for
    white at least one is 4.5 or more, so the last branch of the function,
    for the case that neither is, is never taken.  [Math.pow] is assumed
    to give [pow(1, 2.4) = 1], beside staying in [0, 1]. *)
Theorem getContrastTextColor_passes
    (Math_pow : float -> float -> float) (bg : string) :
  forallb (gamma_check Math_pow) bytes = true ->
  Math_pow 1 2.4 = 1 ->
  exists rb rw c,
    getContrastRatio Math_pow "#010101" bg = Returns rb
    /\ getContrastRatio Math_pow "#FFFFFF" bg = Returns rw
    /\ getContrastTextColor Math_pow bg = Returns c
    /\ (c = "#010101" /\ (4.5 <=? rb) = true
        \/ c = "#FFFFFF" /\ (4.5 <=? rw) = true).
Proof.
  intros Hp Hone.
  destruct (getLuminance_unit_any Math_pow bg Hp) as (L & E & U).
  pose proof (getLuminance_black Math_pow) as Eb.
  pose proof (getLuminance_white Math_pow) as Ew. rewrite Hone in Ew.
  change (0.2126 * 1 + 0.7152 * 1 + 0.0722 * 1) with 1 in Ew.
  set (Lb := 0.00030352698354883752) in *.
  assert (Ub : unit_range Lb) by (apply unit_const; reflexivity).
  assert (U1 : unit_range 1) by (apply unit_const; reflexivity).
  assert (UT : unit_range 0.18) by (apply unit_const; reflexivity).
  destruct (ratio_values Lb L Ub U) as (Nb & _ & _).
  destruct (ratio_values 1 L U1 U) as (Nw & _ & _).
  set (rb := (Math_max2 Lb L + 0.05) / (Math_min2 Lb L + 0.05)) in *.
  set (rw := (Math_max2 1 L + 0.05) / (Math_min2 1 L + 0.05)) in *.
  assert (Hb : getContrastRatio Math_pow black bg = Returns rb).
  { unfold getContrastRatio. rewrite Eb, E. reflexivity. }
  assert (Hw : getContrastRatio Math_pow white bg = Returns rw).
  { unfold getContrastRatio. rewrite Ew, E. reflexivity. }
  assert (N45 : fnn 4.5) by exact I.
  assert (Hor : (4.5 <=? rb) = true \/ (4.5 <=? rw) = true).
  { destruct (Z.le_ge_cases (FV L) (FV 0.18)) as [HL|HL].
    - right. apply (leb_FV 4.5 rw N45 Nw).
      pose proof (ratio_lower 1 L 1 0.18 U1 U U1 UT ltac:(lia) ltac:(lia)) as Hr.
      cbv zeta in Hr. fold rw in Hr.
      assert (H45 : (FV 4.5 <= FV ((1 + 0.05) / (0.18 + 0.05)))%Z)
        by (apply leb_FV; [exact I | exact I | reflexivity]).
      lia.
    - left. apply (leb_FV 4.5 rb N45 Nb).
      pose proof (ratio_lower Lb L 0.18 Lb Ub U UT Ub ltac:(lia) ltac:(lia)) as Hr.
      cbv zeta in Hr. fold rb in Hr.
      assert (H45 : (FV 4.5 <= FV ((0.18 + 0.05) / (Lb + 0.05)))%Z)
        by (apply leb_FV; [exact I | exact I | reflexivity]).
      lia. }
  exists rb, rw.
  rewrite (getContrastTextColor_unfold Math_pow bg rb rw Hb Hw).
  destruct (4.5 <=? rb) eqn:Pb, (4.5 <=? rw) eqn:Pw; cbn [andb].
  - destruct (rw <=? rb); eexists; (split; [exact Hb|]; split; [exact Hw|];
      split; [reflexivity|]); [left | right]; split; reflexivity.
  - eexists. split; [exact Hb|]. split; [exact Hw|]. split; [reflexivity|].
    left. split; reflexivity.
  - eexists. split; [exact Hb|]. split; [exact Hw|]. split; [reflexivity|].
    right. split; reflexivity.
  - exfalso. destruct Hor; discriminate.
Qed.

Lemma getContrastTextColor_passes_witness :
  forallb (gamma_check pow_ref) bytes = true
  /\ pow_ref 1 2.4 = 1
  /\ exists rb rw c,
       getContrastRatio pow_ref "#010101" "#6366f1" = Returns rb
       /\ getContrastRatio pow_ref "#FFFFFF" "#6366f1" = Returns rw
       /\ getContrastTextColor pow_ref "#6366f1" = Returns c
       /\ (c = "#010101" /\ (4.5 <=? rb) = true
           \/ c = "#FFFFFF" /\ (4.5 <=? rw) = true).
Proof.
  split; [vm_compute; reflexivity|]. split; [vm_compute; reflexivity|].
  apply (getContrastTextColor_passes pow_ref "#6366f1"); vm_compute; reflexivity.
Defined.

(** X14. A string that fails the pattern counts as the colour black
    ["#000000"] in a contrast ratio, on either side, and so in the choice
    of the text colour. *)
Theorem invalid_counts_as_black
    (Math_pow : float -> float -> float) (hex other : string) :
  isValidHex hex = false ->
  getContrastRatio Math_pow hex other = getContrastRatio Math_pow "#000000" other
  /\ getContrastRatio Math_pow other hex = getContrastRatio Math_pow other "#000000"
  /\ getContrastTextColor Math_pow hex = getContrastTextColor Math_pow "#000000".
Proof.
  intros Hv.
  assert (H0 : getLuminance Math_pow "#000000" = Returns 0)
    by (vm_compute; reflexivity).
  pose proof (getLuminance_invalid Math_pow hex Hv) as Hi.
  unfold getContrastTextColor, getContrastRatio. rewrite Hi, H0. auto.
Qed.

Lemma invalid_counts_as_black_witness :
  isValidHex "#f00" = false
  /\ getContrastRatio pow_ref "#f00" "#FFFFFF"
     = getContrastRatio pow_ref "#000000" "#FFFFFF"
  /\ getContrastTextColor pow_ref "#f00" = getContrastTextColor pow_ref "#000000".
Proof.
  split; [reflexivity|].
  destruct (invalid_counts_as_black pow_ref "#f00" "#FFFFFF" eq_refl)
    as (H1 & _ & H3).
  split; [exact H1 | exact H3].
Defined.

(** * The colour picker *)

Import ThemeColorPicker.

(** ** normalizeHex *)

Lemma hex_char_class (c : ascii) : hex_char c = hex_class c.
Proof.
  unfold hex_char, hex_class. cbv zeta.
  repeat match goal with
         | |- context [(?a <=? ?b)%nat] => destruct (a <=? b)%nat
         end; reflexivity.
Qed.

Lemma keep_chars_all (keep : ascii -> bool) (str : string) :
  all_chars keep (keep_chars keep str) = true.
Proof.
  unfold all_chars. induction str as [|c rest IH]; [reflexivity|].
  cbn [keep_chars]. destruct (keep c) eqn:Hk; [|exact IH].
  cbn [list_ascii_of_string forallb]. now rewrite Hk.
Qed.

Lemma keep_chars_fixed (keep : ascii -> bool) (str : string) :
  all_chars keep str = true -> keep_chars keep str = str.
Proof.
  unfold all_chars. induction str as [|c rest IH]; [reflexivity|].
  cbn [list_ascii_of_string forallb keep_chars]. intros H.
  apply andb_true_iff in H as [Hc Hr]. now rewrite Hc, IH.
Qed.

Lemma all_chars_six (c1 c2 c3 c4 c5 c6 : ascii) :
  all_chars hex_char (six c1 c2 c3 c4 c5 c6) = true <->
  hex_class c1 = true /\ hex_class c2 = true /\ hex_class c3 = true
  /\ hex_class c4 = true /\ hex_class c5 = true /\ hex_class c6 = true.
Proof.
  unfold all_chars, six. cbn [list_ascii_of_string forallb].
  rewrite !hex_char_class, !andb_true_iff. tauto.
Qed.

Lemma length_six (str : string) :
  String.length str = 6%nat -> exists c1 c2 c3 c4 c5 c6, str = six c1 c2 c3 c4 c5 c6.
Proof.
  destruct str as [|c1 [|c2 [|c3 [|c4 [|c5 [|c6 [|c7 r]]]]]]]; try discriminate.
  intros _. now exists c1, c2, c3, c4, c5, c6.
Qed.

Lemma length_three (str : string) :
  String.length str = 3%nat ->
  exists a b c, str = String a (String b (String c EmptyString)).
Proof.
  destruct str as [|a [|b [|c [|d r]]]]; try discriminate.
  intros _. now exists a, b, c.
Qed.

Lemma six_valid (c1 c2 c3 c4 c5 c6 : ascii) :
  all_chars hex_char (six c1 c2 c3 c4 c5 c6) = true ->
  hash_hex (String "#" (six c1 c2 c3 c4 c5 c6)) = true.
Proof.
  intros H. apply all_chars_six in H as (H1 & H2 & H3 & H4 & H5 & H6).
  cbn [hash_hex]. apply isValidHex_exec. eexists _, _, _.
  now apply (exec_six _ c1 c2 c3 c4 c5 c6).
Qed.

Lemma hash_hex_valid (str : string) : hash_hex str = true -> isValidHex str = true.
Proof.
  destruct str as [|c r]; [discriminate|]. unfold hash_hex.
  destruct c as [[] [] [] [] [] [] [] []]; try discriminate. auto.
Qed.

Lemma hash_hex_inv (str : string) :
  hash_hex str = true ->
  exists c1 c2 c3 c4 c5 c6,
    str = String "#" (six c1 c2 c3 c4 c5 c6)
    /\ all_chars hex_char (six c1 c2 c3 c4 c5 c6) = true.
Proof.
  intros H. pose proof (hash_hex_valid str H) as Hv.
  apply isValidHex_exec in Hv as (g1 & g2 & g3 & He).
  destruct (exec_inv str g1 g2 g3 He)
    as (c1 & c2 & c3 & c4 & c5 & c6 & Hs & _ & _ & _ & K).
  exists c1, c2, c3, c4, c5, c6. split; [|now apply all_chars_six].
  destruct str as [|c r]; [discriminate|]. unfold hash_hex in H.
  destruct c as [[] [] [] [] [] [] [] []]; try discriminate.
  cbn [strip_hash] in Hs. now rewrite Hs.
Qed.

(** The three cases of [normalizeHex]. *)
Lemma normalizeHex_cases (value : string) :
  let cleaned := keep_chars hex_char value in
  (exists c1 c2 c3 c4 c5 c6,
      cleaned = six c1 c2 c3 c4 c5 c6
      /\ normalizeHex value = String "#" cleaned)
  \/ (exists a b c,
         cleaned = String a (String b (String c EmptyString))
         /\ normalizeHex value = String "#" (six a a b b c c)
         /\ all_chars hex_char (six a a b b c c) = true)
  \/ (String.length cleaned <> 6%nat /\ String.length cleaned <> 3%nat
      /\ truthy value = true /\ normalizeHex value = String "#" cleaned)
  \/ (value = "" /\ normalizeHex value = "").
Proof.
  intros cleaned. unfold normalizeHex. fold cleaned.
  destruct (Nat.eqb_spec (String.length cleaned) 6) as [H6|H6].
  - left. destruct (length_six cleaned H6) as (c1 & c2 & c3 & c4 & c5 & c6 & E).
    exists c1, c2, c3, c4, c5, c6. split; [exact E | reflexivity].
  - destruct (Nat.eqb_spec (String.length cleaned) 3) as [H3|H3].
    + right. left. destruct (length_three cleaned H3) as (a & b & c & E).
      exists a, b, c. split; [exact E|]. rewrite E. split; [reflexivity|].
      pose proof (keep_chars_all hex_char value) as Hall. fold cleaned in Hall.
      rewrite E in Hall. unfold all_chars, six in *.
      cbn [list_ascii_of_string forallb] in *.
      apply andb_true_iff in Hall as [Ha Hall].
      apply andb_true_iff in Hall as [Hb Hall].
      apply andb_true_iff in Hall as [Hc _].
      now rewrite Ha, Hb, Hc.
    + right. right. destruct (truthy value) eqn:Ht.
      * left. auto.
      * right. split; [|reflexivity]. unfold truthy in Ht.
        apply negb_false_iff in Ht. now apply String.eqb_eq in Ht.
Qed.

Lemma normalizeHex_hash_hex (value : string) :
  isValidHex (normalizeHex value) = true -> hash_hex (normalizeHex value) = true.
Proof.
  pose proof (keep_chars_all hex_char value) as Hall.
  destruct (normalizeHex_cases value)
    as [(c1 & c2 & c3 & c4 & c5 & c6 & E & ->)
       |[(a & b & c & E & -> & Habc)
        |[(N6 & N3 & _ & ->)|(-> & ->)]]].
  - intros _. rewrite E in *. now apply six_valid.
  - intros _. now apply six_valid.
  - intros Hv. exfalso.
    apply isValidHex_exec in Hv as (g1 & g2 & g3 & He).
    destruct (exec_inv _ g1 g2 g3 He) as (c1 & c2 & c3 & c4 & c5 & c6 & Hs & _).
    cbn [strip_hash] in Hs. apply N6. now rewrite Hs.
  - discriminate.
Qed.

(** X15. [normalizeHex value] is a valid colour exactly when [value]
    holds three or six hex digits, whatever other characters stand around
    and between them; it then starts with the hash. *)
Theorem normalizeHex_valid (value : string) :
  (isValidHex (normalizeHex value) = true <->
   String.length (keep_chars hex_char value) = 6%nat
   \/ String.length (keep_chars hex_char value) = 3%nat)
  /\ (isValidHex (normalizeHex value) = true ->
      hash_hex (normalizeHex value) = true).
Proof.
  pose proof (keep_chars_all hex_char value) as Hall.
  destruct (normalizeHex_cases value)
    as [(c1 & c2 & c3 & c4 & c5 & c6 & E & ->)
       |[(a & b & c & E & -> & Habc)
        |[(N6 & N3 & _ & ->)|(-> & ->)]]].
  - rewrite E in *. pose proof (six_valid _ _ _ _ _ _ Hall) as Hh.
    split; [|auto]. split; [intros _; left; reflexivity|].
    intros _. now apply hash_hex_valid.
  - rewrite E. pose proof (six_valid _ _ _ _ _ _ Habc) as Hh.
    split; [|auto]. split; [intros _; right; reflexivity|].
    intros _. now apply hash_hex_valid.
  - assert (Hno : isValidHex (String "#" (keep_chars hex_char value)) = false).
    { destruct (isValidHex _) eqn:Hv; [|reflexivity]. exfalso.
      apply isValidHex_exec in Hv as (g1 & g2 & g3 & He).
      destruct (exec_inv _ g1 g2 g3 He)
        as (c1 & c2 & c3 & c4 & c5 & c6 & Hs & _).
      cbn [strip_hash] in Hs. apply N6. now rewrite Hs. }
    rewrite Hno. split; [|discriminate]. split; [discriminate|]. tauto.
  - split; [|discriminate]. split; [discriminate|].
    cbn. intros [H|H]; discriminate H.
Qed.

Lemma hash_not_hex : hex_char "#" = false.
Proof. reflexivity. Qed.

Lemma keep_hash (str : string) :
  all_chars hex_char str = true -> keep_chars hex_char (String "#" str) = str.
Proof.
  intros H. cbn [keep_chars]. rewrite hash_not_hex. now apply keep_chars_fixed.
Qed.

(** X16. [normalizeHex] is idempotent: normalising its result again
    changes nothing. *)
Theorem normalizeHex_idempotent (value : string) :
  normalizeHex (normalizeHex value) = normalizeHex value.
Proof.
  pose proof (keep_chars_all hex_char value) as Hall.
  destruct (normalizeHex_cases value)
    as [(c1 & c2 & c3 & c4 & c5 & c6 & E & ->)
       |[(a & b & c & E & -> & Habc)
        |[(N6 & N3 & _ & ->)|(-> & ->)]]].
  - unfold normalizeHex at 1. rewrite (keep_hash _ Hall), E. reflexivity.
  - unfold normalizeHex at 1. rewrite (keep_hash _ Habc). reflexivity.
  - unfold normalizeHex at 1. rewrite (keep_hash _ Hall).
    rewrite (proj2 (Nat.eqb_neq _ _) N6), (proj2 (Nat.eqb_neq _ _) N3).
    reflexivity.
  - reflexivity.
Qed.

(** X17. [normalizeHex] leaves a valid colour as it is, digits and their
    case included, except that it adds the hash when it is missing; three
    hex digits are doubled one by one; and the result is empty for the
    empty string only. *)
Theorem normalizeHex_colour (value : string) :
  (isValidHex value = true -> normalizeHex value = String "#" (strip_hash value))
  /\ (forall a b c,
         keep_chars hex_char value = String a (String b (String c EmptyString)) ->
         normalizeHex value = String "#" (six a a b b c c))
  /\ (normalizeHex value = "" <-> value = "").
Proof.
  split; [|split].
  - intros Hv. apply isValidHex_exec in Hv as (g1 & g2 & g3 & He).
    destruct (exec_inv value g1 g2 g3 He)
      as (c1 & c2 & c3 & c4 & c5 & c6 & Hs & _ & _ & _ & K).
    assert (Hall : all_chars hex_char (six c1 c2 c3 c4 c5 c6) = true)
      by now apply all_chars_six.
    assert (Hk : keep_chars hex_char value = six c1 c2 c3 c4 c5 c6).
    { destruct (strip_hash_cases value) as [[rest [Hv Hr]]|[Hv _]].
      - rewrite Hv. rewrite Hr in Hs. subst rest. now apply keep_hash.
      - rewrite Hv in Hs. rewrite Hs. now apply keep_chars_fixed. }
    unfold normalizeHex. rewrite Hk, Hs. reflexivity.
  - intros a b c E. unfold normalizeHex. rewrite E. reflexivity.
  - destruct (normalizeHex_cases value)
      as [(c1 & c2 & c3 & c4 & c5 & c6 & E & ->)
         |[(a & b & c & E & -> & Habc)
          |[(N6 & N3 & Ht & ->)|(-> & ->)]]].
    + split; [discriminate|]. intros ->. discriminate E.
    + split; [discriminate|]. intros ->. discriminate E.
    + split; [discriminate|]. intros ->. discriminate Ht.
    + tauto.
Qed.

Lemma normalizeHex_colour_witness :
  isValidHex "6366F1" = true
  /\ normalizeHex "6366F1" = "#6366F1"
  /\ normalizeHex "f0a" = "#ff00aa".
Proof.
  split; [reflexivity|].
  destruct (normalizeHex_colour "6366F1") as (H1 & _ & _).
  destruct (normalizeHex_colour "f0a") as (_ & H2 & _).
  split; [exact (H1 eq_refl) | exact (H2 _ _ _ eq_refl)].
Defined.

(** ** Arrays *)

Lemma array_set_nil {A : Type} (i : nat) (v : option A) :
  array_set [] i v = (repeat None i ++ [v])%list.
Proof. unfold array_set. cbn. now rewrite Nat.sub_0_r. Qed.

Lemma array_set_head {A : Type} (x : option A) (xs : list (option A)) (v : option A) :
  array_set (x :: xs) 0 v = v :: xs.
Proof. reflexivity. Qed.

Lemma array_set_tail {A : Type} (x : option A) (xs : list (option A))
    (i : nat) (v : option A) :
  array_set (x :: xs) (S i) v = x :: array_set xs i v.
Proof.
  unfold array_set. cbn [List.length].
  change (S i <? S (List.length xs))%nat with (i <? List.length xs)%nat.
  destruct (i <? List.length xs)%nat; reflexivity.
Qed.

Lemma array_get_set {A : Type} (xs : list (option A)) (i : nat) (v : option A) :
  array_get (array_set xs i v) i = v.
Proof.
  unfold array_get. revert i. induction xs as [|x xs IH]; intros i.
  - rewrite array_set_nil. induction i as [|i IHi]; [reflexivity | exact IHi].
  - destruct i as [|i]; [reflexivity|]. rewrite array_set_tail. apply IH.
Qed.

Lemma array_get_set_other {A : Type} (xs : list (option A)) (i j : nat)
    (v : option A) :
  j <> i -> array_get (array_set xs i v) j = array_get xs j.
Proof.
  unfold array_get. revert i j. induction xs as [|x xs IH]; intros i j Hj.
  - rewrite array_set_nil. revert j Hj.
    induction i as [|i IHi]; intros [|j] Hj; try reflexivity;
      try (now contradiction Hj).
    + cbn. now destruct j.
    + cbn [repeat app nth]. rewrite IHi by lia. now destruct j.
  - destruct i as [|i].
    + rewrite array_set_head. destruct j as [|j]; [now contradiction Hj | reflexivity].
    + rewrite array_set_tail. destruct j as [|j]; [reflexivity|].
      cbn [nth]. apply IH. lia.
Qed.

Lemma array_set_all {A : Type} (ok : option A -> bool) (xs : list (option A))
    (i : nat) (v : option A) :
  ok None = true -> ok v = true -> forallb ok xs = true ->
  forallb ok (array_set xs i v) = true.
Proof.
  intros Hn Hv. revert i. induction xs as [|x xs IH]; intros i Hall.
  - rewrite array_set_nil. induction i as [|i IHi]; cbn; [now rewrite Hv|].
    now rewrite Hn.
  - cbn [forallb] in Hall. apply andb_true_iff in Hall as [Hx Hxs].
    destruct i as [|i].
    + rewrite array_set_head. cbn [forallb]. now rewrite Hv.
    + rewrite array_set_tail. cbn [forallb]. now rewrite Hx, IH.
Qed.

(** ** The handlers *)

Lemma truthy_hash_hex (str : string) : hash_hex str = true -> truthy str = true.
Proof. destruct str; [discriminate | reflexivity]. Qed.

Lemma generateShades_hash_hex (primaryHex : string) :
  isValidHex primaryHex = true ->
  exists c0 c1 c2 c3 c4,
    generateShadesFromPrimary primaryHex = Returns [c0; c1; c2; c3; c4]
    /\ hash_hex c0 = true /\ hash_hex c1 = true /\ hash_hex c2 = true
    /\ hash_hex c3 = true /\ hash_hex c4 = true.
Proof.
  intros Hv. destruct (generateShades_valid _ Hv) as (x & _ & Hh & Hs & Hg).
  eexists _, _, _, _, _. split; [exact Hg|].
  repeat split; apply shade_hash_hex; try assumption;
    apply levels_percents; unfold lightnessLevels; cbn [In]; tauto.
Qed.

Lemma picker_ok_intro (st : Picker) :
  forallb shade_entry_ok (shades st) = true ->
  (hasTheme st = true -> hash_hex (primary st) = true) ->
  picker_ok st = true.
Proof.
  intros Hs Hp. unfold picker_ok. rewrite Hs. cbn [andb].
  destruct (hasTheme st); [now rewrite Hp | reflexivity].
Qed.

Lemma picker_ok_inv (st : Picker) :
  picker_ok st = true ->
  forallb shade_entry_ok (shades st) = true
  /\ (hasTheme st = true -> hash_hex (primary st) = true).
Proof.
  unfold picker_ok. intros H. apply andb_true_iff in H as [Hs Hp].
  split; [exact Hs|]. intros Ht. now rewrite Ht in Hp.
Qed.

Lemma entry_hash_hex (str : string) :
  hash_hex str = true -> shade_entry_ok (Some str) = true.
Proof. intros H. cbn [shade_entry_ok]. rewrite H. apply orb_true_r. Qed.

(** Setting the primary to a colour and the shades to its five shades. *)
Lemma theme_ok (hex : string) :
  isValidHex hex = true -> hash_hex hex = true ->
  exists generated,
    generateShadesFromPrimary hex = Returns generated
    /\ List.length generated = 5%nat
    /\ picker_ok {| primary := hex; shades := map Some generated |} = true.
Proof.
  intros Hv Hh.
  destruct (generateShades_hash_hex hex Hv)
    as (c0 & c1 & c2 & c3 & c4 & Hg & H0 & H1 & H2 & H3 & H4).
  eexists. split; [exact Hg|]. split; [reflexivity|].
  apply picker_ok_intro; cbn [primary shades]; [|auto].
  cbn [map forallb].
  now rewrite !entry_hash_hex by assumption.
Qed.

Lemma handle_ok (e : event) (st : Picker) :
  picker_ok st = true ->
  exists st', handle e st = Returns st' /\ picker_ok st' = true.
Proof.
  intros Hok. destruct (picker_ok_inv st Hok) as [Hs Hp].
  destruct e as [value|value|index value|index value]; cbn [handle].
  - unfold handlePrimaryChange. cbv zeta.
    destruct (truthy (normalizeHex value)) eqn:Ht; cbn [negb].
    + destruct (isValidHex (normalizeHex value)) eqn:Hv.
      * destruct (theme_ok _ Hv (normalizeHex_hash_hex _ Hv)) as (gen & -> & _ & Hk).
        cbn [bind]. eexists. split; [reflexivity | exact Hk].
      * eexists. split; [reflexivity|].
        apply picker_ok_intro; cbn [primary shades]; [exact Hs|].
        unfold hasTheme. cbn [primary]. rewrite Hv, andb_false_r. discriminate.
    + eexists. split; reflexivity.
  - unfold handlePrimaryInputBlur. cbv zeta.
    destruct (truthy (normalizeHex value) && isValidHex (normalizeHex value)) eqn:Hc.
    + apply andb_true_iff in Hc as [_ Hv].
      destruct (theme_ok _ Hv (normalizeHex_hash_hex _ Hv)) as (gen & -> & _ & Hk).
      cbn [bind]. eexists. split; [reflexivity | exact Hk].
    + destruct (negb (truthy (trim value))).
      * eexists. split; reflexivity.
      * eexists. split; [reflexivity | exact Hok].
  - unfold handleShadeChange. cbv zeta. eexists. split; [reflexivity|].
    apply picker_ok_intro; cbn [primary shades]; [|exact Hp].
    destruct (truthy (normalizeHex value) && isValidHex (normalizeHex value)) eqn:Hc.
    + apply andb_true_iff in Hc as [_ Hv].
      apply array_set_all; [reflexivity | | exact Hs].
      apply entry_hash_hex. now apply normalizeHex_hash_hex.
    + destruct (negb (truthy (trim value))); [|exact Hs].
      apply array_set_all; [reflexivity | reflexivity | exact Hs].
  - unfold handleShadeBlur.
    destruct (negb (truthy (primary st)) || negb (isValidHex (primary st))) eqn:Hg.
    + eexists. split; [reflexivity | exact Hok].
    + apply orb_false_iff in Hg as [Ht Hv].
      apply negb_false_iff in Ht, Hv. cbv zeta.
      destruct (truthy (normalizeHex value) && isValidHex (normalizeHex value)) eqn:Hc.
      * apply andb_true_iff in Hc as [_ Hn].
        eexists. split; [reflexivity|].
        apply picker_ok_intro; cbn [primary shades]; [|exact Hp].
        apply array_set_all; [reflexivity | | exact Hs].
        apply entry_hash_hex. now apply normalizeHex_hash_hex.
      * destruct (generateShades_hash_hex _ Hv)
          as (c0 & c1 & c2 & c3 & c4 & -> & H0 & H1 & H2 & H3 & H4).
        cbn [bind]. eexists. split; [reflexivity|].
        apply picker_ok_intro; cbn [primary shades]; [|exact Hp].
        apply array_set_all; [reflexivity | | exact Hs].
        destruct index as [|[|[|[|[|index]]]]]; cbn [nth_error];
          try (now apply entry_hash_hex).
        now destruct index.
Qed.

Lemma run_ok (es : list event) (st : Picker) :
  picker_ok st = true ->
  exists st', run es st = Returns st' /\ picker_ok st' = true.
Proof.
  revert st. induction es as [|e es IH]; intros st Hok.
  - exists st. split; [reflexivity | exact Hok].
  - cbn [run]. destruct (handle_ok e st Hok) as (st1 & -> & Hok1).
    cbn [bind]. now apply IH.
Qed.

Lemma array_get_ok (xs : list (option string)) (i : nat) :
  forallb shade_entry_ok xs = true -> shade_entry_ok (array_get xs i) = true.
Proof.
  unfold array_get. revert i. induction xs as [|x xs IH]; intros i Hall.
  - now destruct i.
  - cbn [forallb] in Hall. apply andb_true_iff in Hall as [Hx Hxs].
    destruct i as [|i]; [exact Hx | now apply IH].
Qed.

Lemma or_else_ok (x : option string) (d : string) :
  shade_entry_ok x = true -> hash_hex d = true ->
  exists c, or_else x (Some d) = Some c /\ hash_hex c = true.
Proof.
  intros Hx Hd. destruct x as [str|]; cbn [or_else].
  - cbn [shade_entry_ok] in Hx. destruct (truthy str).
    + exists str. split; [reflexivity | exact Hx].
    + now exists d.
  - now exists d.
Qed.

(** What is shown for a state that has a theme. *)
Lemma display_ok (st : Picker) :
  picker_ok st = true -> hasTheme st = true ->
  exists c0 c1 c2 c3 c4,
    displayShades st = Returns [Some c0; Some c1; Some c2; Some c3; Some c4]
    /\ cssVars st
       = Returns [Some (primary st); Some c0; Some c1; Some c2; Some c3; Some c4]
    /\ hash_hex (primary st) = true
    /\ hash_hex c0 = true /\ hash_hex c1 = true /\ hash_hex c2 = true
    /\ hash_hex c3 = true /\ hash_hex c4 = true.
Proof.
  intros Hok Ht. destruct (picker_ok_inv st Hok) as [Hs Hp].
  assert (Hv : isValidHex (primary st) = true).
  { unfold hasTheme in Ht. now apply andb_true_iff in Ht as [_ Hv]. }
  destruct (generateShades_hash_hex _ Hv)
    as (d0 & d1 & d2 & d3 & d4 & Hg & H0 & H1 & H2 & H3 & H4).
  unfold displayShades, cssVars, defaults. rewrite Ht, Hg. cbn [bind map].
  unfold shadeOrDefault. cbn [nth_error].
  destruct (or_else_ok _ d0 (array_get_ok _ 0 Hs) H0) as (c0 & -> & K0).
  destruct (or_else_ok _ d1 (array_get_ok _ 1 Hs) H1) as (c1 & -> & K1).
  destruct (or_else_ok _ d2 (array_get_ok _ 2 Hs) H2) as (c2 & -> & K2).
  destruct (or_else_ok _ d3 (array_get_ok _ 3 Hs) H3) as (c3 & -> & K3).
  destruct (or_else_ok _ d4 (array_get_ok _ 4 Hs) H4) as (c4 & -> & K4).
  exists c0, c1, c2, c3, c4. split; [reflexivity|]. split; [reflexivity|].
  auto 10.
Qed.

Lemma display_none (st : Picker) :
  hasTheme st = false -> displayShades st = Returns [] /\ cssVars st = Returns [].
Proof.
  intros Ht. unfold displayShades, cssVars, defaults. rewrite Ht. auto.
Qed.

(** X18. Whatever the user types and in whatever order the events come,
    no handler throws, and a render shows either nothing (no theme) or the
    primary and five shades that are each a hash followed by six hex
    digits: an invalid string never reaches the style sheet. *)
Theorem picker_colours (es : list event) :
  exists st,
    run es initial = Returns st
    /\ (hasTheme st = false ->
        displayShades st = Returns [] /\ cssVars st = Returns [])
    /\ (hasTheme st = true ->
        exists c0 c1 c2 c3 c4,
          displayShades st = Returns [Some c0; Some c1; Some c2; Some c3; Some c4]
          /\ cssVars st
             = Returns [Some (primary st); Some c0; Some c1; Some c2; Some c3;
                        Some c4]
          /\ Forall (fun c => hash_hex c = true)
                    [primary st; c0; c1; c2; c3; c4]).
Proof.
  destruct (run_ok es initial eq_refl) as (st & Hr & Hok).
  exists st. split; [exact Hr|]. split.
  - apply display_none.
  - intros Ht.
    destruct (display_ok st Hok Ht)
      as (c0 & c1 & c2 & c3 & c4 & Hd & Hc & Hp & H0 & H1 & H2 & H3 & H4).
    exists c0, c1, c2, c3, c4. split; [exact Hd|]. split; [exact Hc|].
    repeat (apply Forall_cons; [assumption|]). apply Forall_nil.
Qed.

(** X19. Choosing a primary that normalises to a valid colour replaces the
    whole array of shades by the five generated ones, so every override
    made before is dropped and the shades shown are the generated ones;
    a text that does not normalise to a colour hides the theme. *)
Theorem handlePrimaryChange_resets (value : string) (st : Picker) :
  (isValidHex (normalizeHex value) = true ->
   exists generated,
     generateShadesFromPrimary (normalizeHex value) = Returns generated
     /\ handlePrimaryChange value st
        = Returns {| primary := normalizeHex value; shades := map Some generated |}
     /\ displayShades {| primary := normalizeHex value;
                         shades := map Some generated |}
        = Returns (map Some generated))
  /\ (isValidHex (normalizeHex value) = false ->
      exists st', handlePrimaryChange value st = Returns st'
                  /\ hasTheme st' = false
                  /\ displayShades st' = Returns []).
Proof.
  split; intros Hv.
  - pose proof (normalizeHex_hash_hex _ Hv) as Hh.
    destruct (generateShades_hash_hex _ Hv)
      as (c0 & c1 & c2 & c3 & c4 & Hg & H0 & H1 & H2 & H3 & H4).
    eexists. split; [exact Hg|].
    unfold handlePrimaryChange. cbv zeta.
    rewrite (truthy_hash_hex _ Hh), Hv, Hg. cbn [negb bind]. split; [reflexivity|].
    unfold displayShades, defaults, hasTheme. cbn [primary shades].
    rewrite (truthy_hash_hex _ Hh), Hv, Hg. cbn [andb bind map].
    unfold shadeOrDefault, array_get. cbn [shades nth nth_error or_else].
    now rewrite !truthy_hash_hex by assumption.
  - unfold handlePrimaryChange. cbv zeta.
    destruct (truthy (normalizeHex value)) eqn:Ht; cbn [negb]; rewrite ?Hv.
    + eexists. split; [reflexivity|].
      assert (Hth : hasTheme {| primary := normalizeHex value; shades := shades st |}
                    = false).
      { unfold hasTheme. cbn [primary]. now rewrite Hv, andb_false_r. }
      split; [exact Hth | now apply display_none].
    + eexists. split; [reflexivity|]. split; reflexivity.
Qed.

(** X20. Leaving the text field of a shade stores the typed colour when
    the text normalises to one and the generated shade of the primary
    otherwise; the other entries and the primary stay, and nothing at all
    changes while there is no theme. *)
Theorem handleShadeBlur_entry (index : nat) (value : string) (st : Picker) :
  (hasTheme st = false -> handleShadeBlur index value st = Returns st)
  /\ (hasTheme st = true ->
      exists st' generated,
        handleShadeBlur index value st = Returns st'
        /\ generateShadesFromPrimary (primary st) = Returns generated
        /\ primary st' = primary st
        /\ array_get (shades st') index
           = (if isValidHex (normalizeHex value)
              then Some (normalizeHex value)
              else nth_error generated index)
        /\ forall j, j <> index ->
                     array_get (shades st') j = array_get (shades st) j).
Proof.
  unfold hasTheme, handleShadeBlur. split; intros Ht.
  - apply andb_false_iff in Ht as [Ht|Ht]; rewrite Ht; cbn [negb orb];
      [reflexivity | now rewrite orb_true_r].
  - apply andb_true_iff in Ht as [Ht Hv]. rewrite Ht, Hv. cbn [negb orb]. cbv zeta.
    destruct (generateShades_hash_hex _ Hv)
      as (c0 & c1 & c2 & c3 & c4 & Hg & _).
    rewrite Hg. cbn [bind].
    destruct (isValidHex (normalizeHex value)) eqn:Hn.
    + rewrite (truthy_hash_hex _ (normalizeHex_hash_hex _ Hn)). cbn [andb].
      eexists _, _. split; [reflexivity|]. split; [reflexivity|].
      cbn [primary shades]. split; [reflexivity|].
      split; [apply array_get_set | intros j Hj; now apply array_get_set_other].
    + rewrite andb_false_r.
      eexists _, _. split; [reflexivity|]. split; [reflexivity|].
      cbn [primary shades]. split; [reflexivity|].
      split; [apply array_get_set | intros j Hj; now apply array_get_set_other].
Qed.

(** X21. Typing in the text field of a shade stores the colour as soon as
    the text normalises to one; a text of white space only stores the
    empty string, for which the generated shade is shown; any other text
    leaves the array as it is.  The primary and the other entries stay. *)
Theorem handleShadeChange_entry (index : nat) (value : string) (st : Picker) :
  exists st',
    handleShadeChange index value st = Returns st'
    /\ primary st' = primary st
    /\ (forall j, j <> index -> array_get (shades st') j = array_get (shades st) j)
    /\ (isValidHex (normalizeHex value) = true ->
        array_get (shades st') index = Some (normalizeHex value))
    /\ (isValidHex (normalizeHex value) = false -> truthy (trim value) = false ->
        array_get (shades st') index = Some ""
        /\ forall generated,
             shadeOrDefault st' generated index = nth_error generated index)
    /\ (isValidHex (normalizeHex value) = false -> truthy (trim value) = true ->
        shades st' = shades st).
Proof.
  unfold handleShadeChange. cbv zeta. eexists. split; [reflexivity|].
  cbn [primary shades]. split; [reflexivity|].
  destruct (isValidHex (normalizeHex value)) eqn:Hn.
  - rewrite (truthy_hash_hex _ (normalizeHex_hash_hex _ Hn)). cbn [andb].
    split; [intros j Hj; now apply array_get_set_other|].
    split; [intros _; apply array_get_set|].
    split; discriminate.
  - rewrite andb_false_r. destruct (truthy (trim value)) eqn:Hb; cbn [negb].
    + split; [reflexivity|]. split; [discriminate|]. split; [discriminate|].
      reflexivity.
    + split; [intros j Hj; now apply array_get_set_other|].
      split; [discriminate|]. split; [|discriminate].
      intros _ _. split; [apply array_get_set|].
      intros generated. unfold shadeOrDefault. cbn [shades].
      now rewrite array_get_set.
Qed.

Section TileText.

Variable Math_pow : float -> float -> float.

Lemma hash_hex_not_placeholder (c : string) :
  hash_hex c = true -> String.eqb c PLACEHOLDER = false.
Proof.
  destruct c as [|a r]; [discriminate|]. unfold hash_hex.
  destruct a as [[] [] [] [] [] [] [] []]; try discriminate. reflexivity.
Qed.

Lemma tile_of_colour (display : list (option string)) (i : nat) (c : string) :
  array_get display i = Some c -> hash_hex c = true ->
  exists t, tileTextColor Math_pow display i = Returns t
            /\ (t = "#010101" \/ t = "#FFFFFF").
Proof.
  intros Hg Hc. unfold tileTextColor. rewrite Hg.
  rewrite (truthy_hash_hex _ Hc), (hash_hex_not_placeholder _ Hc). cbn [negb orb].
  apply getContrastTextColor_returns.
Qed.

(** X22. After any sequence of events the text of each of the five tiles
    is black or white, chosen by [getContrastTextColor] on a valid colour,
    when there is a theme, and the placeholder grey ["#94a3b8"] when there
    is none. *)
Theorem tile_text_colours (es : list event) (i : nat) :
  exists st display t,
    run es initial = Returns st
    /\ displayShades st = Returns display
    /\ tileTextColor Math_pow display i = Returns t
    /\ (if hasTheme st && (i <? 5)%nat
        then t = "#010101" \/ t = "#FFFFFF"
        else t = "#94a3b8").
Proof.
  destruct (run_ok es initial eq_refl) as (st & Hr & Hok).
  exists st. destruct (hasTheme st) eqn:Ht; cbn [andb].
  - destruct (display_ok st Hok Ht)
      as (c0 & c1 & c2 & c3 & c4 & Hd & _ & _ & H0 & H1 & H2 & H3 & H4).
    set (display := [Some c0; Some c1; Some c2; Some c3; Some c4]) in *.
    assert (Hi : forall c, array_get display i = Some c -> hash_hex c = true ->
              exists t, run es initial = Returns st
                        /\ displayShades st = Returns display
                        /\ tileTextColor Math_pow display i = Returns t
                        /\ (t = "#010101" \/ t = "#FFFFFF")).
    { intros c Hg Hc. destruct (tile_of_colour display i c Hg Hc) as (t & Et & Ho).
      exists t. auto. }
    exists display.
    destruct i as [|[|[|[|[|i]]]]]; cbn [Nat.ltb Nat.leb];
      try (eapply Hi; [reflexivity | eassumption]).
    exists "#94a3b8". split; [exact Hr|]. split; [exact Hd|].
    split; [|reflexivity]. unfold tileTextColor, array_get, display. cbn [nth].
    now destruct i.
  - destruct (display_none st Ht) as [Hd _].
    exists [], "#94a3b8". split; [exact Hr|]. split; [exact Hd|].
    split; [|reflexivity]. unfold tileTextColor, array_get. now destruct i.
Qed.

End TileText.
